(** * Butler background service worker: a shallow embedding in Rocq

    Source: [src/background.js].  The model covers the header decoder
    ([htmlDecode]), the multi-folder aggregator
    ([fetchMessagesAcrossInboxAndSubfolders], and [calculatePerFolderLimit],
    which it never calls),
    the archive orchestrator ([processAndArchiveEmails]) and the triage
    pipeline ([classifySingleEmail] normalisation and
    [classifyAndMoveEmails]).  It also covers the Message-ID and bearer
    token parsers, the captured-token store with its request listener and
    debounced flush, the active Ollama model, [executeAIPlan],
    [countByFolder] and the duplicate counting of the orchestrator.

    Remote collaborators (OWA HTTP calls, chrome.storage, Ollama) are
    oracles: the record [Env] gives, for every request, the answer the
    remote side sends back, or the message of the error the JS call throws.
    Log lines are modelled without their [new Date().toISOString()] prefix. *)

From Stdlib Require Import String Ascii List Arith Bool Lia DecimalString ZArith NArith Sorted Permutation.
Import ListNotations.
Open Scope string_scope.
Open Scope list_scope.

(* ------------------------------------------------------------------ *)
(** ** Constants (top of background.js) *)

Definition MAX_EMAILS_TO_PROCESS : nat := 2000.
Definition MAX_FOLDERS_TO_PROCESS : nat := 30.
Definition MIN_EMAILS_PER_FOLDER : nat := 50.
Definition MAX_EMAILS_PER_FOLDER : nat := 2000.
Definition FINDITEM_PAGE_SIZE : nat := 200.
Definition DEFAULT_EMAIL_ITERATIONS : nat := 20.

(* ------------------------------------------------------------------ *)
(** ** String helpers: the JS string primitives the code uses *)

Definition nat_to_string (n : nat) : string :=
  NilZero.string_of_uint (Nat.to_uint n).

(** [String.prototype.includes] *)
Fixpoint includes (s sub : string) : bool :=
  match s with
  | EmptyString => String.prefix sub s
  | String _ s' => String.prefix sub s || includes s' sub
  end.

(** [str.replace(/pat/g, rep)] for a non-empty literal pattern: every
    non-overlapping occurrence, scanned left to right.  [fuel] is the
    length of the scanned string. *)
Fixpoint replace_go (fuel : nat) (pat rep s : string) : string :=
  match fuel with
  | O => s
  | S f =>
      match s with
      | EmptyString => EmptyString
      | String c s' =>
          if String.prefix pat s
          then String.append rep (replace_go f pat rep
                 (substring (String.length pat)
                    (String.length s - String.length pat) s))
          else String c (replace_go f pat rep s')
      end
  end.

Definition replace_all (pat rep s : string) : string :=
  replace_go (String.length s) pat rep s.

(** Template-literal concatenation. *)
Definition cat (parts : list string) : string :=
  String.concat EmptyString parts.

Definition chr (n : nat) : string := String (ascii_of_nat n) EmptyString.

(** The double quote character, [chr 34]. *)
Definition dquote : string := chr 34.

(** [htmlDecode] (background.js, lines 496-504).  A non-string or empty
    argument yields the empty string; the model takes strings only. *)
Definition htmlDecode (str : string) : string :=
  match str with
  | EmptyString => EmptyString
  | _ =>
      replace_all "&#39;" "'"
        (replace_all "&quot;" dquote
           (replace_all "&amp;" "&"
              (replace_all "&gt;" ">"
                 (replace_all "&lt;" "<" str))))
  end.

(** Spec side of claim C9 (not in the source): the escaping of the five
    characters less-than, greater-than, ampersand, double quote and single
    quote into the entities lt, gt, amp, quot and #39. *)
Fixpoint htmlEscape (s : string) : string :=
  match s with
  | EmptyString => EmptyString
  | String c s' =>
      let n := nat_of_ascii c in
      String.append
        (if Nat.eqb n 60 then "&lt;"
         else if Nat.eqb n 62 then "&gt;"
         else if Nat.eqb n 38 then "&amp;"
         else if Nat.eqb n 34 then "&quot;"
         else if Nat.eqb n 39 then "&#39;"
         else String c EmptyString) (htmlEscape s')
  end.

(** A JS string is modelled by its UTF-16 code units, each below 256
    (the Latin-1 block): one [ascii] per code unit.

    [toLowerCase] on that block: A-Z and the Latin-1 capitals U+00C0-U+00DE
    (except U+00D7) move up by 32; every other unit is its own lower case. *)
Definition lower_ascii (c : ascii) : ascii :=
  let n := nat_of_ascii c in
  if (Nat.leb 65 n && Nat.leb n 90)
     || (Nat.leb 192 n && Nat.leb n 222 && negb (Nat.eqb n 215))
  then ascii_of_nat (n + 32) else c.

Fixpoint toLowerCase (s : string) : string :=
  match s with
  | EmptyString => EmptyString
  | String c s' => String (lower_ascii c) (toLowerCase s')
  end.

(** The code units below 256 that [String.prototype.trim] strips
    (WhiteSpace and LineTerminator): TAB, LF, VT, FF, CR, SP and NBSP
    (U+00A0). *)
Definition is_ws (c : ascii) : bool :=
  let n := nat_of_ascii c in
  Nat.eqb n 32 || (Nat.leb 9 n && Nat.leb n 13) || Nat.eqb n 160.

Fixpoint trimStart (s : string) : string :=
  match s with
  | EmptyString => EmptyString
  | String c s' => if is_ws c then trimStart s' else s
  end.

Fixpoint rev_string (s : string) (acc : string) : string :=
  match s with
  | EmptyString => acc
  | String c s' => rev_string s' (String c acc)
  end.

Definition trim (s : string) : string :=
  rev_string (trimStart (rev_string (trimStart s) EmptyString)) EmptyString.

Definition mem (x : string) (l : list string) : bool :=
  existsb (String.eqb x) l.

(** [Set.prototype.add] on an insertion-ordered set. *)
Definition set_add (x : string) (s : list string) : list string :=
  if mem x s then s else s ++ [x].

(* ------------------------------------------------------------------ *)
(** ** Data model *)

(** A normalised message as built by [fetchInboxMessages] /
    [fetchFolderMessagesById].  A missing or non-string [id] is the empty
    string (JS falsy). *)
Record Msg := mkMsg {
  id : string;
  changeKey : string;
  subject : string;
  from : string;
  messageId : string;
  inReplyTo : list string;
  references : list string;
  sourceFolder : string
}.

Inductive FolderKind := Distinguished | ByFolderId.

Record FolderRef := mkFolderRef {
  f_kind : FolderKind;
  f_id : string;
  f_name : string
}.

Record FolderStat := mkFolderStat {
  fs_folder : string;
  fs_fetched : nat;
  fs_included : nat;
  fs_error : option string;
  fs_truncated : bool
}.

(** Result of a JS call that may throw: the value, or the thrown
    [error.message]. *)
Inductive Exc (A : Type) : Type :=
| Ok (a : A)
| Throw (msg : string).
Arguments Ok {A} a.
Arguments Throw {A} msg.

(** The remote side.  [env_page moves folder pageSize offset] is the page
    the mail store returns for a FindItem request, given the moves made so
    far (the mailbox state). *)
Record Env := mkEnv {
  env_subfolders : Exc (list (string * string));
  env_page : list (string * string) -> FolderRef -> nat -> nat -> Exc (list Msg);
  env_findFolder : string -> option string;
  env_createFolder : string -> option string;
  env_distinguished : string -> option string;
  env_move : string -> string -> option string;
  env_store : option string
}.

(** Values the run persists with [chrome.storage.local.set]
    (totalMessages, archived, duplicatesMoved, errors, log). *)
Record Stored := mkStored {
  sd_total : nat; sd_archived : nat; sd_dupMoved : nat; sd_errors : nat;
  sd_log : list string
}.

(** Process-wide state: the single-flight flag, the run log array, and
    what the remote side has observed (pages served, move calls, moves
    done, folders created, stored result). *)
Record St := mkSt {
  st_inProgress : bool;
  st_log : list string;
  st_pages : list (list Msg);
  st_moveCalls : list (string * string);
  st_moves : list (string * string);
  st_created : list string;
  st_stored : option Stored
}.

(* ------------------------------------------------------------------ *)
(** ** A state and exception monad *)

Definition M (A : Type) : Type := Env -> St -> Exc A * St.

Definition ret {A} (a : A) : M A := fun _ s => (Ok a, s).
Definition bind {A B} (m : M A) (k : A -> M B) : M B :=
  fun e s => match m e s with
             | (Ok a, s') => k a e s'
             | (Throw t, s') => (Throw t, s')
             end.
Definition throw {A} (msg : string) : M A := fun _ s => (Throw msg, s).
Definition get : M St := fun _ s => (Ok s, s).
Definition put (s : St) : M unit := fun _ _ => (Ok tt, s).
Definition ask : M Env := fun e s => (Ok e, s).
(** [try { m } catch (error) { h(error.message) }] *)
Definition catch {A} (m : M A) (h : string -> M A) : M A :=
  fun e s => match m e s with
             | (Ok a, s') => (Ok a, s')
             | (Throw t, s') => h t e s'
             end.
(** [try { m } finally { fin }] where [fin] does not throw. *)
Definition finally {A} (m : M A) (fin : M unit) : M A :=
  fun e s => match m e s with
             | (r, s') => match fin e s' with
                          | (Ok _, s'') => (r, s'')
                          | (Throw t, s'') => (Throw t, s'')
                          end
             end.

Notation "x <- m ;; k" := (bind m (fun x => k))
  (at level 61, m at next level, right associativity).
Notation "m ;;; k" := (bind m (fun _ => k))
  (at level 61, right associativity).

Definition set_log (l : list string) (s : St) : St :=
  mkSt (st_inProgress s) l (st_pages s) (st_moveCalls s) (st_moves s)
       (st_created s) (st_stored s).
Definition set_inProgress (b : bool) (s : St) : St :=
  mkSt b (st_log s) (st_pages s) (st_moveCalls s) (st_moves s)
       (st_created s) (st_stored s).

(** [log.push(line)] *)
Definition logp (line : string) : M unit :=
  s <- get ;; put (set_log (st_log s ++ [line]) s).

(* ------------------------------------------------------------------ *)
(** ** Multi-folder aggregator (background.js, lines 1020-1104) *)

(** [calculatePerFolderLimit]; a folder count that is not a positive
    finite number counts as 1 (in the model: 0). *)
Definition calculatePerFolderLimit (folderCount : nat) : nat :=
  let safeFolderCount := if Nat.ltb 0 folderCount then folderCount else 1 in
  let raw := MAX_EMAILS_TO_PROCESS / safeFolderCount in
  Nat.min MAX_EMAILS_PER_FOLDER (Nat.max MIN_EMAILS_PER_FOLDER raw).

(** [listInboxSubfolders]: [env_subfolders] gives the mapped folder list,
    or the message of the error raised inside the [try] (network error,
    its own throw on HTTP 401).  The [catch] turns every such error into
    [[]], as do the other failed answers; entries with an empty folder id
    are filtered out.  It never throws. *)
Definition listInboxSubfolders : M (list (string * string)) :=
  e <- ask ;;
  match env_subfolders e with
  | Ok l => ret (filter (fun f => negb (String.eqb (fst f) EmptyString)) l)
  | Throw _ => ret []
  end.

(** [fetchInboxMessages] / [fetchFolderMessagesById] for one page:
    the store answers from the current mailbox state; every page served is
    recorded in [st_pages]. *)
Definition fetchPage (folder : FolderRef) (pageSize offset : nat) : M (list Msg) :=
  e <- ask ;;
  s <- get ;;
  match env_page e (st_moves s) folder pageSize offset with
  | Ok page =>
      put (mkSt (st_inProgress s) (st_log s) (st_pages s ++ [page])
             (st_moveCalls s) (st_moves s) (st_created s) (st_stored s)) ;;;
      ret page
  | Throw t => throw t
  end.

(** [try { x = m } catch (e) { ... }] where the handler only records the
    message: the outcome as a value. *)
Definition attempt {A} (m : M A) : M (Exc A) :=
  catch (a <- m ;; ret (Ok a)) (fun t => ret (Throw t)).

Definition perFolderMax : nat := Nat.min MAX_EMAILS_PER_FOLDER MAX_EMAILS_TO_PROCESS.
Definition maxPagesPerFolder : nat :=
  (perFolderMax + FINDITEM_PAGE_SIZE - 1) / FINDITEM_PAGE_SIZE.

(** The aggregator's cross-folder accumulators: [messages] and
    [seenItemIds]. *)
Record Agg := mkAgg { a_messages : list Msg; a_seen : list string }.

(** The inner [for (const msg of pageMessages)] loop. *)
Fixpoint pushPage (page : list Msg) (g : Agg) (included : nat) : Agg * nat :=
  match page with
  | [] => (g, included)
  | msg :: rest =>
      if String.eqb (id msg) EmptyString then pushPage rest g included
      else if mem (id msg) (a_seen g) then pushPage rest g included
      else
        let g' := mkAgg (a_messages g ++ [msg]) (id msg :: a_seen g) in
        if Nat.leb MAX_EMAILS_TO_PROCESS (length (a_messages g'))
        then (g', S included)
        else pushPage rest g' (S included)
  end.

(** The [while] loop over the pages of one folder.  It runs at most
    [maxPagesPerFolder] times ([pageIndex] grows by one per round), which
    is the [fuel].  Returns the accumulators, [fetchedFromFolder],
    [includedFromFolder] and [pageError]. *)
Fixpoint folderLoop (fuel : nat) (folder : FolderRef) (g : Agg)
    (fetched included offset pageIndex : nat)
    : M (Agg * nat * nat * option string) :=
  match fuel with
  | O => ret (g, fetched, included, None)
  | S fuel' =>
      if Nat.ltb (length (a_messages g)) MAX_EMAILS_TO_PROCESS
         && Nat.ltb fetched perFolderMax && Nat.ltb pageIndex maxPagesPerFolder
      then
        let remainingForFolder := perFolderMax - fetched in
        let remainingGlobal := MAX_EMAILS_TO_PROCESS - length (a_messages g) in
        let pageSize := Nat.min FINDITEM_PAGE_SIZE
                          (Nat.min remainingForFolder remainingGlobal) in
        if Nat.eqb pageSize 0 then ret (g, fetched, included, None)
        else
          r <- attempt (fetchPage folder pageSize offset) ;;
          match r with
          | Throw t => ret (g, fetched, included, Some t)
          | Ok pageMessages =>
              let fetched' := fetched + length pageMessages in
              let '(g', included') := pushPage pageMessages g included in
              if Nat.ltb (length pageMessages) pageSize
              then ret (g', fetched', included', None)
              else folderLoop fuel' folder g' fetched' included'
                     (offset + pageSize) (S pageIndex)
          end
      else ret (g, fetched, included, None)
  end.

(** The [for (const folder of folders)] loop with its early return. *)
Fixpoint foldersLoop (folders : list FolderRef) (g : Agg) (stats : list FolderStat)
    : M (list Msg * list FolderStat) :=
  match folders with
  | [] => ret (a_messages g, stats)
  | folder :: rest =>
      r <- folderLoop maxPagesPerFolder folder g 0 0 0 0 ;;
      let '(g', fetched, included, pageError) := r in
      (* [if (pageError)]: an empty message is falsy. *)
      let stat :=
        match pageError with
        | Some t =>
            if String.eqb t EmptyString
            then mkFolderStat (f_name folder) fetched included None
                   (Nat.leb perFolderMax fetched
                    || Nat.leb MAX_EMAILS_TO_PROCESS (length (a_messages g')))
            else mkFolderStat (f_name folder) fetched included (Some t) false
        | None =>
            mkFolderStat (f_name folder) fetched included None
              (Nat.leb perFolderMax fetched
               || Nat.leb MAX_EMAILS_TO_PROCESS (length (a_messages g')))
        end in
      if Nat.leb MAX_EMAILS_TO_PROCESS (length (a_messages g'))
      then ret (a_messages g', stats ++ [stat])
      else foldersLoop rest g' (stats ++ [stat])
  end.

Definition inboxRef : FolderRef := mkFolderRef Distinguished "inbox" "Inbox".

Definition subfolderRef (f : string * string) : FolderRef :=
  mkFolderRef ByFolderId (fst f)
    (if String.eqb (snd f) EmptyString then "(Unnamed)" else snd f).

(** [fetchMessagesAcrossInboxAndSubfolders]: returns [messages] and
    [folderStats]. *)
Definition fetchMessagesAcrossInboxAndSubfolders (includeSubfolders : bool)
    : M (list Msg * list FolderStat) :=
  folders <-
    (if includeSubfolders
     then subfolders <- listInboxSubfolders ;;
          let remainingSlots := MAX_FOLDERS_TO_PROCESS - 1 in
          ret (inboxRef :: map subfolderRef (firstn remainingSlots subfolders))
     else ret [inboxRef]) ;;
  foldersLoop folders (mkAgg [] []) [].

(** The order-preserving de-duplication by id that the aggregator is
    compared with (first occurrence kept, empty ids skipped). *)
Fixpoint dedup_first (seen : list string) (l : list Msg) : list Msg :=
  match l with
  | [] => []
  | m :: rest =>
      if String.eqb (id m) EmptyString then dedup_first seen rest
      else if mem (id m) seen then dedup_first seen rest
      else m :: dedup_first (id m :: seen) rest
  end.

(* ------------------------------------------------------------------ *)
(** ** Folder resolution and moves (background.js, lines 1137-1625) *)

(** [moveToFolder]: every call is seen by the store ([st_moveCalls]); a
    successful one changes the mailbox ([st_moves]); a failing one throws
    the error message. *)
Definition moveToFolder (itemId chKey folderId : string) : M unit :=
  e <- ask ;;
  s <- get ;;
  let calls := st_moveCalls s ++ [(itemId, folderId)] in
  match env_move e itemId folderId with
  | None =>
      put (mkSt (st_inProgress s) (st_log s) (st_pages s) calls
             (st_moves s ++ [(itemId, folderId)]) (st_created s) (st_stored s))
  | Some t =>
      put (mkSt (st_inProgress s) (st_log s) (st_pages s) calls
             (st_moves s) (st_created s) (st_stored s)) ;;;
      throw t
  end.

(** [findFolderByName]: any failure is caught there and yields [null]. *)
Definition findFolderByName (folderName : string) : M (option string) :=
  e <- ask ;; ret (env_findFolder e folderName).

(** [createFolder]: never throws; a created folder is recorded. *)
Definition createFolder (folderName : string) : M (option string) :=
  e <- ask ;;
  s <- get ;;
  match env_createFolder e folderName with
  | Some fid =>
      put (mkSt (st_inProgress s) (st_log s) (st_pages s) (st_moveCalls s)
             (st_moves s) (st_created s ++ [folderName]) (st_stored s)) ;;;
      ret (Some fid)
  | None => ret None
  end.

(** [findOrCreateFolder] (used by the triage and plan paths). *)
Definition findOrCreateFolder (folderName : string) : M string :=
  f1 <- findFolderByName folderName ;;
  match f1 with
  | Some fid => ret fid
  | None =>
      f2 <- createFolder folderName ;;
      match f2 with
      | Some fid => ret fid
      | None =>
          f3 <- findFolderByName folderName ;;
          match f3 with
          | Some fid => ret fid
          | None => throw (cat ["Could not find or create "; dquote; folderName;
                                dquote; " folder"])
          end
      end
  end.

(** [getFolderId]: the distinguished lookup's error is caught and yields
    [null]; otherwise a search by display name, with no creation. *)
Definition getFolderId (folderName : string) (isDistinguished : bool)
    : M (option string) :=
  if isDistinguished
  then e <- ask ;; ret (env_distinguished e folderName)
  else findFolderByName folderName.

(* ------------------------------------------------------------------ *)
(** ** Reply graph, duplicate groups and reporting helpers *)

(** [repliedToIds]: the union of every [inReplyTo] and [references]. *)
Definition repliedTo (messages : list Msg) : list string :=
  fold_left (fun acc msg =>
      fold_left (fun a r => set_add r a) (references msg)
        (fold_left (fun a r => set_add r a) (inReplyTo msg) acc))
    messages [].

(** [messages.filter(msg => msg.messageId && repliedToIds.has(msg.messageId))] *)
Definition selectToArchive (messages : list Msg) (refs : list string) : list Msg :=
  filter (fun msg => if String.eqb (messageId msg) EmptyString then false
                     else mem (messageId msg) refs) messages.

(** [emailGroups]: a [Map] from Message-ID to the messages carrying it, in
    insertion order; empty Message-IDs are skipped. *)
Fixpoint group_add (k : string) (msg : Msg) (groups : list (string * list Msg))
    : list (string * list Msg) :=
  match groups with
  | [] => [(k, [msg])]
  | (k', ms) :: rest =>
      if String.eqb k k' then (k', ms ++ [msg]) :: rest
      else (k', ms) :: group_add k msg rest
  end.

Definition emailGroupsOf (messages : list Msg) : list (string * list Msg) :=
  fold_left (fun groups msg =>
      if String.eqb (messageId msg) EmptyString then groups
      else group_add (messageId msg) msg groups) messages [].

Definition duplicateCountOf (groups : list (string * list Msg)) : nat :=
  fold_left (fun n g => if Nat.ltb 1 (length (snd g))
                        then n + (length (snd g) - 1) else n) groups 0.

(** Stable sort by descending key ([Array.prototype.sort] is stable). *)
Fixpoint insert_desc {A} (key : A -> nat) (x : A) (l : list A) : list A :=
  match l with
  | [] => [x]
  | y :: l' => if Nat.ltb (key y) (key x) then x :: y :: l'
               else y :: insert_desc key x l'
  end.

Definition sort_desc {A} (key : A -> nat) (l : list A) : list A :=
  fold_left (fun acc x => insert_desc key x acc) l [].

(** A [duplicateGroups] entry: messageId, subject, from, count. *)
Record DupGroupInfo := mkDupGroupInfo {
  dg_messageId : string; dg_subject : string; dg_from : string; dg_count : nat
}.

Definition duplicateGroupsOf (groups : list (string * list Msg)) : list DupGroupInfo :=
  sort_desc dg_count
    (flat_map (fun g =>
       match snd g with
       | first :: _ :: _ =>
           [mkDupGroupInfo (fst g)
              (if String.eqb (subject first) EmptyString then "(No Subject)"
               else subject first)
              (if String.eqb (from first) EmptyString then "unknown" else from first)
              (length (snd g))]
       | _ => []
       end) groups).

Definition folderLabel (msg : Msg) : string :=
  if String.eqb (trim (sourceFolder msg)) EmptyString then "(Unknown folder)"
  else sourceFolder msg.

Fixpoint count_add (k : string) (counts : list (string * nat)) : list (string * nat) :=
  match counts with
  | [] => [(k, 1)]
  | (k', n) :: rest =>
      if String.eqb k k' then (k', S n) :: rest else (k', n) :: count_add k rest
  end.

(** [countByFolder] *)
Definition countByFolder (messages : list Msg) : list (string * nat) :=
  sort_desc snd (fold_left (fun c msg => count_add (folderLabel msg) c) messages []).

Definition dash_line (folder : string) (rest : list string) : string :=
  cat ("  - " :: folder :: ": " :: rest).

(** [appendFolderStatsToLog] on [{folder, fetched, included, error?}] rows. *)
Definition appendFolderStatsToLog (title : string) (stats : list FolderStat) : M unit :=
  match stats with
  | [] => ret tt
  | _ =>
      logp title ;;;
      fold_left (fun m row =>
          m ;;; logp (dash_line (fs_folder row)
                        ["fetched "; nat_to_string (fs_fetched row);
                         ", included "; nat_to_string (fs_included row);
                         match fs_error row with
                         | Some t => cat [" (error: "; t; ")"]
                         | None => EmptyString
                         end]))
        stats (ret tt)
  end.

(** [appendFolderStatsToLog] on [{folder, count}] rows. *)
Definition appendCountsToLog (title : string) (rows : list (string * nat)) : M unit :=
  match rows with
  | [] => ret tt
  | _ =>
      logp title ;;;
      fold_left (fun m row => m ;;; logp (dash_line (fst row) [nat_to_string (snd row)]))
        rows (ret tt)
  end.

(* ------------------------------------------------------------------ *)
(** ** The archive orchestrator (background.js, lines 1632-1890) *)

(** The object [processAndArchiveEmails] resolves to; absent fields are
    [None]. *)
Record RunResult := mkRunResult {
  rr_success : bool;
  rr_error : option string;
  rr_archivedCount : option nat;
  rr_duplicatesMovedCount : option nat;
  rr_totalScanned : option nat;
  rr_archivedSubjects : option (list string);
  rr_foundCount : option nat;
  rr_foundSubjects : option (list string);
  rr_duplicateCount : option nat;
  rr_duplicateGroups : option (list DupGroupInfo);
  rr_folderStats : option (list FolderStat);
  rr_toArchiveByFolder : option (list (string * nat));
  rr_archivedByFolder : option (list (string * nat));
  rr_errors : option nat;
  rr_log : option (list string)
}.

Definition res_busy : RunResult :=
  mkRunResult false (Some "Processing already in progress")
    None None None None None None None None None None None None None.

Definition res_failure (err : string) (log : list string) : RunResult :=
  mkRunResult false (Some err)
    None None None None None None None None None None None None (Some log).

Definition res_noMessages (log : list string) : RunResult :=
  mkRunResult true None (Some 0) None (Some 0) (Some [])
    None None None None None None None None (Some log).

Definition res_dryRun (toArchive messages : list Msg) (duplicateCount : nat)
    (duplicateGroups : list DupGroupInfo) (folderStats : list FolderStat)
    (toArchiveByFolder : list (string * nat)) (log : list string) : RunResult :=
  mkRunResult true None None None (Some (length messages)) None
    (Some (length toArchive)) (Some (map subject toArchive))
    (Some duplicateCount) (Some duplicateGroups) (Some folderStats)
    (Some toArchiveByFolder) None None (Some log).

Definition res_nothingToArchive (duplicatesMovedCount total errors : nat)
    (log : list string) : RunResult :=
  mkRunResult true None (Some 0) (Some duplicatesMovedCount) (Some total) (Some [])
    None None None None None None None (Some errors) (Some log).

Definition res_done (archivedCount duplicatesMovedCount total : nat)
    (archivedSubjects : list string) (folderStats : list FolderStat)
    (toArchiveByFolder archivedByFolder : list (string * nat))
    (errors : nat) (log : list string) : RunResult :=
  mkRunResult true None (Some archivedCount) (Some duplicatesMovedCount)
    (Some total) (Some archivedSubjects) None None None None (Some folderStats)
    (Some toArchiveByFolder) (Some archivedByFolder) (Some errors) (Some log).

Definition currentLog : M (list string) := s <- get ;; ret (st_log s).

(** JS truthiness of a folder id. *)
Definition truthy (o : option string) : option string :=
  match o with
  | Some fid => if String.eqb fid EmptyString then None else Some fid
  | None => None
  end.

Definition quoted (s : string) : string := cat [dquote; s; dquote].

Definition skipDuplicatesLine : string :=
  cat [quoted "Duplicates";
       " folder not found - skipping duplicate handling. Create the folder manually to enable."].

(** The inner [for (const msg of toMove)] loop; returns the moved and
    error counters. *)
Fixpoint moveDuplicateList (dest : string) (toMove : list Msg) (moved errs : nat)
    : M (nat * nat) :=
  match toMove with
  | [] => ret (moved, errs)
  | msg :: rest =>
      r <- attempt (moveToFolder (id msg) (changeKey msg) dest) ;;
      match r with
      | Ok _ =>
          logp (cat ["Moved duplicate: "; subject msg]) ;;;
          moveDuplicateList dest rest (S moved) errs
      | Throw t =>
          logp (cat ["Failed to move duplicate "; quoted (subject msg); ": "; t]) ;;;
          moveDuplicateList dest rest moved (S errs)
      end
  end.

(** [for (const [messageId, emails] of emailGroups)]: keep the first,
    move [emails.slice(1)]. *)
Fixpoint moveDuplicates (dest : string) (groups : list (string * list Msg))
    (moved errs : nat) : M (nat * nat) :=
  match groups with
  | [] => ret (moved, errs)
  | (_, emails) :: rest =>
      if Nat.ltb 1 (length emails) then
        r <- moveDuplicateList dest (tl emails) moved errs ;;
        moveDuplicates dest rest (fst r) (snd r)
      else moveDuplicates dest rest moved errs
  end.

(** STEP 1 of a live run, entered when [duplicateCount > 0]. *)
Definition dedupPhase (groups : list (string * list Msg)) : M (nat * nat) :=
  logp (cat ["Checking for "; quoted "Duplicates"; " folder..."]) ;;;
  dupFolder <- getFolderId "Duplicates" false ;;
  match truthy dupFolder with
  | Some d =>
      logp (cat ["Found "; quoted "Duplicates"; " folder, moving duplicates..."]) ;;;
      r <- moveDuplicates d groups 0 0 ;;
      logp (cat ["Moved "; nat_to_string (fst r); " duplicates, ";
                 nat_to_string (snd r); " errors"]) ;;;
      ret r
  | None =>
      logp skipDuplicatesLine ;;;
      ret (0, 0)
  end.

(** STEP 4 accumulators: archivedCount, errorCount, archivedSubjects,
    archivedByFolderCounter. *)
Record ArchAcc := mkArchAcc {
  aa_archived : nat; aa_errors : nat; aa_subjects : list string;
  aa_byFolder : list (string * nat)
}.

Fixpoint archiveAll (dest : string) (toArchive : list Msg) (acc : ArchAcc) : M ArchAcc :=
  match toArchive with
  | [] => ret acc
  | msg :: rest =>
      r <- attempt (moveToFolder (id msg) (changeKey msg) dest) ;;
      match r with
      | Ok _ =>
          logp (cat ["Archived: "; subject msg]) ;;;
          archiveAll dest rest
            (mkArchAcc (S (aa_archived acc)) (aa_errors acc)
               (aa_subjects acc ++ [subject msg])
               (count_add (folderLabel msg) (aa_byFolder acc)))
      | Throw t =>
          logp (cat ["Failed to archive "; quoted (subject msg); ": "; t]) ;;;
          archiveAll dest rest
            (mkArchAcc (aa_archived acc) (S (aa_errors acc)) (aa_subjects acc)
               (aa_byFolder acc))
      end
  end.

(** [await chrome.storage.local.set({lastProcessingResult})] *)
Definition storeResult (v : Stored) : M unit :=
  e <- ask ;;
  s <- get ;;
  match env_store e with
  | None =>
      put (mkSt (st_inProgress s) (st_log s) (st_pages s) (st_moveCalls s)
             (st_moves s) (st_created s) (Some v))
  | Some t => throw t
  end.

Definition archiveFolderError : string :=
  "Could not get archive folder: Archive folder not found".

(** STEPS 2-4 of a live run: re-fetch, rebuild the archive list, resolve
    the archive folder, move, persist. *)
Definition archivePhase (includeSubfolders : bool) (total : nat)
    (duplicatesMovedCount duplicatesErrorCount : nat) : M RunResult :=
  logp "Re-fetching after duplicate removal..." ;;;
  afterDedupFetch <- fetchMessagesAcrossInboxAndSubfolders includeSubfolders ;;
  let messagesAfterDedup := fst afterDedupFetch in
  logp (cat ["Found "; nat_to_string (length messagesAfterDedup);
             " messages after deduplication"]) ;;;
  appendFolderStatsToLog "Scan breakdown after dedup (unique included per folder):"
    (snd afterDedupFetch) ;;;
  let toArchiveRefresh :=
    selectToArchive messagesAfterDedup (repliedTo messagesAfterDedup) in
  logp (cat [nat_to_string (length toArchiveRefresh); " emails to archive"]) ;;;
  let toArchiveRefreshByFolder := countByFolder toArchiveRefresh in
  appendCountsToLog "Emails to archive by folder:" toArchiveRefreshByFolder ;;;
  match toArchiveRefresh with
  | [] =>
      l <- currentLog ;;
      ret (res_nothingToArchive duplicatesMovedCount total duplicatesErrorCount l)
  | _ =>
      logp "Getting archive folder ID" ;;;
      archiveFolder <- getFolderId "archive" true ;;
      match truthy archiveFolder with
      | None =>
          logp archiveFolderError ;;;
          l <- currentLog ;;
          ret (res_failure archiveFolderError l)
      | Some archiveFolderId =>
          logp "Archive folder found" ;;;
          acc <- archiveAll archiveFolderId toArchiveRefresh (mkArchAcc 0 0 [] []) ;;
          let archivedByFolder := sort_desc snd (aa_byFolder acc) in
          appendCountsToLog "Archived emails by source folder:" archivedByFolder ;;;
          logp (cat ["Done. Archived "; nat_to_string (aa_archived acc);
                     " messages, moved "; nat_to_string duplicatesMovedCount;
                     " duplicates, ";
                     nat_to_string (aa_errors acc + duplicatesErrorCount);
                     " total errors"]) ;;;
          l <- currentLog ;;
          storeResult (mkStored total (aa_archived acc) duplicatesMovedCount
                         (aa_errors acc + duplicatesErrorCount) l) ;;;
          l' <- currentLog ;;
          ret (res_done (aa_archived acc) duplicatesMovedCount total
                 (aa_subjects acc) (snd afterDedupFetch) toArchiveRefreshByFolder
                 archivedByFolder (aa_errors acc + duplicatesErrorCount) l')
      end
  end.

(** The [try] block of [processAndArchiveEmails]. *)
Definition processBody (dryRun includeSubfolders : bool) : M RunResult :=
  logp (cat ["Starting email processing ";
             if dryRun then "(DRY RUN)" else EmptyString]) ;;;
  logp (cat ["Fetching up to "; nat_to_string MAX_EMAILS_TO_PROCESS;
             " messages from inbox";
             if includeSubfolders then " (including subfolders)" else EmptyString]) ;;;
  initialFetch <- fetchMessagesAcrossInboxAndSubfolders includeSubfolders ;;
  let messages := fst initialFetch in
  logp (cat ["Found "; nat_to_string (length messages); " messages"]) ;;;
  appendFolderStatsToLog "Scan breakdown (unique included per folder):"
    (snd initialFetch) ;;;
  match messages with
  | [] =>
      logp "No messages to process" ;;;
      l <- currentLog ;;
      ret (res_noMessages l)
  | _ =>
      let repliedToIds := repliedTo messages in
      logp (cat ["Found "; nat_to_string (length repliedToIds);
                 " unique message references (In-Reply-To + References)"]) ;;;
      let toArchive := selectToArchive messages repliedToIds in
      logp (cat [nat_to_string (length toArchive); " messages have been replied to";
                 if dryRun then EmptyString else " and will be archived"]) ;;;
      let toArchiveByFolder := countByFolder toArchive in
      appendCountsToLog "Replied-to emails by folder:" toArchiveByFolder ;;;
      let emailGroups := emailGroupsOf messages in
      let duplicateCount := duplicateCountOf emailGroups in
      let duplicateGroups := duplicateGroupsOf emailGroups in
      logp (cat ["Found "; nat_to_string duplicateCount;
                 " duplicate emails (same Message-ID) in ";
                 nat_to_string (length duplicateGroups); " groups"]) ;;;
      if dryRun then
        l <- currentLog ;;
        ret (res_dryRun toArchive messages duplicateCount duplicateGroups
               (snd initialFetch) toArchiveByFolder l)
      else
        r <- (if Nat.ltb 0 duplicateCount then dedupPhase emailGroups
              else ret (0, 0)) ;;
        archivePhase includeSubfolders (length messages) (fst r) (snd r)
  end.

(** [processAndArchiveEmails(token, dryRun, includeSubfolders)]: the
    single-flight guard, [const log = []], the [catch] that turns a thrown
    error into a failed result, and the [finally] that clears the flag. *)
Definition processAndArchiveEmails (dryRun includeSubfolders : bool) : M RunResult :=
  s <- get ;;
  if st_inProgress s then ret res_busy
  else
    put (set_log [] (set_inProgress true s)) ;;;
    finally
      (catch (processBody dryRun includeSubfolders)
         (fun t =>
            logp (cat ["Error: "; t]) ;;;
            l <- currentLog ;;
            ret (res_failure t l)))
      (s' <- get ;; put (set_inProgress false s')).

Definition runM {A} (m : M A) (e : Env) (s : St) : Exc A * St := m e s.

Definition initSt : St := mkSt false [] [] [] [] [] None.

(* ------------------------------------------------------------------ *)
(** ** Triage pipeline (background.js, lines 153-364) *)

(** What [classifySingleEmail] gets back from Ollama: a failed query, a
    reply without a JSON object, a reply whose JSON does not parse, or the
    parsed object ([parsed.match === true], [parsed.folder] when it is a
    string, [parsed.reasoning] when it is a string). *)
Inductive OllamaReply :=
| QueryFailed (err : string)
| NoJson
| ParseError (err : string)
| Parsed (isMatch : bool) (folder : option string) (reasoning : option string).

Record Classification := mkClassification {
  c_match : bool;
  c_folder : option string;
  c_reasoning : string;
  c_error : option string
}.

Definition validFolders : list string :=
  ["1-Urgent"; "2-Action"; "3-Attention"; "4-FYI"; "5-ORG"; "6-Zero"].

(** The chain of [normalized.includes(...) || normalized === 'k'] tests. *)
Definition normalizeLabel (folder : string) : string :=
  let normalized := toLowerCase folder in
  if includes normalized "urgent" || String.eqb normalized "1" then "1-Urgent"
  else if includes normalized "action" || String.eqb normalized "2" then "2-Action"
  else if includes normalized "attention" || String.eqb normalized "3" then "3-Attention"
  else if includes normalized "fyi" || String.eqb normalized "4" then "4-FYI"
  else if includes normalized "org" || String.eqb normalized "5" then "5-ORG"
  else if includes normalized "zero" || String.eqb normalized "6" then "6-Zero"
  else "4-FYI".

(** [let folder = typeof parsed.folder === 'string' ? parsed.folder.trim() : null;
     if (folder && !validFolders.includes(folder)) { ... }] *)
Definition folderOf (rawFolder : option string) : option string :=
  match rawFolder with
  | None => None
  | Some f =>
      let folder := trim f in
      if negb (String.eqb folder EmptyString) && negb (mem folder validFolders)
      then Some (normalizeLabel folder)
      else Some folder
  end.

(** [classifySingleEmail], from the Ollama reply on. *)
Definition classifySingleEmail (reply : OllamaReply) : Classification :=
  match reply with
  | QueryFailed err => mkClassification false None EmptyString (Some err)
  | NoJson => mkClassification false None EmptyString (Some "No JSON in response")
  | ParseError err => mkClassification false None EmptyString (Some err)
  | Parsed isMatch rawFolder reasoning =>
      mkClassification isMatch (folderOf rawFolder)
        (match reasoning with Some r => r | None => EmptyString end) None
  end.

(** One entry of [results]. *)
Record TriageResult := mkTriageResult {
  t_id : string; t_subject : string; t_from : string; t_match : bool;
  t_folder : option string; t_reasoning : string; t_moved : bool;
  t_error : option string
}.

(** Arguments of one [onProgress(current, total, subject, moved, result)] call. *)
Record Progress := mkProgress {
  p_current : nat; p_total : nat; p_subject : string; p_moved : nat;
  p_result : TriageResult
}.

Record TriageOutcome := mkTriageOutcome {
  o_processed : nat; o_moved : nat; o_results : list TriageResult;
  o_aborted : bool; o_progress : list Progress
}.

Fixpoint cache_get (k : string) (cache : list (string * option string))
    : option (option string) :=
  match cache with
  | [] => None
  | (k', v) :: rest => if String.eqb k k' then Some v else cache_get k rest
  end.

Section TriagePipeline.
(** [classificationAborted] as read before item [i]; it is written by
    the [abortClassification] message handler. *)
Variable abortedAt : nat -> bool.
(** The Ollama reply for an email (its body fetched by [getItemBody],
    which never throws). *)
Variable ollama : Msg -> OllamaReply.
(** [findOrCreateFolder]: the folder id, or [None] when it throws. *)
Variable folderFor : string -> option string.
(** [moveToFolder]: [None] on success, the thrown message otherwise. *)
Variable moveItem : string -> string -> option string.

Fixpoint triageLoop (i : nat) (emails : list Msg) (total : nat)
    (cache : list (string * option string)) (results : list TriageResult)
    (movedCount : nat) (progress : list Progress) : TriageOutcome :=
  match emails with
  | [] => mkTriageOutcome total movedCount results false progress
  | email :: rest =>
      if abortedAt i then mkTriageOutcome i movedCount results true progress
      else
        let classification := classifySingleEmail (ollama email) in
        let result := mkTriageResult (id email) (subject email) (from email)
                        (c_match classification) (c_folder classification)
                        (c_reasoning classification) false (c_error classification) in
        match truthy (c_folder classification) with
        | None =>
            let result' := mkTriageResult (id email) (subject email) (from email)
                             (c_match classification) (c_folder classification)
                             (c_reasoning classification) false
                             (Some "No folder classification returned") in
            triageLoop (S i) rest total cache (results ++ [result']) movedCount
              (progress ++ [mkProgress (S i) total (subject email) movedCount result'])
        | Some folderName =>
            let cache' := match cache_get folderName cache with
                          | Some _ => cache
                          | None => cache ++ [(folderName, folderFor folderName)]
                          end in
            let moveFolderId := match cache_get folderName cache' with
                                | Some v => v
                                | None => None
                                end in
            let '(result', movedCount') :=
              match truthy moveFolderId, c_error classification with
              | Some fid, None =>
                  match moveItem (id email) fid with
                  | None =>
                      (mkTriageResult (id email) (subject email) (from email)
                         (c_match classification) (c_folder classification)
                         (c_reasoning classification) true (c_error classification),
                       S movedCount)
                  | Some err =>
                      (mkTriageResult (id email) (subject email) (from email)
                         (c_match classification) (c_folder classification)
                         (c_reasoning classification) false
                         (Some (cat ["Move failed: "; err])),
                       movedCount)
                  end
              | _, _ => (result, movedCount)
              end in
            triageLoop (S i) rest total cache' (results ++ [result']) movedCount'
              (progress ++ [mkProgress (S i) total (subject email) movedCount' result'])
        end
  end.

(** [classifyAndMoveEmails(emails, criteria, targetFolderId, token,
    maxIterations, onProgress)]; [maxIterations = 0] stands for a falsy
    argument, replaced by [DEFAULT_EMAIL_ITERATIONS]. *)
Definition classifyAndMoveEmails (emails : list Msg) (maxIterations : nat)
    : TriageOutcome :=
  match emails with
  | [] => mkTriageOutcome 0 0 [] false []
  | _ =>
      let limit := Nat.min (length emails)
                     (if Nat.eqb maxIterations 0 then DEFAULT_EMAIL_ITERATIONS
                      else maxIterations) in
      triageLoop 0 (firstn limit emails) limit [] [] 0 []
  end.
End TriagePipeline.

(* ------------------------------------------------------------------ *)
(** ** Message-ID headers and bearer tokens (background.js, lines 512-546) *)

(** One attempt of the pattern [/<[^>]+>/] at the start of a string: the
    characters before the first [>], and what follows that [>] (none when
    the string has no [>]). *)
Fixpoint spanNotGt (s : string) : string * option string :=
  match s with
  | EmptyString => (EmptyString, None)
  | String c s' =>
      if Ascii.eqb c ">"%char then (EmptyString, Some s')
      else let '(b, r) := spanNotGt s' in (String c b, r)
  end.

(** The match of [/<[^>]+>/] that starts at the first character, with the
    rest of the string after it.  [[^>]+] cannot cross a [>], so the only
    candidate ends at the first [>]. *)
Definition matchAt (s : string) : option (string * string) :=
  match s with
  | String c s' =>
      if Ascii.eqb c "<"%char then
        match spanNotGt s' with
        | (String b0 b, Some after) =>
            Some (String.append "<" (String.append (String b0 b) ">"), after)
        | _ => None
        end
      else None
  | EmptyString => None
  end.

(** [str.match(/<[^>]+>/g)]: try every position from left to right; after
    a match the search resumes behind it.  [fuel] is the length of the
    string. *)
Fixpoint matchAll_go (fuel : nat) (s : string) : list string :=
  match fuel with
  | O => []
  | S f =>
      match s with
      | EmptyString => []
      | String _ s' =>
          match matchAt s with
          | Some (m, after) => m :: matchAll_go f after
          | None => matchAll_go f s'
          end
      end
  end.

(** [str.match(/<[^>]+>/g) || []] *)
Definition matchMessageIds (s : string) : list string :=
  matchAll_go (String.length s) s.

(** [parseMessageIdHeader] (lines 512-521); an absent header is the empty
    string. *)
Definition parseMessageIdHeader (headerValue : string) : list string :=
  match headerValue with
  | EmptyString => []
  | _ => matchMessageIds (htmlDecode headerValue)
  end.

(** A character of [/^[A-Za-z0-9\-_\.]+$/]. *)
Definition isTokenChar (c : ascii) : bool :=
  let n := nat_of_ascii c in
  (Nat.leb 65 n && Nat.leb n 90) || (Nat.leb 97 n && Nat.leb n 122) ||
  (Nat.leb 48 n && Nat.leb n 57) || Nat.eqb n 45 || Nat.eqb n 95 || Nat.eqb n 46.

(** [isValidBearerToken] (lines 526-532), on strings. *)
Definition isValidBearerToken (token : string) : bool :=
  let MAX_TOKEN_LENGTH := 8192%N in
  if Nat.eqb (String.length token) 0 || N.ltb MAX_TOKEN_LENGTH (N.of_nat (String.length token))
  then false
  else forallb isTokenChar (list_ascii_of_string token).

(** [extractBearerToken] (lines 537-544), on strings: [None] is [null]. *)
Definition extractBearerToken (headerValue : string) : option string :=
  let BEARER_PREFIX_LENGTH := 7 in
  if negb (String.prefix "bearer " (toLowerCase headerValue)) then None
  else
    let token := trim (substring BEARER_PREFIX_LENGTH
                         (String.length headerValue - BEARER_PREFIX_LENGTH)
                         headerValue) in
    if isValidBearerToken token then Some token else None.

(** A well-formed Message-ID: [<], a non-empty body without [>], [>]. *)
Definition wellFormedId (m : string) : Prop :=
  exists b, m = String.append "<" (String.append b ">") /\ b <> EmptyString /\
            ~ In ">"%char (list_ascii_of_string b).

(* ------------------------------------------------------------------ *)
(** ** Captured tokens (background.js, lines 549-579 and 1892-1945) *)

Definition MAX_TOKENS_STORED : nat := 50.
Definition TOKEN_EXPIRY_MS : Z := 24 * 60 * 60 * 1000.

(** The [tokenData] object the request listener builds. *)
Record TokenData := mkTokenData {
  td_token : string; td_url : string; td_domain : string; td_method : string;
  td_timestamp : Z; td_tabId : Z
}.

(** A stored entry [{...tokenData, count, lastSeen}]; a missing [count]
    is 0. *)
Record TokenRec := mkTokenRec {
  tk_token : string; tk_url : string; tk_domain : string; tk_method : string;
  tk_timestamp : Z; tk_tabId : Z; tk_count : nat; tk_lastSeen : Z
}.

(** [{...tokenData, count: 1, lastSeen: tokenData.timestamp}] *)
Definition newTokenRec (td : TokenData) : TokenRec :=
  mkTokenRec (td_token td) (td_url td) (td_domain td) (td_method td)
    (td_timestamp td) (td_tabId td) 1 (td_timestamp td).

(** [t.lastSeen = timestamp; t.count = (t.count || 1) + 1] *)
Definition bumpToken (timestamp : Z) (t : TokenRec) : TokenRec :=
  mkTokenRec (tk_token t) (tk_url t) (tk_domain t) (tk_method t)
    (tk_timestamp t) (tk_tabId t)
    (S (if Nat.eqb (tk_count t) 0 then 1 else tk_count t)) timestamp.

(** The update of [tokens[tokens.findIndex(t => t.token === tokenData.token)]]. *)
Fixpoint bumpFirst (td : TokenData) (tokens : list TokenRec) : list TokenRec :=
  match tokens with
  | [] => []
  | t :: rest =>
      if String.eqb (tk_token t) (td_token td)
      then bumpToken (td_timestamp td) t :: rest
      else t :: bumpFirst td rest
  end.

(** The list [storeToken] writes back, from the list it read; [now] is
    [Date.now()]. *)
Definition storeTokenList (now : Z) (td : TokenData) (tokens : list TokenRec)
    : list TokenRec :=
  let tokens1 :=
    if existsb (fun t => String.eqb (tk_token t) (td_token td)) tokens
    then bumpFirst td tokens
    else newTokenRec td :: tokens in
  let tokens2 :=
    filter (fun t => Z.ltb (now - tk_timestamp t) TOKEN_EXPIRY_MS) tokens1 in
  if Nat.ltb MAX_TOKENS_STORED (length tokens2)
  then firstn MAX_TOKENS_STORED tokens2
  else tokens2.

(** [storeToken(tokenData)]: [stored] is [capturedTokens] in
    chrome.storage.local ([None] when absent); [storageOk = false] is a
    failing [get] or [set], whose error the [catch] only logs. *)
Definition storeToken (storageOk : bool) (now : Z) (td : TokenData)
    (stored : option (list TokenRec)) : option (list TokenRec) :=
  if storageOk
  then Some (storeTokenList now td (match stored with Some l => l | None => [] end))
  else stored.

(** A request header; an empty [value] is a falsy one. *)
Record Header := mkHeader { h_name : string; h_value : string }.

(** The listener's [details]; [d_hostname] is [new URL(details.url).hostname]. *)
Record Details := mkDetails {
  d_url : string; d_hostname : string; d_method : string; d_tabId : Z;
  d_requestHeaders : option (list Header)
}.

(** [Map.prototype.set] on an insertion-ordered map: an existing key keeps
    its place. *)
Fixpoint map_set {V} (k : string) (v : V) (m : list (string * V)) : list (string * V) :=
  match m with
  | [] => [(k, v)]
  | (k', v') :: rest =>
      if String.eqb k k' then (k', v) :: rest else (k', v') :: map_set k v rest
  end.

(** The [chrome.webRequest.onBeforeSendHeaders] listener (lines 1892-1920),
    on [pendingTokens]; [now] is [Date.now()].  The debounce timer it
    re-arms is the [FlushTokens] event below. *)
Definition onBeforeSendHeaders (now : Z) (d : Details)
    (pending : list (string * TokenData)) : list (string * TokenData) :=
  match d_requestHeaders d with
  | None => pending
  | Some hs =>
      fold_left (fun p h =>
          if String.eqb (toLowerCase (h_name h)) "authorization"
             && negb (String.eqb (h_value h) EmptyString)
          then match extractBearerToken (h_value h) with
               | Some token =>
                   map_set token
                     (mkTokenData token (d_url d) (d_hostname d) (d_method d) now (d_tabId d)) p
               | None => p
               end
          else p) hs pending
  end.

(** The [for (const tokenData of tokensToStore) await storeToken(tokenData)]
    loop; call [i] sees [okAt i] and [nowAt i]. *)
Fixpoint storeAll (okAt : nat -> bool) (nowAt : nat -> Z) (i : nat)
    (tds : list TokenData) (stored : option (list TokenRec)) : option (list TokenRec) :=
  match tds with
  | [] => stored
  | td :: rest => storeAll okAt nowAt (S i) rest (storeToken (okAt i) (nowAt i) td stored)
  end.

(** [flushPendingTokens] (lines 1932-1942): the pending map is emptied and
    its values stored in insertion order. *)
Definition flushPendingTokens (okAt : nat -> bool) (nowAt : nat -> Z)
    (pending : list (string * TokenData)) (stored : option (list TokenRec))
    : list (string * TokenData) * option (list TokenRec) :=
  match pending with
  | [] => (pending, stored)
  | _ => ([], storeAll okAt nowAt 0 (map snd pending) stored)
  end.

(** The token side of the worker: [pendingTokens] and the stored
    [capturedTokens]. *)
Record TokenSt := mkTokenSt {
  ts_pending : list (string * TokenData);
  ts_stored : option (list TokenRec)
}.

(** What changes them: a request seen by the listener, a run of the
    debounced flush (to completion, before the next event), and the
    [clearTokens] message. *)
Inductive TokenEvent :=
| Capture (now : Z) (d : Details)
| FlushTokens (okAt : nat -> bool) (nowAt : nat -> Z)
| ClearTokens (storageOk : bool).

Definition tokenStep (st : TokenSt) (ev : TokenEvent) : TokenSt :=
  match ev with
  | Capture now d => mkTokenSt (onBeforeSendHeaders now d (ts_pending st)) (ts_stored st)
  | FlushTokens okAt nowAt =>
      let '(p, s) := flushPendingTokens okAt nowAt (ts_pending st) (ts_stored st) in
      mkTokenSt p s
  | ClearTokens ok =>
      mkTokenSt (ts_pending st) (if ok then Some [] else ts_stored st)
  end.

Definition runTokenEvents (evs : list TokenEvent) (st : TokenSt) : TokenSt :=
  fold_left tokenStep evs st.

(** What the proofs show the token side keeps: every pending or stored
    token passed [isValidBearerToken] and appears once; at most
    [MAX_TOKENS_STORED] are stored. *)
Definition TokenInv (st : TokenSt) : Prop :=
  Forall (fun kv => isValidBearerToken (fst kv) = true /\ td_token (snd kv) = fst kv)
    (ts_pending st) /\
  NoDup (map fst (ts_pending st)) /\
  match ts_stored st with
  | None => True
  | Some l =>
      Forall (fun t => isValidBearerToken (tk_token t) = true) l /\
      NoDup (map tk_token l) /\ length l <= MAX_TOKENS_STORED
  end.

(* ------------------------------------------------------------------ *)
(** ** The active Ollama model (background.js, lines 39-40, 65-93,
    2003-2014 and 2107-2114) *)

Definition DEFAULT_OLLAMA_MODEL : string := "magistral:24b".

(** What [fetch(OLLAMA_BASE_URL + '/api/tags')] and [response.json()]
    give: a thrown error (an abort after the 5 s timeout, or any other
    error with its message), a response that is not ok, or a body whose
    [models] field is absent or an array of entries whose [name] is a
    string or missing.  A [models] value that is truthy but not an array,
    or a null entry, makes the [map] throw: that is a [TagsThrown]. *)
Inductive TagsReply :=
| TagsThrown (isAbort : bool) (message : string)
| TagsNotOk (status : nat)
| TagsBody (models : option (list (option string))).

(** [Array.prototype.sort()] on strings: ascending code-unit order.  The
    order is total and only equal strings compare equal, so any sorting
    algorithm gives the one sorted permutation; insertion sort is used. *)
Fixpoint insert_str (x : string) (l : list string) : list string :=
  match l with
  | [] => [x]
  | y :: l' => if String.leb x y then x :: y :: l' else y :: insert_str x l'
  end.

Definition sort_strings (l : list string) : list string :=
  fold_right insert_str [] l.

(** [(data.models || []).map(m => m.name).filter(Boolean)] *)
Definition modelNames (models : option (list (option string))) : list string :=
  flat_map (fun n => match n with
                     | Some s => if String.eqb s EmptyString then [] else [s]
                     | None => []
                     end)
    (match models with Some l => l | None => [] end).

Record OllamaStatus := mkOllamaStatus {
  os_available : bool;
  os_models : list string;
  os_activeModel : option string;
  os_error : option string
}.

(** [checkOllamaStatus]: the status it returns and the new value of
    [activeOllamaModel]. *)
Definition checkOllamaStatus (reply : TagsReply) (activeOllamaModel : string)
    : OllamaStatus * string :=
  match reply with
  | TagsThrown isAbort msg =>
      (mkOllamaStatus false [] None
         (Some (if isAbort then "Connection timeout" else msg)), activeOllamaModel)
  | TagsNotOk status =>
      (mkOllamaStatus false [] None (Some (cat ["HTTP "; nat_to_string status])),
       activeOllamaModel)
  | TagsBody names =>
      let models := sort_strings (modelNames names) in
      let active' :=
        match models with
        | m0 :: _ => if mem activeOllamaModel models then activeOllamaModel else m0
        | [] => activeOllamaModel
        end in
      (mkOllamaStatus true models (Some active') None, active')
  end.

(** The reply of the [setOllamaModel] message. *)
Record SetModelReply := mkSetModelReply {
  sm_success : bool; sm_model : option string; sm_error : option string
}.

(** The [setOllamaModel] handler; [model] is [Some] when
    [typeof message.model === 'string']. *)
Definition setOllamaModel (model : option string) (activeOllamaModel : string)
    : SetModelReply * string :=
  match model with
  | Some m =>
      if negb (String.eqb (trim m) EmptyString)
      then (mkSetModelReply true (Some (trim m)) None, trim m)
      else (mkSetModelReply false None (Some "Invalid model name"), activeOllamaModel)
  | None => (mkSetModelReply false None (Some "Invalid model name"), activeOllamaModel)
  end.

(** The startup [chrome.storage.local.get(['ollamaModel'])] callback;
    [saved] is [Some] when the stored value is a string. *)
Definition loadSavedModel (saved : option string) (activeOllamaModel : string) : string :=
  match saved with
  | Some s => if String.eqb s EmptyString then activeOllamaModel else s
  | None => activeOllamaModel
  end.

(** Everything that assigns [activeOllamaModel], in any order. *)
Inductive ModelEvent :=
| CheckStatus (reply : TagsReply)
| SetModel (model : option string)
| LoadSaved (saved : option string).

Definition modelStep (a : string) (ev : ModelEvent) : string :=
  match ev with
  | CheckStatus r => snd (checkOllamaStatus r a)
  | SetModel m => snd (setOllamaModel m a)
  | LoadSaved sv => loadSavedModel sv a
  end.

Definition runModelEvents (evs : list ModelEvent) (a : string) : string :=
  fold_left modelStep evs a.

(* ------------------------------------------------------------------ *)
(** ** Executing the pending AI plan (background.js, lines 438-489) *)

Record PlanItem := mkPlanItem {
  pi_id : string; pi_changeKey : string; pi_subject : string
}.

(** [pendingPlan]: [pl_items] is [None] when [items] is not an array. *)
Record Plan := mkPlan {
  pl_action : string; pl_targetFolder : string; pl_items : option (list PlanItem)
}.

Record PlanResult := mkPlanResult {
  pr_success : bool;
  pr_error : option string;
  pr_movedCount : option nat;
  pr_errorCount : option nat;
  pr_log : option (list string)
}.

Definition noPendingPlan : PlanResult :=
  mkPlanResult false (Some "No pending plan to execute") None None None.

(** The [for (const item of items)] loop: the counters and the local
    [log]. *)
Fixpoint movePlanItems (folderId : string) (items : list PlanItem)
    (successCount errorCount : nat) (log : list string)
    : M (nat * nat * list string) :=
  match items with
  | [] => ret (successCount, errorCount, log)
  | item :: rest =>
      r <- attempt (moveToFolder (pi_id item) (pi_changeKey item) folderId) ;;
      match r with
      | Ok _ =>
          movePlanItems folderId rest (S successCount) errorCount
            (log ++ [cat ["Moved: "; substring 0 50 (pi_subject item); "..."]])
      | Throw t =>
          movePlanItems folderId rest successCount (S errorCount)
            (log ++ [cat ["Failed: "; substring 0 40 (pi_subject item); "... - "; t]])
      end
  end.

(** [executeAIPlan]: the result and the new value of [pendingPlan]. *)
Definition executeAIPlan (pendingPlan : option Plan) : M (PlanResult * option Plan) :=
  match pendingPlan with
  | None => ret (noPendingPlan, pendingPlan)
  | Some plan =>
      match pl_items plan with
      | None | Some [] => ret (noPendingPlan, pendingPlan)
      | Some items =>
          let log := [cat ["Executing plan: "; pl_action plan; " ";
                           nat_to_string (length items); " emails to ";
                           dquote; pl_targetFolder plan; dquote]] in
          r <- attempt (if String.eqb (pl_action plan) "archive"
                        then getFolderId "archive" true
                        else fid <- findOrCreateFolder (pl_targetFolder plan) ;;
                             ret (Some fid)) ;;
          match r with
          | Throw t =>
              ret (mkPlanResult false (Some (cat ["Folder error: "; t])) None None
                     (Some log), pendingPlan)
          | Ok folderId =>
              match truthy folderId with
              | None =>
                  ret (mkPlanResult false
                         (Some (cat ["Could not find or create folder: ";
                                     pl_targetFolder plan])) None None
                         (Some log), pendingPlan)
              | Some fid =>
                  c <- movePlanItems fid items 0 0 (log ++ ["Target folder ID obtained"]) ;;
                  let '(successCount, errorCount, log') := c in
                  ret (mkPlanResult true None (Some successCount) (Some errorCount)
                         (Some (log' ++ [cat ["Complete: "; nat_to_string successCount;
                                              " moved, "; nat_to_string errorCount;
                                              " errors"]])), None)
              end
          end
      end
  end.

Definition plan_ok (e : Env) (fid : string) (i : PlanItem) : bool :=
  match env_move e (pi_id i) fid with None => true | Some _ => false end.

(** A mailbox for the plan path: no folder [Projects] yet, its creation
    gives [P1], and moving item [b] fails. *)
Definition envPlan : Env :=
  mkEnv (Ok []) (fun _ _ _ _ => Ok []) (fun _ => None)
    (fun n => if String.eqb n "Projects" then Some "P1" else None)
    (fun _ => None)
    (fun i _ => if String.eqb i "b" then Some "ErrorMoveItem" else None) None.

Definition planW : option Plan :=
  Some (mkPlan "move" "Projects"
          (Some [mkPlanItem "a" "ck1" "Hello"; mkPlanItem "b" "ck2" "World"])).

(* ------------------------------------------------------------------ *)
(** ** Counting helpers of the reports *)

(** The count a [Map] built by [count_add] holds for [k] ([0] when the
    key is absent). *)
Fixpoint count_get (k : string) (counts : list (string * nat)) : nat :=
  match counts with
  | [] => 0
  | (k', n) :: rest => if String.eqb k k' then n else count_get k rest
  end.

(** How many messages [countByFolder] files under the label [k]. *)
Definition labelCount (k : string) (messages : list Msg) : nat :=
  length (filter (fun m => String.eqb (folderLabel m) k) messages).

(** The [for (const msg of messages)] loop of [countByFolder], from the
    counter [c0]. *)
Definition countFold (messages : list Msg) (c0 : list (string * nat)) :=
  fold_left (fun c msg => count_add (folderLabel msg) c) messages c0.

(** A triage result marked moved went, with no classification error, to
    a folder of the label set, through a non-empty folder id that
    [findOrCreateFolder] gave, by a successful [moveToFolder]. *)
Definition MovedOk (folderFor : string -> option string)
    (moveItem : string -> string -> option string) (r : TriageResult) : Prop :=
  t_moved r = true ->
  t_error r = None /\
  exists f fid, t_folder r = Some f /\ In f validFolders /\ folderFor f = Some fid /\
                fid <> EmptyString /\ moveItem (t_id r) fid = None.

(** Every entry of [folderCache] holds what [findOrCreateFolder] gave for
    its folder name. *)
Definition CacheOk (folderFor : string -> option string)
    (cache : list (string * option string)) : Prop :=
  Forall (fun kv => snd kv = folderFor (fst kv)) cache.

(* ================================================================== *)
(** * Lemmas *)

(** ** Strings and sets *)

(* ------------------------------------------------------------------ *)
(** ** Predicates of the proofs, and concrete mailboxes *)

Definition prefix_of {A} (l1 l2 : list A) : Prop := exists rest, l1 ++ rest = l2.

(** The state a run leaves alone while it only reads the mailbox. *)
Definition frame (s s' : St) : Prop :=
  st_inProgress s' = st_inProgress s /\ st_log s' = st_log s /\
  st_moveCalls s' = st_moveCalls s /\ st_moves s' = st_moves s /\
  st_created s' = st_created s /\ st_stored s' = st_stored s.

Definition add_page (p : list Msg) (s : St) : St :=
  mkSt (st_inProgress s) (st_log s) (st_pages s ++ [p]) (st_moveCalls s)
       (st_moves s) (st_created s) (st_stored s).

(** What the aggregator keeps, relative to the pages served so far. *)
Definition AggInv (g : Agg) (pages : list (list Msg)) : Prop :=
  a_seen g = rev (map id (a_messages g)) /\
  length (a_messages g) <= MAX_EMAILS_TO_PROCESS /\
  exists rest, a_messages g ++ rest = dedup_first [] (concat pages) /\
               (rest = [] \/ length (a_messages g) = MAX_EMAILS_TO_PROCESS).

Definition add_move (call : string * string) (ok : bool) (s : St) : St :=
  mkSt (st_inProgress s) (st_log s) (st_pages s) (st_moveCalls s ++ [call])
       (if ok then st_moves s ++ [call] else st_moves s) (st_created s) (st_stored s).

Definition move_ok (e : Env) (dest : string) (m : Msg) : bool :=
  match env_move e (id m) dest with None => true | Some _ => false end.

(** What a batch of moves to [dest] does: one call per message, in order;
    the successful ones change the mailbox; nothing else but the log. *)
Definition Batch (e : Env) (dest : string) (ms : list Msg) (s s' : St) : Prop :=
  st_created s' = st_created s /\ st_inProgress s' = st_inProgress s /\
  st_pages s' = st_pages s /\ st_stored s' = st_stored s /\
  (exists l, st_log s' = st_log s ++ l) /\
  st_moveCalls s' = st_moveCalls s ++ map (fun m => (id m, dest)) ms /\
  st_moves s' = st_moves s ++ map (fun m => (id m, dest)) (filter (move_ok e dest) ms).

(** The messages the duplicate pass moves: [emails.slice(1)] of every
    group with more than one member, group by group. *)
Definition movableDuplicates (groups : list (string * list Msg)) : list Msg :=
  flat_map (fun g => if Nat.ltb 1 (length (snd g)) then tl (snd g) else []) groups.

Definition checkingDuplicatesLine : string :=
  cat ["Checking for "; quoted "Duplicates"; " folder..."].

(** A run step that appends to the log and only moves messages to folders
    satisfying [P]. *)
Definition RelTo (P : string -> Prop) (s s' : St) : Prop :=
  st_created s' = st_created s /\ st_inProgress s' = st_inProgress s /\
  (exists l, st_log s' = st_log s ++ l) /\
  exists new, st_moves s' = st_moves s ++ new /\ Forall (fun mv => P (snd mv)) new.

(** [m], run against the collaborators [e], only appends to the log and
    only moves messages into folders satisfying [P]. *)
Definition KeepsE (P : string -> Prop) (e : Env) {A} (m : M A) : Prop :=
  forall s o s', m e s = (o, s') -> RelTo P s s'.

Definition toArchiveFolder (e : Env) (f : string) : Prop :=
  Some f = truthy (env_distinguished e "archive").

Definition toDupOrArchive (e : Env) (f : string) : Prop :=
  Some f = truthy (env_findFolder e "Duplicates") \/
  Some f = truthy (env_distinguished e "archive").

(** The aggregator reads the mailbox only: its outcome depends on the
    collaborators and on the moves made so far, not on the log. *)
Definition MovesOnly (e : Env) {A} (m : M A) : Prop :=
  forall s1 s2, st_moves s1 = st_moves s2 ->
    fst (m e s1) = fst (m e s2) /\ st_moves (snd (m e s1)) = st_moves (snd (m e s2)).

(** Results: a run of [m] from any state ends in a value [a] and a state
    [s'] with [Q a s'], or in a thrown message [t] with [R t]. *)
Definition PostE (e : Env) {A} (Q : A -> St -> Prop) (R : string -> Prop) (m : M A) : Prop :=
  forall s o s', m e s = (o, s') ->
    match o with Ok a => Q a s' | Throw t => R t end.

Definition Any {A} (_ : A) (_ : St) : Prop := True.

(** The messages a live run may end with when a step throws: only
    [chrome.storage.local.set] can throw, and it is reached only when the
    archive folder resolves. *)
Definition thrownBy (e : Env) (inc : bool) (t : string) : Prop :=
  env_store e = Some t /\ truthy (env_distinguished e "archive") <> None.

(** What an archive phase ends with. *)
Definition archiveOutcome (e : Env) (dm : nat) (r : RunResult) (s' : St) : Prop :=
  rr_log r = Some (st_log s') /\
  (rr_success r = false ->
     rr_error r = Some archiveFolderError /\ truthy (env_distinguished e "archive") = None) /\
  (rr_success r = true ->
     rr_duplicatesMovedCount r = Some dm /\
     (truthy (env_distinguished e "archive") = None ->
        rr_archivedCount r = Some 0 /\ rr_archivedSubjects r = Some [])).



Definition errorLine (t : string) : string := cat ["Error: "; t].

Definition keyStep (ks : list string) (m : Msg) : list string :=
  if String.eqb (messageId m) EmptyString then ks
  else if mem (messageId m) ks then ks else ks ++ [messageId m].

Definition keysOf (messages : list Msg) : list string := fold_left keyStep messages [].

Definition sameId (k : string) (messages : list Msg) : list Msg :=
  filter (fun m => String.eqb (messageId m) k) messages.

Definition groupStep (groups : list (string * list Msg)) (msg : Msg) :=
  if String.eqb (messageId msg) EmptyString then groups
  else group_add (messageId msg) msg groups.

Definition movedOf (messages : list Msg) : list Msg :=
  flat_map (fun k => match sameId k messages with
                     | [] => []
                     | _keeper :: rest => rest
                     end) (keysOf messages).

Definition mB (i : string) : Msg := mkMsg i "ck" i "f" "<x>" [] [] "Inbox".

Definition envB : Env :=
  mkEnv (Ok []) (fun _ _ _ _ => Ok []) (fun n => if String.eqb n "Duplicates" then Some "DUP" else None)
    (fun _ => None) (fun _ => None) (fun _ _ => None) None.


Definition inboxMsg (n : nat) : Msg :=
  mkMsg (cat ["item"; nat_to_string n]) "ck" "s" "f" EmptyString [] [] "Inbox".

Definition envC1 : Env :=
  mkEnv (Ok (map (fun n => (cat ["F"; nat_to_string n], cat ["Sub"; nat_to_string n])) (seq 1 29)))
    (fun _ f _ off => match f_kind f with
                      | Distinguished => if Nat.eqb off 0 then Ok (map inboxMsg (seq 1 100)) else Ok []
                      | ByFolderId => Ok []
                      end)
    (fun _ => None) (fun _ => None) (fun _ => None) (fun _ _ => None) None.

Definition mk (i mid : string) (irt : list string) : Msg :=
  mkMsg i "ck" (cat ["s"; i]) "f" mid irt [] "Inbox".

Definition servePage (l : list Msg) : list (string * string) -> FolderRef -> nat -> nat -> Exc (list Msg) :=
  fun mv _ _ off =>
    if Nat.eqb off 0
    then Ok (filter (fun x => negb (existsb (fun p => String.eqb (fst p) (id x)) mv)) l)
    else Ok [].

Definition mailboxD : list Msg := [mk "1" "<x>" []; mk "2" "<x>" []; mk "4" "<y>" ["<x>"]].

Definition envMailbox (dup arch : option string) : Env :=
  mkEnv (Ok []) (servePage mailboxD)
    (fun n => if String.eqb n "Duplicates" then dup else None)
    (fun _ => None)
    (fun n => if String.eqb n "archive" then arch else None)
    (fun _ _ => None) None.

Definition envC5 : Env :=
  mkEnv (Ok [("F1", "Projects")])
    (fun _ f _ off =>
       if Nat.eqb off 0 then
         match f_kind f with
         | Distinguished => Ok [mk "1" "<a>" []; mk "2" "<b>" []]
         | ByFolderId => Ok [mk "2" "<b>" []; mk "3" "<c>" []; mk "1" "<a>" []]
         end
       else Ok [])
    (fun _ => None) (fun _ => None) (fun _ => None) (fun _ _ => None) None.

Lemma mem_In (x : string) (l : list string) : mem x l = true <-> In x l.
Proof.
  unfold mem. rewrite existsb_exists. split.
  - intros [y [Hy Heq]]. apply String.eqb_eq in Heq. subst. exact Hy.
  - intros H. exists x. split; [exact H | apply String.eqb_refl].
Qed.

Lemma mem_false (x : string) (l : list string) : mem x l = false <-> ~ In x l.
Proof.
  rewrite <- mem_In. destruct (mem x l); split; congruence.
Qed.

Lemma set_add_In (x y : string) (s : list string) :
  In x (set_add y s) <-> In x s \/ x = y.
Proof.
  unfold set_add. destruct (mem y s) eqn:E.
  - apply mem_In in E. split; [tauto|]. intros [H|H]; [exact H|subst; exact E].
  - rewrite in_app_iff. simpl. intuition.
Qed.

Lemma fold_set_add_In (x : string) (l acc : list string) :
  In x (fold_left (fun a r => set_add r a) l acc) <-> In x acc \/ In x l.
Proof.
  revert acc. induction l as [|y l IH]; intros acc; simpl.
  - tauto.
  - rewrite IH, set_add_In. intuition.
Qed.

Lemma repliedTo_In_gen (x : string) (messages : list Msg) (acc : list string) :
  In x (fold_left (fun acc msg =>
      fold_left (fun a r => set_add r a) (references msg)
        (fold_left (fun a r => set_add r a) (inReplyTo msg) acc)) messages acc)
  <-> In x acc \/ exists r, In r messages /\ (In x (inReplyTo r) \/ In x (references r)).
Proof.
  revert acc. induction messages as [|msg rest IH]; intros acc; simpl.
  - split; [tauto|]. intros [H|[r [[] _]]]. exact H.
  - rewrite IH, !fold_set_add_In. split.
    + intros [[[H|H]|H]|[r [Hr H]]].
      * left; exact H.
      * right; exists msg; auto.
      * right; exists msg; auto.
      * right; exists r; auto.
    + intros [H|[r [[<-|Hr] H]]].
      * left; left; left; exact H.
      * destruct H; [left; left; right | left; right]; assumption.
      * right; exists r; auto.
Qed.

(** [x] is in [repliedToIds] iff some message lists it. *)
Lemma repliedTo_In (x : string) (messages : list Msg) :
  In x (repliedTo messages) <->
  exists r, In r messages /\ (In x (inReplyTo r) \/ In x (references r)).
Proof.
  unfold repliedTo. rewrite repliedTo_In_gen. simpl. tauto.
Qed.

(** ** The aggregator *)

Lemma dedup_first_app (s : list string) (l1 l2 : list Msg) :
  dedup_first s (l1 ++ l2) =
  dedup_first s l1 ++ dedup_first (rev (map id (dedup_first s l1)) ++ s) l2.
Proof.
  revert s. induction l1 as [|m l1 IH]; intros s; simpl.
  - reflexivity.
  - destruct (String.eqb (id m) EmptyString); [apply IH|].
    destruct (mem (id m) s); [apply IH|].
    simpl. rewrite IH. rewrite <- app_assoc. reflexivity.
Qed.

(** The ids kept by [dedup_first] are pairwise distinct and new. *)
Lemma dedup_first_fresh (s : list string) (l : list Msg) :
  NoDup (map id (dedup_first s l)) /\
  forall x, In x (map id (dedup_first s l)) -> ~ In x s.
Proof.
  revert s. induction l as [|m l IH]; intros s; simpl.
  - split; [constructor | tauto].
  - destruct (String.eqb (id m) EmptyString); [apply IH|].
    destruct (mem (id m) s) eqn:Hm; [apply IH|].
    apply mem_false in Hm.
    destruct (IH (id m :: s)) as [Hnd Hfr]. simpl. split.
    + constructor; [|exact Hnd]. intros Hin. apply (Hfr _ Hin). left; reflexivity.
    + intros x [<-|Hx]; [exact Hm|]. intros Hs. apply (Hfr _ Hx). right; exact Hs.
Qed.

(** One page through the inner loop: the newly included messages are a
    prefix of the page's de-duplication against [seenItemIds]; either the
    whole of it, or the global cap was hit. *)
Lemma pushPage_spec (page : list Msg) (g g' : Agg) (inc inc' : nat) :
  length (a_messages g) < MAX_EMAILS_TO_PROCESS ->
  pushPage page g inc = (g', inc') ->
  exists pre rest,
    a_messages g' = a_messages g ++ pre /\
    pre ++ rest = dedup_first (a_seen g) page /\
    a_seen g' = rev (map id pre) ++ a_seen g /\
    length (a_messages g') <= MAX_EMAILS_TO_PROCESS /\
    (rest = [] \/ length (a_messages g') = MAX_EMAILS_TO_PROCESS).
Proof.
  revert g inc. induction page as [|m page IH]; intros g inc Hlt Hp;
    cbn [pushPage a_messages a_seen] in Hp.
  - injection Hp as <- <-. exists [], []. rewrite app_nil_r. repeat split; auto. lia.
  - simpl. revert Hp.
    destruct (String.eqb (id m) EmptyString); [intros Hp; eapply IH; eassumption|].
    destruct (mem (id m) (a_seen g)); [intros Hp; eapply IH; eassumption|].
    destruct (Nat.leb MAX_EMAILS_TO_PROCESS (length (a_messages g ++ [m]))) eqn:Hcap;
      intros Hp.
    + injection Hp as <- <-.
      apply Nat.leb_le in Hcap. rewrite length_app in Hcap. simpl in Hcap.
      exists [m], (dedup_first (id m :: a_seen g) page). simpl.
      repeat split; auto.
      * rewrite length_app. simpl. lia.
      * right. rewrite length_app. simpl. lia.
    + apply Nat.leb_gt in Hcap.
      destruct (IH (mkAgg (a_messages g ++ [m]) (id m :: a_seen g)) (S inc) Hcap Hp) as [pre [rest [H1 [H2 [H3 [H4 H5]]]]]]. simpl in *.
      exists (m :: pre), rest.
      repeat split; auto.
      * rewrite H1, <- app_assoc. reflexivity.
      * simpl. rewrite H2. reflexivity.
      * rewrite H3. simpl. rewrite <- app_assoc. reflexivity.
Qed.

Lemma frame_refl (s : St) : frame s s.
Proof. unfold frame; repeat split. Qed.

Lemma frame_trans (s1 s2 s3 : St) : frame s1 s2 -> frame s2 s3 -> frame s1 s3.
Proof.
  unfold frame. intros (H1&H2&H3&H4&H5&H6) (G1&G2&G3&G4&G5&G6).
  repeat split; congruence.
Qed.

Lemma frame_add_page (p : list Msg) (s : St) : frame s (add_page p s).
Proof. unfold frame; repeat split. Qed.

Lemma attempt_fetchPage (f : FolderRef) (sz off : nat) (e : Env) (s : St) :
  attempt (fetchPage f sz off) e s =
  match env_page e (st_moves s) f sz off with
  | Ok p => (Ok (Ok p), add_page p s)
  | Throw t => (Ok (Throw t), s)
  end.
Proof.
  cbv [attempt catch bind fetchPage ask get put ret].
  destruct (env_page e (st_moves s) f sz off); reflexivity.
Qed.

Lemma AggInv_nil : AggInv (mkAgg [] []) [].
Proof.
  unfold AggInv. simpl. repeat split; [unfold MAX_EMAILS_TO_PROCESS; lia|].
  exists []. split; [reflexivity | left; reflexivity].
Qed.

Lemma AggInv_push (g g' : Agg) (P : list (list Msg)) (page : list Msg) (inc inc' : nat) :
  AggInv g P -> length (a_messages g) < MAX_EMAILS_TO_PROCESS ->
  pushPage page g inc = (g', inc') -> AggInv g' (P ++ [page]).
Proof.
  intros (Hseen & Hlen & rest & Hd & Hr) Hlt Hp.
  assert (Hrest : rest = []) by (destruct Hr as [Hr|Hr]; [exact Hr | lia]).
  subst rest. rewrite app_nil_r in Hd.
  destruct (pushPage_spec page g g' inc inc' Hlt Hp)
    as (pre & rest' & H1 & H2 & H3 & H4 & H5).
  unfold AggInv. repeat split.
  - rewrite H3, Hseen, H1, map_app, rev_app_distr. reflexivity.
  - exact H4.
  - exists rest'. split; [|exact H5].
    rewrite concat_app, dedup_first_app. simpl. rewrite app_nil_r.
    rewrite <- Hd, app_nil_r, <- Hseen, <- H2, H1, app_assoc. reflexivity.
Qed.

Ltac loop_ret P :=
  unfold ret in *;
  match goal with H : (_, _) = (?o, ?s') |- _ => injection H as <- <- end;
  eexists _, P; split; [reflexivity|];
  split; [assumption|]; split; [simpl; assumption | apply frame_refl].

Lemma folderLoop_spec (fuel : nat) (folder : FolderRef) (g : Agg)
    (fetched inc off pi : nat) (e : Env) (s s' : St) base P o :
  st_pages s = base ++ P -> AggInv g P ->
  folderLoop fuel folder g fetched inc off pi e s = (o, s') ->
  exists r P', o = Ok r /\ st_pages s' = base ++ P' /\
               AggInv (fst (fst (fst r))) P' /\ frame s s'.
Proof.
  revert g fetched inc off pi s P.
  induction fuel as [|fuel IH]; intros g fetched inc off pi s P Hpg Hinv H;
    cbn [folderLoop] in H.
  - loop_ret P.
  - destruct (Nat.ltb (length (a_messages g)) MAX_EMAILS_TO_PROCESS
              && Nat.ltb fetched perFolderMax && Nat.ltb pi maxPagesPerFolder) eqn:C;
      [|loop_ret P].
    apply andb_true_iff in C as [C _]. apply andb_true_iff in C as [C _].
    apply Nat.ltb_lt in C.
    destruct (Nat.eqb _ 0); [loop_ret P|].
    unfold bind at 1 in H. rewrite attempt_fetchPage in H.
    destruct (env_page e (st_moves s) folder _ off) as [page|t] eqn:Ep.
    + destruct (pushPage page g inc) as [g' inc'] eqn:Pp.
      assert (Hinv' : AggInv g' (P ++ [page])) by (eapply AggInv_push; eauto).
      assert (Hpg' : st_pages (add_page page s) = base ++ (P ++ [page]))
        by (simpl; rewrite Hpg, app_assoc; reflexivity).
      destruct (Nat.ltb (length page) _).
      * unfold ret in H. injection H as <- <-.
        eexists _, (P ++ [page]). split; [reflexivity|].
        split; [exact Hpg'|]. split; [exact Hinv' | apply frame_add_page].
      * destruct (IH _ _ _ _ _ _ _ Hpg' Hinv' H) as (r & P' & Ho & Hp' & Hi & Hf).
        exists r, P'. split; [exact Ho|]. split; [exact Hp'|].
        split; [exact Hi | eapply frame_trans; [apply frame_add_page | exact Hf]].
    + loop_ret P.
Qed.

Lemma AggInv_out (g : Agg) (P : list (list Msg)) :
  AggInv g P ->
  length (a_messages g) <= MAX_EMAILS_TO_PROCESS /\
  prefix_of (a_messages g) (dedup_first [] (concat P)).
Proof.
  intros (_ & Hl & rest & Hd & _). split; [exact Hl | exists rest; exact Hd].
Qed.

Lemma foldersLoop_spec (folders : list FolderRef) (g : Agg) (stats : list FolderStat)
    (e : Env) (s s' : St) base P o :
  st_pages s = base ++ P -> AggInv g P ->
  foldersLoop folders g stats e s = (o, s') ->
  exists r P', o = Ok r /\ st_pages s' = base ++ P' /\
    length (fst r) <= MAX_EMAILS_TO_PROCESS /\
    prefix_of (fst r) (dedup_first [] (concat P')) /\ frame s s'.
Proof.
  revert g stats s P. induction folders as [|folder rest IH];
    intros g stats s P Hpg Hinv H; cbn [foldersLoop] in H.
  - unfold ret in H. injection H as <- <-.
    destruct (AggInv_out g P Hinv) as [Hl Hp].
    eexists _, P. repeat split; eauto using frame_refl.
  - unfold bind at 1 in H.
    destruct (folderLoop maxPagesPerFolder folder g 0 0 0 0 e s) as [o1 s1] eqn:F.
    destruct (folderLoop_spec _ _ _ _ _ _ _ _ _ _ _ _ _ Hpg Hinv F)
      as (r1 & P1 & -> & Hpg1 & Hinv1 & Hf1).
    destruct r1 as [[[g' fetched] included] pageError]. simpl in Hinv1.
    destruct (Nat.leb MAX_EMAILS_TO_PROCESS (length (a_messages g'))).
    + unfold ret in H. injection H as <- <-.
      destruct (AggInv_out g' P1 Hinv1) as [Hl Hp].
      eexists _, P1. split; [reflexivity|]. simpl.
      split; [exact Hpg1|]. split; [exact Hl|]. split; [exact Hp | exact Hf1].
    + destruct (IH _ _ _ _ Hpg1 Hinv1 H) as (r & P' & Ho & Hp' & Hl & Hpre & Hf).
      exists r, P'. split; [exact Ho|]. split; [exact Hp'|].
      split; [exact Hl|]. split; [exact Hpre | eapply frame_trans; eassumption].
Qed.

Lemma listInboxSubfolders_frame (e : Env) (s s' : St) o :
  listInboxSubfolders e s = (o, s') -> s' = s.
Proof.
  cbv [listInboxSubfolders bind ask ret throw].
  destruct (env_subfolders e); intros H; injection H as _ <-; reflexivity.
Qed.

(** The aggregator only appends served pages to [st_pages]; it keeps
    everything else; a successful run returns at most the global cap of
    messages, a prefix of the first-occurrence de-duplication of the pages
    it was served, in the order they were served. *)
Lemma fetchAll_spec (inc : bool) (e : Env) (s s' : St) o :
  fetchMessagesAcrossInboxAndSubfolders inc e s = (o, s') ->
  frame s s' /\ exists pages, st_pages s' = st_pages s ++ pages /\
    forall r, o = Ok r ->
      length (fst r) <= MAX_EMAILS_TO_PROCESS /\
      prefix_of (fst r) (dedup_first [] (concat pages)).
Proof.
  unfold fetchMessagesAcrossInboxAndSubfolders. unfold bind at 1.
  intros H.
  assert (Hgen : forall folders s0, s0 = s ->
            foldersLoop folders (mkAgg [] []) [] e s0 = (o, s') ->
            frame s s' /\ exists pages, st_pages s' = st_pages s ++ pages /\
              forall r, o = Ok r ->
                length (fst r) <= MAX_EMAILS_TO_PROCESS /\
                prefix_of (fst r) (dedup_first [] (concat pages))).
  { intros folders s0 -> Hf.
    assert (Hpg : st_pages s = st_pages s ++ []) by (rewrite app_nil_r; reflexivity).
    destruct (foldersLoop_spec _ _ _ _ _ _ _ _ _ Hpg AggInv_nil Hf)
      as (r & P' & -> & Hp' & Hl & Hpre & Hfr).
    split; [exact Hfr|]. exists P'. split; [exact Hp'|].
    intros r' Hr. injection Hr as <-. split; assumption. }
  destruct inc.
  - unfold bind at 1 in H.
    destruct (listInboxSubfolders e s) as [o1 s1] eqn:L.
    apply listInboxSubfolders_frame in L as ->.
    destruct o1 as [subs|t].
    + unfold ret in H. eapply Hgen; [reflexivity | exact H].
    + injection H as <- <-. split; [apply frame_refl|].
      exists []. rewrite app_nil_r. split; [reflexivity|]. intros r Hr; discriminate.
  - unfold ret in H. eapply Hgen; [reflexivity | exact H].
Qed.

Lemma prefix_NoDup_ids (l l' : list Msg) :
  prefix_of l (dedup_first [] l') -> NoDup (map id l).
Proof.
  intros [rest Hd].
  destruct (dedup_first_fresh [] l') as [Hnd _]. rewrite <- Hd, map_app in Hnd.
  eapply NoDup_app_remove_r. exact Hnd.
Qed.

(** Kept messages have a non-empty id, and are the first of the scanned
    stream with that id. *)
Lemma dedup_first_nonempty (s : list string) (l : list Msg) (m : Msg) :
  In m (dedup_first s l) -> id m <> EmptyString.
Proof.
  revert s. induction l as [|a l IH]; intros s Hin; simpl in Hin; [contradiction|].
  destruct (String.eqb (id a) EmptyString) eqn:E1; [eapply IH; eassumption|].
  destruct (mem (id a) s); [eapply IH; eassumption|].
  destruct Hin as [<-|Hin]; [apply String.eqb_neq; exact E1 | eapply IH; eassumption].
Qed.

Lemma dedup_first_first (s : list string) (l : list Msg) (m : Msg) :
  In m (dedup_first s l) ->
  exists l1 l2, l = l1 ++ m :: l2 /\ Forall (fun x => id x <> id m) l1.
Proof.
  revert s. induction l as [|a l IH]; intros s Hin; [contradiction|].
  pose proof (dedup_first_nonempty _ _ _ Hin) as Hne.
  assert (Hfresh := proj2 (dedup_first_fresh s (a :: l)) (id m) (in_map id _ _ Hin)).
  simpl in Hin.
  destruct (String.eqb (id a) EmptyString) eqn:E1.
  - apply String.eqb_eq in E1.
    destruct (IH s Hin) as (l1 & l2 & -> & Hf).
    exists (a :: l1), l2. split; [reflexivity|]. constructor; [congruence | exact Hf].
  - destruct (mem (id a) s) eqn:E2.
    + apply mem_In in E2.
      destruct (IH s Hin) as (l1 & l2 & -> & Hf).
      exists (a :: l1), l2. split; [reflexivity|].
      constructor; [intros Heq; apply Hfresh; rewrite <- Heq; exact E2 | exact Hf].
    + destruct Hin as [<-|Hin].
      * exists [], l. split; [reflexivity | constructor].
      * pose proof (proj2 (dedup_first_fresh (id a :: s) l) (id m) (in_map id _ _ Hin))
          as Hfr.
        destruct (IH _ Hin) as (l1 & l2 & -> & Hf).
        exists (a :: l1), l2. split; [reflexivity|].
        constructor; [intros Heq; apply Hfr; left; exact Heq | exact Hf].
Qed.

(** ** Log helpers and the orchestrator phases *)

Lemma set_log_set_log (l l' : list string) (s : St) :
  set_log l (set_log l' s) = set_log l s.
Proof. destruct s; reflexivity. Qed.

Lemma logp_eq (line : string) (e : Env) (s : St) :
  logp line e s = (Ok tt, set_log (st_log s ++ [line]) s).
Proof. reflexivity. Qed.

Lemma fold_logp_eq {R} (f : R -> string) (rows : list R) (m0 : M unit) (e : Env)
    (s s0 : St) :
  m0 e s = (Ok tt, s0) ->
  fold_left (fun m row => m ;;; logp (f row)) rows m0 e s =
  (Ok tt, set_log (st_log s0 ++ map f rows) s0).
Proof.
  revert m0 s0. induction rows as [|row rows IH]; intros m0 s0 H; simpl.
  - rewrite H, app_nil_r. destruct s0; reflexivity.
  - rewrite (IH _ (set_log (st_log s0 ++ [f row]) s0)).
    + rewrite set_log_set_log. simpl. rewrite <- app_assoc. reflexivity.
    + unfold bind. rewrite H. reflexivity.
Qed.

Lemma appendFolderStatsToLog_eq (title : string) (stats : list FolderStat)
    (e : Env) (s : St) :
  exists lines, appendFolderStatsToLog title stats e s =
                (Ok tt, set_log (st_log s ++ lines) s).
Proof.
  destruct stats as [|row rows].
  - exists []. rewrite app_nil_r. destruct s; reflexivity.
  - unfold appendFolderStatsToLog. unfold bind at 1. rewrite logp_eq.
    erewrite fold_logp_eq; [|reflexivity].
    eexists. rewrite set_log_set_log. simpl. rewrite <- app_assoc. reflexivity.
Qed.

Lemma appendCountsToLog_eq (title : string) (rows : list (string * nat))
    (e : Env) (s : St) :
  exists lines, appendCountsToLog title rows e s =
                (Ok tt, set_log (st_log s ++ lines) s).
Proof.
  destruct rows as [|row rows].
  - exists []. rewrite app_nil_r. destruct s; reflexivity.
  - unfold appendCountsToLog. unfold bind at 1. rewrite logp_eq.
    erewrite fold_logp_eq; [|reflexivity].
    eexists. rewrite set_log_set_log. simpl. rewrite <- app_assoc. reflexivity.
Qed.

Lemma bind_logp {B} (line : string) (k : unit -> M B) (e : Env) (s : St) :
  bind (logp line) k e s = k tt e (set_log (st_log s ++ [line]) s).
Proof. reflexivity. Qed.

Lemma bind_ret {A B} (a : A) (k : A -> M B) (e : Env) (s : St) :
  bind (ret a) k e s = k a e s.
Proof. reflexivity. Qed.

Lemma bind_eq {A B} (m : M A) (k : A -> M B) (e : Env) (s : St) :
  bind m k e s = match m e s with
                 | (Ok a, s') => k a e s'
                 | (Throw t, s') => (Throw t, s')
                 end.
Proof. reflexivity. Qed.

Lemma attempt_moveToFolder (itemId chKey dest : string) (e : Env) (s : St) :
  attempt (moveToFolder itemId chKey dest) e s =
  match env_move e itemId dest with
  | None => (Ok (Ok tt), add_move (itemId, dest) true s)
  | Some t => (Ok (Throw t), add_move (itemId, dest) false s)
  end.
Proof.
  cbv [attempt catch bind moveToFolder ask get put ret throw].
  destruct (env_move e itemId dest); reflexivity.
Qed.

Lemma Batch_nil (e : Env) (dest : string) (s : St) : Batch e dest [] s s.
Proof.
  unfold Batch. simpl. rewrite !app_nil_r. repeat split; auto.
  exists []. symmetry. apply app_nil_r.
Qed.

Lemma Batch_log (e : Env) (dest : string) (ms : list Msg) (s s' : St) (l : list string) :
  Batch e dest ms s s' -> Batch e dest ms s (set_log (st_log s' ++ l) s').
Proof.
  intros (H1&H2&H3&H4&[l0 H5]&H6&H7). unfold Batch; simpl.
  repeat split; auto. exists (l0 ++ l). rewrite H5, app_assoc. reflexivity.
Qed.

Lemma Batch_step (e : Env) (dest : string) (m : Msg) (ms : list Msg) (s s' : St)
    (line : string) :
  Batch e dest ms
    (set_log (st_log (add_move (id m, dest) (move_ok e dest m) s) ++ [line])
       (add_move (id m, dest) (move_ok e dest m) s)) s' ->
  Batch e dest (m :: ms) s s'.
Proof.
  intros (H1&H2&H3&H4&[l0 H5]&H6&H7). unfold Batch in *; simpl in *.
  repeat split; auto.
  - exists (line :: l0). rewrite H5, <- app_assoc. reflexivity.
  - rewrite H6, <- app_assoc. reflexivity.
  - rewrite H7. unfold move_ok. destruct (env_move e (id m) dest); simpl;
      rewrite <- ?app_assoc; reflexivity.
Qed.

Lemma moveDuplicateList_spec (dest : string) (toMove : list Msg) (moved errs : nat)
    (e : Env) (s s' : St) o :
  moveDuplicateList dest toMove moved errs e s = (o, s') ->
  (exists r, o = Ok r) /\ Batch e dest toMove s s'.
Proof.
  revert moved errs s. induction toMove as [|m ms IH]; intros moved errs s H;
    cbn [moveDuplicateList] in H.
  - unfold ret in H. injection H as <- <-. split; [eexists; reflexivity | apply Batch_nil].
  - rewrite bind_eq, attempt_moveToFolder in H.
    destruct (env_move e (id m) dest) eqn:Em; rewrite bind_logp in H;
      destruct (IH _ _ _ H) as [Ho HB]; (split; [exact Ho|]);
      eapply Batch_step; unfold move_ok; rewrite Em; exact HB.
Qed.

Lemma Batch_app (e : Env) (dest : string) (l1 l2 : list Msg) (s s1 s2 : St) :
  Batch e dest l1 s s1 -> Batch e dest l2 s1 s2 -> Batch e dest (l1 ++ l2) s s2.
Proof.
  intros (H1&H2&H3&H4&[la H5]&H6&H7) (G1&G2&G3&G4&[lb G5]&G6&G7).
  unfold Batch. repeat split; try congruence.
  - exists (la ++ lb). rewrite G5, H5, app_assoc. reflexivity.
  - rewrite G6, H6, map_app, app_assoc. reflexivity.
  - rewrite G7, H7, filter_app, map_app, app_assoc. reflexivity.
Qed.

Lemma moveDuplicates_spec (dest : string) (groups : list (string * list Msg))
    (moved errs : nat) (e : Env) (s s' : St) o :
  moveDuplicates dest groups moved errs e s = (o, s') ->
  (exists r, o = Ok r) /\ Batch e dest (movableDuplicates groups) s s'.
Proof.
  revert moved errs s. induction groups as [|[k emails] groups IH];
    intros moved errs s H; cbn [moveDuplicates] in H.
  - unfold ret in H. injection H as <- <-. split; [eexists; reflexivity | apply Batch_nil].
  - unfold movableDuplicates. cbn [flat_map snd].
    destruct (Nat.ltb 1 (length emails)).
    + rewrite bind_eq in H.
      destruct (moveDuplicateList dest (tl emails) moved errs e s) as [o1 s1] eqn:E1.
      destruct (moveDuplicateList_spec _ _ _ _ _ _ _ _ E1) as [[r1 ->] HB1].
      destruct (IH _ _ _ H) as [Ho HB2]. split; [exact Ho|].
      eapply Batch_app; eassumption.
    + apply IH in H. exact H.
Qed.

Lemma archiveAll_spec (dest : string) (msgs : list Msg) (acc : ArchAcc)
    (e : Env) (s s' : St) o :
  archiveAll dest msgs acc e s = (o, s') ->
  (exists r, o = Ok r) /\ Batch e dest msgs s s'.
Proof.
  revert acc s. induction msgs as [|m ms IH]; intros acc s H; cbn [archiveAll] in H.
  - unfold ret in H. injection H as <- <-. split; [eexists; reflexivity | apply Batch_nil].
  - rewrite bind_eq, attempt_moveToFolder in H.
    destruct (env_move e (id m) dest) eqn:Em; rewrite bind_logp in H;
      destruct (IH _ _ H) as [Ho HB]; (split; [exact Ho|]);
      eapply Batch_step; unfold move_ok; rewrite Em; exact HB.
Qed.

Lemma dedupPhase_absent (groups : list (string * list Msg)) (e : Env) (s : St) :
  truthy (env_findFolder e "Duplicates") = None ->
  dedupPhase groups e s =
  (Ok (0, 0), set_log (st_log s ++ [checkingDuplicatesLine; skipDuplicatesLine]) s).
Proof.
  intros Hd. unfold dedupPhase. rewrite bind_logp.
  cbv [getFolderId findFolderByName bind ask ret] in *. rewrite Hd.
  rewrite logp_eq. rewrite set_log_set_log. simpl. rewrite <- app_assoc. reflexivity.
Qed.

Lemma dedupPhase_found (groups : list (string * list Msg)) (d : string) (e : Env)
    (s s' : St) o :
  truthy (env_findFolder e "Duplicates") = Some d ->
  dedupPhase groups e s = (o, s') ->
  (exists r, o = Ok r) /\ Batch e d (movableDuplicates groups) s s'.
Proof.
  intros Hd H. unfold dedupPhase in H. rewrite bind_logp in H.
  cbv [getFolderId findFolderByName ask] in H. rewrite !bind_eq in H. simpl in H.
  rewrite Hd in H. rewrite bind_logp, bind_eq in H.
  destruct (moveDuplicates d groups 0 0 e _) as [o1 s1] eqn:E1.
  destruct (moveDuplicates_spec _ _ _ _ _ _ _ _ E1) as [[r1 ->] HB].
  rewrite bind_logp in H. unfold ret in H. injection H as <- <-.
  split; [eexists; reflexivity|].
  apply Batch_log.
  destruct HB as (H1&H2&H3&H4&[l0 H5]&H6&H7).
  unfold Batch in *. simpl in *. repeat split; auto.
  exists (checkingDuplicatesLine :: cat ["Found "; quoted "Duplicates"; " folder, moving duplicates..."] :: l0).
  rewrite H5. simpl. rewrite <- !app_assoc. reflexivity.
Qed.

Lemma RelTo_refl (P : string -> Prop) (s : St) : RelTo P s s.
Proof.
  unfold RelTo. repeat split; [exists []; symmetry; apply app_nil_r|].
  exists []. split; [symmetry; apply app_nil_r | constructor].
Qed.

Lemma RelTo_trans (P : string -> Prop) (s1 s2 s3 : St) :
  RelTo P s1 s2 -> RelTo P s2 s3 -> RelTo P s1 s3.
Proof.
  intros (H1&H2&[l1 H3]&n1&H4&H5) (G1&G2&[l2 G3]&n2&G4&G5).
  unfold RelTo. repeat split; try congruence.
  - exists (l1 ++ l2). rewrite G3, H3, app_assoc. reflexivity.
  - exists (n1 ++ n2). split; [rewrite G4, H4, app_assoc; reflexivity|].
    apply Forall_app; split; assumption.
Qed.

Lemma RelTo_weaken (P Q : string -> Prop) (s s' : St) :
  (forall f, P f -> Q f) -> RelTo P s s' -> RelTo Q s s'.
Proof.
  intros HPQ (H1&H2&H3&n&H4&H5). unfold RelTo. repeat split; auto.
  exists n. split; [exact H4|]. eapply Forall_impl; [|exact H5]. intros a; apply HPQ.
Qed.

Lemma RelTo_frame (P : string -> Prop) (s s' : St) : frame s s' -> RelTo P s s'.
Proof.
  intros (H1&H2&H3&H4&H5&H6). unfold RelTo. repeat split; auto.
  - exists []. rewrite H2. symmetry. apply app_nil_r.
  - exists []. split; [rewrite H4; symmetry; apply app_nil_r | constructor].
Qed.

Lemma RelTo_log (P : string -> Prop) (s : St) (l : list string) :
  RelTo P s (set_log (st_log s ++ l) s).
Proof.
  unfold RelTo. simpl. repeat split; [exists l; reflexivity|].
  exists []. split; [symmetry; apply app_nil_r | constructor].
Qed.

Lemma RelTo_Batch (P : string -> Prop) (e : Env) (dest : string) (ms : list Msg)
    (s s' : St) :
  P dest -> Batch e dest ms s s' -> RelTo P s s'.
Proof.
  intros HP (H1&H2&H3&H4&H5&H6&H7). unfold RelTo. repeat split; auto.
  eexists. split; [exact H7|]. apply Forall_forall. intros x Hx.
  apply in_map_iff in Hx as [m [<- _]]. exact HP.
Qed.

Lemma bind_currentLog {B} (k : list string -> M B) (e : Env) (s : St) :
  bind currentLog k e s = k (st_log s) e s.
Proof. reflexivity. Qed.

Lemma bind_getFolderId_dist {B} (name : string) (k : option string -> M B)
    (e : Env) (s : St) :
  bind (getFolderId name true) k e s = k (env_distinguished e name) e s.
Proof. reflexivity. Qed.

Lemma bind_appendFolderStatsToLog {B} (title : string) (stats : list FolderStat)
    (k : unit -> M B) (e : Env) (s : St) :
  exists lines, bind (appendFolderStatsToLog title stats) k e s =
                k tt e (set_log (st_log s ++ lines) s).
Proof.
  destruct (appendFolderStatsToLog_eq title stats e s) as [lines Hl].
  exists lines. rewrite bind_eq, Hl. reflexivity.
Qed.

Lemma bind_appendCountsToLog {B} (title : string) (rows : list (string * nat))
    (k : unit -> M B) (e : Env) (s : St) :
  exists lines, bind (appendCountsToLog title rows) k e s =
                k tt e (set_log (st_log s ++ lines) s).
Proof.
  destruct (appendCountsToLog_eq title rows e s) as [lines Hl].
  exists lines. rewrite bind_eq, Hl. reflexivity.
Qed.

Section Keeps.
Variable P : string -> Prop.
Variable e : Env.

Lemma keeps_ret {A} (a : A) : KeepsE P e (ret a).
Proof. intros s o s' H. injection H as _ <-. apply RelTo_refl. Qed.

Lemma keeps_throw {A} (t : string) : KeepsE P e (@throw A t).
Proof. intros s o s' H. injection H as _ <-. apply RelTo_refl. Qed.

Lemma keeps_bind {A B} (m : M A) (k : A -> M B) :
  KeepsE P e m -> (forall a, KeepsE P e (k a)) -> KeepsE P e (bind m k).
Proof.
  intros Hm Hk s o s' H. rewrite bind_eq in H.
  destruct (m e s) as [[a|t] s1] eqn:E.
  - eapply RelTo_trans; [eapply Hm; exact E | eapply Hk; exact H].
  - injection H as _ <-. eapply Hm. exact E.
Qed.

Lemma keeps_bind_dist {B} (name : string) (k : option string -> M B) :
  KeepsE P e (k (env_distinguished e name)) -> KeepsE P e (bind (getFolderId name true) k).
Proof. intros Hk s o s' H. rewrite bind_getFolderId_dist in H. eapply Hk. exact H. Qed.

Lemma keeps_logp (line : string) : KeepsE P e (logp line).
Proof. intros s o s' H. rewrite logp_eq in H. injection H as _ <-. apply RelTo_log. Qed.

Lemma keeps_currentLog : KeepsE P e currentLog.
Proof. intros s o s' H. injection H as _ <-. apply RelTo_refl. Qed.

Lemma keeps_appendFolderStatsToLog (title : string) (stats : list FolderStat) :
  KeepsE P e (appendFolderStatsToLog title stats).
Proof.
  intros s o s' H. destruct (appendFolderStatsToLog_eq title stats e s) as [l E].
  rewrite E in H. injection H as _ <-. apply RelTo_log.
Qed.

Lemma keeps_appendCountsToLog (title : string) (rows : list (string * nat)) :
  KeepsE P e (appendCountsToLog title rows).
Proof.
  intros s o s' H. destruct (appendCountsToLog_eq title rows e s) as [l E].
  rewrite E in H. injection H as _ <-. apply RelTo_log.
Qed.

Lemma keeps_fetchAll (inc : bool) : KeepsE P e (fetchMessagesAcrossInboxAndSubfolders inc).
Proof.
  intros s o s' H. apply fetchAll_spec in H as [Hf _]. apply RelTo_frame. exact Hf.
Qed.

Lemma keeps_storeResult (v : Stored) : KeepsE P e (storeResult v).
Proof.
  intros s o s' H. cbv [storeResult bind ask get put] in H.
  destruct (env_store e); injection H as _ <-; [apply RelTo_refl|].
  unfold RelTo; simpl. repeat split; [exists []; symmetry; apply app_nil_r|].
  exists []. split; [symmetry; apply app_nil_r | constructor].
Qed.

Lemma keeps_archiveAll (dest : string) (msgs : list Msg) (acc : ArchAcc) :
  P dest -> KeepsE P e (archiveAll dest msgs acc).
Proof.
  intros HP s o s' H. apply archiveAll_spec in H as [_ HB].
  eapply RelTo_Batch; eassumption.
Qed.

Lemma keeps_dedupPhase (groups : list (string * list Msg)) :
  (forall d, truthy (env_findFolder e "Duplicates") = Some d -> P d) ->
  KeepsE P e (dedupPhase groups).
Proof.
  intros HP s o s' H.
  destruct (truthy (env_findFolder e "Duplicates")) as [d|] eqn:Hd.
  - destruct (dedupPhase_found _ _ _ _ _ _ Hd H) as [_ HB].
    eapply RelTo_Batch; [apply HP; reflexivity | exact HB].
  - rewrite (dedupPhase_absent _ _ _ Hd) in H. injection H as _ <-. apply RelTo_log.
Qed.
End Keeps.

Create HintDb keeps.

#[export] Hint Resolve keeps_ret keeps_throw keeps_logp keeps_currentLog
  keeps_appendFolderStatsToLog keeps_appendCountsToLog keeps_fetchAll
  keeps_storeResult : keeps.

(** Split a run into its steps: binds, lets and the matches on values. *)
Ltac keeps_steps :=
  repeat first
    [ solve [eauto with keeps]
    | match goal with
      | |- KeepsE _ _ (let _ := _ in _) => cbv zeta
      | |- KeepsE _ _ (bind (getFolderId _ true) _) => apply keeps_bind_dist
      | |- KeepsE _ _ (bind (archiveAll _ _ _) _) =>
          apply keeps_bind; [apply keeps_archiveAll | intros ?]
      | |- KeepsE _ _ (bind ?m ?k) => apply (keeps_bind _ _ m k); [| intros ?]
      | |- KeepsE _ _ (match ?x with _ => _ end) => destruct x eqn:?
      | |- KeepsE _ _ (if ?b then _ else _) => destruct b
      end ].

Lemma keeps_weaken (P Q : string -> Prop) (e : Env) {A} (m : M A) :
  (forall f, P f -> Q f) -> KeepsE P e m -> KeepsE Q e m.
Proof. intros HPQ H s o s' E. eapply RelTo_weaken; [exact HPQ | eapply H; exact E]. Qed.

Lemma keeps_archivePhase (e : Env) (inc : bool) (total dm de : nat) :
  KeepsE (toArchiveFolder e) e (archivePhase inc total dm de).
Proof.
  unfold archivePhase. keeps_steps. unfold toArchiveFolder; congruence.
Qed.

Lemma keeps_processBody (e : Env) (dry inc : bool) :
  KeepsE (toDupOrArchive e) e (processBody dry inc).
Proof.
  unfold processBody. keeps_steps.
  - apply keeps_dedupPhase. intros d Hd. left. congruence.
  - eapply keeps_weaken; [|apply keeps_archivePhase]. intros f Hf. right. exact Hf.
Qed.

Section MovesOnly.
Variable e : Env.

Lemma movesOnly_ret {A} (a : A) : MovesOnly e (ret a).
Proof. intros s1 s2 H. split; [reflexivity | exact H]. Qed.

Lemma movesOnly_throw {A} (t : string) : MovesOnly e (@throw A t).
Proof. intros s1 s2 H. split; [reflexivity | exact H]. Qed.

Lemma movesOnly_ask : MovesOnly e ask.
Proof. intros s1 s2 H. split; [reflexivity | exact H]. Qed.

Lemma movesOnly_bind {A B} (m : M A) (k : A -> M B) :
  MovesOnly e m -> (forall a, MovesOnly e (k a)) -> MovesOnly e (bind m k).
Proof.
  intros Hm Hk s1 s2 H. rewrite !bind_eq.
  destruct (Hm s1 s2 H) as [E1 E2].
  destruct (m e s1) as [[a1|t1] s1'], (m e s2) as [[a2|t2] s2']; simpl in E1, E2;
    try discriminate.
  - injection E1 as <-. apply Hk. exact E2.
  - injection E1 as <-. split; [reflexivity | exact E2].
Qed.

Lemma movesOnly_attempt_fetchPage (f : FolderRef) (sz off : nat) :
  MovesOnly e (attempt (fetchPage f sz off)).
Proof.
  intros s1 s2 H. rewrite !attempt_fetchPage, H.
  destruct (env_page e (st_moves s2) f sz off); split; try reflexivity; exact H.
Qed.

Lemma movesOnly_folderLoop (fuel : nat) (folder : FolderRef) (g : Agg)
    (fetched included offset pageIndex : nat) :
  MovesOnly e (folderLoop fuel folder g fetched included offset pageIndex).
Proof.
  revert g fetched included offset pageIndex.
  induction fuel as [|fuel IH]; intros g fetched included offset pageIndex.
  - apply movesOnly_ret.
  - cbn [folderLoop].
    destruct (_ && _ && _); [|apply movesOnly_ret].
    cbv zeta. destruct (Nat.eqb _ 0); [apply movesOnly_ret|].
    apply movesOnly_bind; [apply movesOnly_attempt_fetchPage|].
    intros [page|t]; [|apply movesOnly_ret].
    destruct (pushPage page g included) as [g' included'].
    destruct (Nat.ltb _ _); [apply movesOnly_ret | apply IH].
Qed.

Lemma movesOnly_foldersLoop (folders : list FolderRef) (g : Agg) (stats : list FolderStat) :
  MovesOnly e (foldersLoop folders g stats).
Proof.
  revert g stats. induction folders as [|folder rest IH]; intros g stats.
  - apply movesOnly_ret.
  - cbn [foldersLoop]. apply movesOnly_bind; [apply movesOnly_folderLoop|].
    intros [[[g' fetched] included] pageError]. cbv zeta.
    destruct (Nat.leb _ _); [apply movesOnly_ret | apply IH].
Qed.

Lemma movesOnly_fetchAll (inc : bool) :
  MovesOnly e (fetchMessagesAcrossInboxAndSubfolders inc).
Proof.
  unfold fetchMessagesAcrossInboxAndSubfolders.
  apply movesOnly_bind; [|intros; apply movesOnly_foldersLoop].
  destruct inc; [|apply movesOnly_ret].
  apply movesOnly_bind; [|intros; apply movesOnly_ret].
  unfold listInboxSubfolders. apply movesOnly_bind; [apply movesOnly_ask|].
  intros e'. destruct (env_subfolders e'); apply movesOnly_ret.
Qed.
End MovesOnly.

Section Post.
Variable e : Env.

Lemma post_ret {A} (Q : A -> St -> Prop) R (a : A) :
  (forall s, Q a s) -> PostE e Q R (ret a).
Proof. intros HQ s o s' H. injection H as <- <-. apply HQ. Qed.

Lemma post_throw {A} (Q : A -> St -> Prop) (R : string -> Prop) (t : string) :
  R t -> PostE e Q R (throw t).
Proof. intros HR s o s' H. injection H as <- <-. exact HR. Qed.

Lemma post_bind {A B} (Q : B -> St -> Prop) R (m : M A) (k : A -> M B) :
  PostE e Any R m -> (forall a, PostE e Q R (k a)) -> PostE e Q R (bind m k).
Proof.
  intros Hm Hk s o s' H. rewrite bind_eq in H.
  destruct (m e s) as [[a|t] s1] eqn:E.
  - eapply Hk. exact H.
  - injection H as <- <-. exact (Hm _ _ _ E).
Qed.


Lemma post_bind_dist {B} (Q : B -> St -> Prop) R (name : string)
    (k : option string -> M B) :
  PostE e Q R (k (env_distinguished e name)) -> PostE e Q R (bind (getFolderId name true) k).
Proof. intros Hk s o s' H. rewrite bind_getFolderId_dist in H. eapply Hk. exact H. Qed.

Lemma post_currentLog_ret {A} (Q : A -> St -> Prop) R (f : list string -> A) :
  (forall s, Q (f (st_log s)) s) -> PostE e Q R (bind currentLog (fun l => ret (f l))).
Proof. intros HQ s o s' H. injection H as <- <-. apply HQ. Qed.

Lemma post_bind_dedup_absent {B} (Q : B -> St -> Prop) R groups (k : nat * nat -> M B) :
  truthy (env_findFolder e "Duplicates") = None ->
  PostE e Q R (k (0, 0)) -> PostE e Q R (bind (dedupPhase groups) k).
Proof.
  intros Hd Hk s o s' H. rewrite bind_eq, (dedupPhase_absent _ _ _ Hd) in H.
  eapply Hk. exact H.
Qed.

Lemma thr_ret {A} R (a : A) : PostE e Any R (ret a).
Proof. apply post_ret. intros; exact I. Qed.

Lemma thr_logp R (line : string) : PostE e Any R (logp line).
Proof. intros s o s' H. rewrite logp_eq in H. injection H as <- _. exact I. Qed.

Lemma thr_currentLog R : PostE e Any R currentLog.
Proof. intros s o s' H. injection H as <- _. exact I. Qed.

Lemma thr_appendFolderStatsToLog R title stats :
  PostE e Any R (appendFolderStatsToLog title stats).
Proof.
  intros s o s' H. destruct (appendFolderStatsToLog_eq title stats e s) as [l E].
  rewrite E in H. injection H as <- _. exact I.
Qed.

Lemma thr_appendCountsToLog R title rows :
  PostE e Any R (appendCountsToLog title rows).
Proof.
  intros s o s' H. destruct (appendCountsToLog_eq title rows e s) as [l E].
  rewrite E in H. injection H as <- _. exact I.
Qed.

Lemma thr_archiveAll R dest msgs acc : PostE e Any R (archiveAll dest msgs acc).
Proof.
  intros s o s' H. apply archiveAll_spec in H as [[r ->] _]. exact I.
Qed.

Lemma thr_dedupPhase R groups : PostE e Any R (dedupPhase groups).
Proof.
  intros s o s' H.
  destruct (truthy (env_findFolder e "Duplicates")) as [d|] eqn:Hd.
  - destruct (dedupPhase_found _ _ _ _ _ _ Hd H) as [[r ->] _]. exact I.
  - rewrite (dedupPhase_absent _ _ _ Hd) in H. injection H as <- _. exact I.
Qed.

Lemma thr_attempt_fetchPage R f sz off : PostE e Any R (attempt (fetchPage f sz off)).
Proof.
  intros s o s' H. rewrite attempt_fetchPage in H.
  destruct (env_page e (st_moves s) f sz off); injection H as <- _; exact I.
Qed.

Lemma thr_folderLoop R fuel folder g fetched included offset pageIndex :
  PostE e Any R (folderLoop fuel folder g fetched included offset pageIndex).
Proof.
  revert g fetched included offset pageIndex.
  induction fuel as [|fuel IH]; intros g fetched included offset pageIndex.
  - apply post_ret. intros; exact I.
  - cbn [folderLoop].
    destruct (_ && _ && _); [|apply post_ret; intros; exact I].
    cbv zeta. destruct (Nat.eqb _ 0); [apply post_ret; intros; exact I|].
    apply post_bind; [apply thr_attempt_fetchPage|].
    intros [page|t]; [|apply post_ret; intros; exact I].
    destruct (pushPage page g included) as [g' included'].
    destruct (Nat.ltb _ _); [apply post_ret; intros; exact I | apply IH].
Qed.

Lemma thr_foldersLoop R folders g stats : PostE e Any R (foldersLoop folders g stats).
Proof.
  revert g stats. induction folders as [|folder rest IH]; intros g stats.
  - apply post_ret. intros; exact I.
  - cbn [foldersLoop]. apply post_bind; [apply thr_folderLoop|].
    intros [[[g' fetched] included] pageError]. cbv zeta.
    destruct (Nat.leb _ _); [apply post_ret; intros; exact I | apply IH].
Qed.

Lemma thr_fetchAll (R : string -> Prop) inc :
  PostE e Any R (fetchMessagesAcrossInboxAndSubfolders inc).
Proof.
  unfold fetchMessagesAcrossInboxAndSubfolders.
  apply post_bind; [|intros; apply thr_foldersLoop].
  destruct inc; [|apply post_ret; intros; exact I].
  apply post_bind; [|intros; apply post_ret; intros; exact I].
  intros s o s' H. cbv [listInboxSubfolders bind ask ret] in H.
  destruct (env_subfolders e); injection H as <- _; exact I.
Qed.

Lemma thr_storeResult (R : string -> Prop) v :
  (forall t, env_store e = Some t -> R t) -> PostE e Any R (storeResult v).
Proof.
  intros HR s o s' H. cbv [storeResult bind ask get put throw] in H.
  destruct (env_store e) eqn:Es; injection H as <- _; [apply HR; reflexivity | exact I].
Qed.
End Post.

Create HintDb post.
#[export] Hint Resolve thr_ret thr_logp thr_currentLog thr_appendFolderStatsToLog
  thr_appendCountsToLog thr_archiveAll thr_dedupPhase : post.

Ltac post_steps :=
  repeat first
    [ solve [eauto with post]
    | match goal with
      | |- PostE _ _ _ (let _ := _ in _) => cbv zeta
      | |- PostE _ _ _ (bind (getFolderId _ true) _) => apply post_bind_dist
      | |- PostE _ _ _ (bind currentLog _) => apply post_currentLog_ret; intros ?
      | |- PostE _ _ _ (bind (fetchMessagesAcrossInboxAndSubfolders _) _) =>
          apply post_bind; [apply thr_fetchAll | intros ?]
      | |- PostE _ _ _ (bind (storeResult _) _) =>
          apply post_bind; [apply thr_storeResult; unfold thrownBy; intros; split; [auto | congruence] | intros ?]
      | |- PostE _ _ _ (bind ?m ?k) => apply (post_bind _ _ _ m k); [| intros ?]
      | |- PostE _ _ _ (match ?x with _ => _ end) => destruct x eqn:?
      | |- PostE _ _ _ (if ?b then _ else _) => destruct b eqn:?
      end ].

Lemma post_archivePhase (e : Env) (inc : bool) (total dm de : nat) :
  PostE e (archiveOutcome e dm) (thrownBy e inc) (archivePhase inc total dm de).
Proof.
  unfold archivePhase. post_steps.
  all: unfold archiveOutcome; cbn; intuition congruence.
Qed.



Lemma processAndArchiveEmails_busy (dry inc : bool) (e : Env) (s : St) :
  st_inProgress s = true -> processAndArchiveEmails dry inc e s = (Ok res_busy, s).
Proof. intros H. cbv [processAndArchiveEmails bind get ret]. rewrite H. reflexivity. Qed.

Lemma processAndArchiveEmails_eq (dry inc : bool) (e : Env) (s : St) :
  st_inProgress s = false ->
  processAndArchiveEmails dry inc e s =
  match processBody dry inc e (set_log [] (set_inProgress true s)) with
  | (Ok r, s1) => (Ok r, set_inProgress false s1)
  | (Throw t, s1) =>
      (Ok (res_failure t (st_log s1 ++ [errorLine t])),
       set_inProgress false (set_log (st_log s1 ++ [errorLine t]) s1))
  end.
Proof.
  intros H. cbv [processAndArchiveEmails bind get put finally catch]. rewrite H.
  destruct (processBody dry inc e _) as [[r|t] s1]; reflexivity.
Qed.


Ltac rw_append H :=
  match type of H with
  | context [bind (appendFolderStatsToLog ?t ?st) ?k ?e ?s] =>
      let l := fresh "lines" in let E := fresh "E" in
      destruct (bind_appendFolderStatsToLog t st k e s) as [l E]; rewrite E in H
  | context [bind (appendCountsToLog ?t ?rows) ?k ?e ?s] =>
      let l := fresh "lines" in let E := fresh "E" in
      destruct (bind_appendCountsToLog t rows k e s) as [l E]; rewrite E in H
  end.

Lemma liveBody_dup_absent (inc : bool) (e : Env) (s s' : St) o msgs stats :
  truthy (env_findFolder e "Duplicates") = None ->
  fst (fetchMessagesAcrossInboxAndSubfolders inc e s) = Ok (msgs, stats) ->
  0 < duplicateCountOf (emailGroupsOf msgs) ->
  processBody false inc e s = (o, s') ->
  exists s4, st_created s4 = st_created s /\ st_moves s4 = st_moves s /\
    In skipDuplicatesLine (st_log s4) /\
    archivePhase inc (length msgs) 0 0 e s4 = (o, s').
Proof.
  intros Hd Hf Hdup H.
  unfold processBody in H. rewrite !bind_logp, bind_eq in H.
  match type of H with context [fetchMessagesAcrossInboxAndSubfolders inc e ?s2] =>
    pose proof (movesOnly_fetchAll e inc s2 s eq_refl) as [Ef _];
    destruct (fetchMessagesAcrossInboxAndSubfolders inc e s2) as [of s3] eqn:F end.
  rewrite Hf in Ef. cbn [fst] in Ef. subst of.
  apply fetchAll_spec in F as [(_ & Fl & _ & Fm & Fc & _) _].
  cbn [fst snd] in H. rewrite bind_logp in H. rw_append H.
  destruct msgs as [|m0 ms]; [cbn in Hdup; lia|].
  rewrite !bind_logp in H. rw_append H. rewrite bind_logp in H.
  apply Nat.ltb_lt in Hdup. rewrite Hdup in H.
  rewrite bind_eq, (dedupPhase_absent _ _ _ Hd) in H. cbn [fst snd] in H.
  eexists. split; [|split; [|split]]; [| | | exact H].
  - cbn [set_log st_created]. rewrite Fc. reflexivity.
  - cbn [set_log st_moves]. rewrite Fm. reflexivity.
  - cbn [set_log st_log]. apply in_or_app. right. right. left. reflexivity.
Qed.

(** Claim C4, corrected.  In a live run whose fetched messages contain a
    duplicate group while the Duplicates folder is absent, the run creates
    no folder, logs that duplicate handling is skipped, moves items only
    into the archive folder, and reports duplicatesMovedCount = 0 when it
    succeeds.  The skip never causes a failure: a failure carries the
    archive-folder error (the archive folder being absent) or the error of
    storing the result. *)
Theorem dup_folder_missing_live_run (inc : bool) (e : Env) (s s' : St) o msgs stats :
  st_inProgress s = false ->
  truthy (env_findFolder e "Duplicates") = None ->
  fst (fetchMessagesAcrossInboxAndSubfolders inc e s) = Ok (msgs, stats) ->
  0 < duplicateCountOf (emailGroupsOf msgs) ->
  processAndArchiveEmails false inc e s = (o, s') ->
  st_created s' = st_created s /\ In skipDuplicatesLine (st_log s') /\
  (exists new, st_moves s' = st_moves s ++ new /\
     Forall (fun mv => toArchiveFolder e (snd mv)) new) /\
  exists r, o = Ok r /\
    (rr_success r = true -> rr_duplicatesMovedCount r = Some 0) /\
    (rr_success r = false ->
       (rr_error r = Some archiveFolderError /\ truthy (env_distinguished e "archive") = None) \/
       exists t, rr_error r = Some t /\ env_store e = Some t).
Proof.
  intros Hs Hd Hf Hdup H. rewrite processAndArchiveEmails_eq in H by exact Hs.
  set (s0 := set_log [] (set_inProgress true s)) in H.
  destruct (processBody false inc e s0) as [o1 s1] eqn:B.
  assert (Hf0 : fst (fetchMessagesAcrossInboxAndSubfolders inc e s0) = Ok (msgs, stats)).
  { rewrite <- Hf. apply (movesOnly_fetchAll e inc s0 s). reflexivity. }
  destruct (liveBody_dup_absent _ _ _ _ _ _ _ Hd Hf0 Hdup B) as (s4 & Hc4 & Hm4 & Hl4 & A).
  destruct (keeps_archivePhase e inc _ _ _ _ _ _ A) as (Hc & _ & [lrest Hl] & new & Hm & Hnew).
  pose proof (post_archivePhase e inc _ _ _ _ _ _ A) as Hp.
  assert (Hlog : forall l, In skipDuplicatesLine (st_log s1 ++ l)).
  { intros l. apply in_or_app. left. rewrite Hl. apply in_or_app. left. exact Hl4. }
  destruct o1 as [r|t]; injection H as <- <-;
    cbn [st_inProgress st_created st_moves st_log set_log set_inProgress].
  - split; [rewrite Hc, Hc4; reflexivity|].
    split; [rewrite <- (app_nil_r (st_log s1)); apply Hlog|].
    split; [exists new; rewrite Hm, Hm4; split; [reflexivity | exact Hnew]|].
    destruct Hp as (_ & Hfail & Hsucc).
    exists r. split; [reflexivity|]. split.
    + intros T. apply Hsucc, T.
    + intros F. left. apply Hfail, F.
  - split; [rewrite Hc, Hc4; reflexivity|].
    split; [apply Hlog|].
    split; [exists new; rewrite Hm, Hm4; split; [reflexivity | exact Hnew]|].
    eexists. split; [reflexivity|]. split; [cbn; discriminate|].
    intros _. right. exists t. split; [reflexivity|].
    destruct Hp as [Ht _]. exact Ht.
Qed.

Lemma keys_fold_In (p : list Msg) (ks : list string) (k : string) :
  In k (fold_left keyStep p ks) <->
  In k ks \/ (k <> EmptyString /\ exists m, In m p /\ messageId m = k).
Proof.
  revert ks. induction p as [|m p IH]; intros ks; cbn [fold_left].
  - split; [tauto|]. intros [H|(_ & m & [] & _)]. exact H.
  - rewrite IH. unfold keyStep.
    destruct (String.eqb (messageId m) EmptyString) eqn:E0;
      [apply String.eqb_eq in E0 | apply String.eqb_neq in E0].
    + split.
      * intros [H|(Hk & m' & Hm' & Hid)]; [left; exact H|].
        right. split; [exact Hk|]. exists m'. split; [right; exact Hm'|exact Hid].
      * intros [H|(Hk & m' & [<-|Hm'] & Hid)]; [left; exact H| congruence |].
        right. split; [exact Hk|]. exists m'. split; [exact Hm'|exact Hid].
    + assert (Hks : In k (if mem (messageId m) ks then ks else ks ++ [messageId m]) <->
                    In k ks \/ k = messageId m).
      { destruct (mem (messageId m) ks) eqn:Em.
        - apply mem_In in Em. split; [tauto|]. intros [H| ->]; exact H || exact Em.
        - rewrite in_app_iff. cbn. split; intros [H|H]; try tauto.
          + destruct H as [H|[]]. right. congruence.
          + right. left. congruence. }
      rewrite Hks. split.
      * intros [[H| ->]|(Hk & m' & Hm' & Hid)]; [left; exact H| |].
        -- right. split; [exact E0|]. exists m. split; [left|]; reflexivity.
        -- right. split; [exact Hk|]. exists m'. split; [right; exact Hm'|exact Hid].
      * intros [H|(Hk & m' & [<-|Hm'] & Hid)]; [left; left; exact H| left; right; congruence|].
        right. split; [exact Hk|]. exists m'. split; [exact Hm'|exact Hid].
Qed.

Lemma keys_fold_NoDup (p : list Msg) (ks : list string) :
  NoDup ks -> NoDup (fold_left keyStep p ks).
Proof.
  revert ks. induction p as [|m p IH]; intros ks H; cbn [fold_left]; [exact H|].
  apply IH. unfold keyStep.
  destruct (String.eqb (messageId m) EmptyString); [exact H|].
  destruct (mem (messageId m) ks) eqn:Em; [exact H|].
  apply mem_false in Em. apply NoDup_app; [exact H | constructor; [intros []|constructor] |].
  intros x Hx [<-|[]]. exact (Em Hx).
Qed.

Lemma keysOf_In (p : list Msg) (k : string) :
  In k (keysOf p) <-> k <> EmptyString /\ exists m, In m p /\ messageId m = k.
Proof. unfold keysOf. rewrite keys_fold_In. cbn. tauto. Qed.

Lemma keysOf_NoDup (p : list Msg) : NoDup (keysOf p).
Proof. apply keys_fold_NoDup. constructor. Qed.

Lemma group_add_map (K : list string) (F : string -> list Msg) (k0 : string) (m : Msg) :
  NoDup K ->
  group_add k0 m (map (fun k => (k, F k)) K) =
  if mem k0 K then map (fun k => (k, if String.eqb k k0 then F k ++ [m] else F k)) K
  else map (fun k => (k, F k)) K ++ [(k0, [m])].
Proof.
  induction K as [|k1 K IH]; intros ND; [reflexivity|].
  inversion ND as [|? ? Hk1 ND']; subst.
  cbn [map group_add mem existsb].
  destruct (String.eqb k0 k1) eqn:E; cbn [orb].
  - apply String.eqb_eq in E. subst k0. rewrite String.eqb_refl. f_equal.
    apply map_ext_in. intros k Hk.
    destruct (String.eqb k k1) eqn:E'; [apply String.eqb_eq in E'; subst; contradiction|].
    reflexivity.
  - rewrite IH by exact ND'. fold (mem k0 K).
    rewrite String.eqb_sym, E. destruct (mem k0 K); reflexivity.
Qed.

Lemma sameId_nil (k : string) (p : list Msg) :
  ~ In k (keysOf p) -> k <> EmptyString -> sameId k p = [].
Proof.
  intros Hn Hk. unfold sameId.
  destruct (filter _ p) as [|m rest] eqn:E; [reflexivity|].
  exfalso. apply Hn, keysOf_In. split; [exact Hk|].
  assert (Hm : In m (filter (fun m => String.eqb (messageId m) k) p)) by (rewrite E; left; reflexivity).
  apply filter_In in Hm as [Hm Heq]. apply String.eqb_eq in Heq.
  exists m. split; assumption.
Qed.

Lemma groups_prefix (p q : list Msg) :
  fold_left groupStep q (map (fun k => (k, sameId k p)) (keysOf p)) =
  map (fun k => (k, sameId k (p ++ q))) (keysOf (p ++ q)).
Proof.
  revert p. induction q as [|m q IH]; intros p; [rewrite !app_nil_r; reflexivity|].
  cbn [fold_left]. replace (p ++ m :: q) with ((p ++ [m]) ++ q) by (rewrite <- app_assoc; reflexivity).
  rewrite <- IH. f_equal.
  assert (Hsame : forall k, sameId k (p ++ [m]) =
                  sameId k p ++ (if String.eqb (messageId m) k then [m] else [])).
  { intros k. unfold sameId. rewrite filter_app. reflexivity. }
  unfold keysOf at 2. rewrite fold_left_app. fold (keysOf p). cbn [fold_left].
  unfold groupStep, keyStep.
  destruct (String.eqb (messageId m) EmptyString) eqn:E0.
  - apply String.eqb_eq in E0. apply map_ext_in. intros k Hk. rewrite Hsame.
    apply keysOf_In in Hk as [Hk _].
    destruct (String.eqb (messageId m) k) eqn:E; [apply String.eqb_eq in E; congruence|].
    rewrite app_nil_r. reflexivity.
  - apply String.eqb_neq in E0. rewrite group_add_map by apply keysOf_NoDup.
    destruct (mem (messageId m) (keysOf p)) eqn:Em.
    + apply map_ext_in. intros k Hk. rewrite Hsame, (String.eqb_sym k (messageId m)).
      destruct (String.eqb (messageId m) k); [reflexivity|]. rewrite app_nil_r. reflexivity.
    + apply mem_false in Em. rewrite map_app. cbn [map]. f_equal.
      * apply map_ext_in. intros k Hk. rewrite Hsame.
        destruct (String.eqb (messageId m) k) eqn:E; [apply String.eqb_eq in E; subst; contradiction|].
        rewrite app_nil_r. reflexivity.
      * rewrite Hsame, String.eqb_refl, (sameId_nil _ _ Em E0). reflexivity.
Qed.

Lemma emailGroupsOf_eq (messages : list Msg) :
  emailGroupsOf messages = map (fun k => (k, sameId k messages)) (keysOf messages).
Proof. exact (groups_prefix [] messages). Qed.

Lemma movableDuplicates_eq (messages : list Msg) :
  movableDuplicates (emailGroupsOf messages) = movedOf messages.
Proof.
  rewrite emailGroupsOf_eq. unfold movableDuplicates, movedOf.
  induction (keysOf messages) as [|k ks IH]; [reflexivity|].
  cbn [map flat_map snd]. rewrite IH. f_equal.
  destruct (sameId k messages) as [|a [|b r]]; reflexivity.
Qed.

(** Claim C6.  The duplicate groups are the non-empty Message-IDs in order
    of first ingestion, each with all messages carrying it in ingestion
    order; when the Duplicates folder exists, the moves STEP 1 attempts are,
    group after group, exactly the messages of each group after its first
    one, the keeper. *)
Theorem duplicate_keeper_first (messages : list Msg) (e : Env) (d : string) (s s' : St) o :
  truthy (env_findFolder e "Duplicates") = Some d ->
  dedupPhase (emailGroupsOf messages) e s = (o, s') ->
  emailGroupsOf messages = map (fun k => (k, sameId k messages)) (keysOf messages) /\
  NoDup (keysOf messages) /\
  (forall k, In k (keysOf messages) <->
             k <> EmptyString /\ exists m, In m messages /\ messageId m = k) /\
  st_moveCalls s' = st_moveCalls s ++ map (fun m => (id m, d)) (movedOf messages).
Proof.
  intros Hd H. destruct (dedupPhase_found _ _ _ _ _ _ Hd H) as [_ (_ & _ & _ & _ & _ & Hc & _)].
  split; [apply emailGroupsOf_eq|]. split; [apply keysOf_NoDup|].
  split; [apply keysOf_In|]. rewrite Hc, movableDuplicates_eq. reflexivity.
Qed.

(** Claim C6, witness: Scenario B, three messages M1, M2, M3 sharing one
    Message-ID; M2 and M3 are moved. *)
Lemma duplicate_keeper_first_witness :
  truthy (env_findFolder envB "Duplicates") = Some "DUP" /\
  st_moveCalls (snd (dedupPhase (emailGroupsOf [mB "M1"; mB "M2"; mB "M3"]) envB initSt)) =
  [("M2", "DUP"); ("M3", "DUP")].
Proof.
  split; [reflexivity|].
  destruct (dedupPhase (emailGroupsOf [mB "M1"; mB "M2"; mB "M3"]) envB initSt) as [o s'] eqn:E.
  destruct (duplicate_keeper_first _ envB "DUP" initSt s' o eq_refl E) as (_ & _ & _ & Hc).
  cbn [snd]. rewrite Hc. vm_compute. reflexivity.
Defined.


Section TriageProofs.
Variable abortedAt : nat -> bool.
Variable ollama : Msg -> OllamaReply.
Variable folderFor : string -> option string.
Variable moveItem : string -> string -> option string.

Local Abbreviation loop := (triageLoop abortedAt ollama folderFor moveItem).

Lemma triageLoop_step (i : nat) (email : Msg) (rest : list Msg) (total : nat) cache results
    (movedCount : nat) progress :
  abortedAt i = false ->
  exists cache' r movedCount' p,
    t_id r = id email /\
    loop i (email :: rest) total cache results movedCount progress =
    loop (S i) rest total cache' (results ++ [r]) movedCount' (progress ++ [p]).
Proof.
  intros Ha. cbn [triageLoop]. rewrite Ha. cbv zeta.
  destruct (truthy (c_folder (classifySingleEmail (ollama email)))) as [folderName|].
  - match goal with |- context [truthy ?y] => destruct (truthy y) end;
      [destruct (c_error (classifySingleEmail (ollama email)));
       [|match goal with |- context [moveItem ?a ?b] => destruct (moveItem a b) end]|].
    all: do 4 eexists; split; [|reflexivity]; reflexivity.
  - do 4 eexists; split; [|reflexivity]; reflexivity.
Qed.

Lemma triageLoop_abort (k i : nat) (emails : list Msg) (total : nat) cache results
    (movedCount : nat) progress :
  k < length emails ->
  (forall j, i <= j < i + k -> abortedAt j = false) ->
  abortedAt (i + k) = true ->
  let o := loop i emails total cache results movedCount progress in
  o_aborted o = true /\ o_processed o = i + k /\
  (exists new, o_results o = results ++ new /\ map t_id new = map id (firstn k emails)) /\
  length (o_progress o) = length progress + k.
Proof.
  revert k i cache results movedCount progress.
  induction emails as [|email rest IH]; intros k i cache results movedCount progress Hk Hb Ha;
    cbn [length] in Hk; [lia|].
  destruct k as [|k].
  - rewrite Nat.add_0_r in Ha |- *. cbn zeta. cbn [triageLoop]. rewrite Ha. cbn.
    split; [reflexivity|]. split; [reflexivity|].
    split; [exists []; rewrite app_nil_r; split; reflexivity | lia].
  - destruct (triageLoop_step i email rest total cache results movedCount progress)
      as (cache' & r & mc' & p & Hr & E); [apply Hb; lia|].
    cbn zeta. rewrite E.
    destruct (IH k (S i) cache' (results ++ [r]) mc' (progress ++ [p])) as (H1 & H2 & [new [H3 H4]] & H5).
    + lia.
    + intros j Hj. apply Hb. lia.
    + replace (S i + k) with (i + S k) by lia. exact Ha.
    + split; [exact H1|]. split; [rewrite H2; lia|]. split.
      * exists (r :: new). rewrite H3, <- app_assoc. split; [reflexivity|].
        cbn [map firstn]. rewrite Hr, H4. reflexivity.
      * rewrite H5, length_app. cbn [length]. lia.
Qed.

(** Claim C7.  If the abort flag is clear before items 0 to k-1 and set
    before item k, k below the iteration limit, the pipeline stops with
    aborted:true and processed = k; its results are those of the first k
    emails, in order, and it made k progress reports. *)
Theorem classify_abort (emails : list Msg) (maxIterations k : nat) :
  let limit := Nat.min (length emails)
                 (if Nat.eqb maxIterations 0 then DEFAULT_EMAIL_ITERATIONS
                  else maxIterations) in
  k < limit ->
  (forall j, j < k -> abortedAt j = false) ->
  abortedAt k = true ->
  let o := classifyAndMoveEmails abortedAt ollama folderFor moveItem emails maxIterations in
  o_aborted o = true /\ o_processed o = k /\
  map t_id (o_results o) = map id (firstn k emails) /\
  length (o_progress o) = k.
Proof.
  intros limit Hk Hb Ha o. subst o. unfold classifyAndMoveEmails.
  destruct emails as [|email rest]; [cbn in limit; unfold limit in Hk; cbn in Hk; lia|].
  fold limit.
  assert (Hl : k < length (firstn limit (email :: rest))).
  { rewrite length_firstn. unfold limit in *. lia. }
  destruct (triageLoop_abort k 0 (firstn limit (email :: rest)) limit [] [] 0 [] Hl)
    as (H1 & H2 & [new [H3 H4]] & H5).
  - intros j Hj. apply Hb. lia.
  - exact Ha.
  - split; [exact H1|]. split; [exact H2|]. split.
    + rewrite H3. cbn [app]. rewrite H4, firstn_firstn.
      f_equal. f_equal. unfold limit in *. lia.
    + rewrite H5. reflexivity.
Qed.

Lemma cache_get_app_new (k : string) (v : option string) cache :
  cache_get k cache = None -> cache_get k (cache ++ [(k, v)]) = Some v.
Proof.
  induction cache as [|[k' v'] cache IH]; intros H; cbn [app cache_get] in *.
  - rewrite String.eqb_refl. reflexivity.
  - destruct (String.eqb k k'); [discriminate | apply IH, H].
Qed.

End TriageProofs.

(** Claim C1 (a code bug).  [calculatePerFolderLimit] is the claimed
    formula max(MIN, min(MAX, floor(GLOBAL / n))) for every n >= 1, but the
    aggregator never calls it: its per-folder cap is [perFolderMax], 2000
    whatever the folder count.  For 30 folders the formula gives 66, yet a
    run over the inbox and 29 subfolders includes 100 messages from the
    inbox alone. *)
Theorem perFolderLimit_not_applied :
  (forall n, 1 <= n ->
     calculatePerFolderLimit n =
     Nat.max MIN_EMAILS_PER_FOLDER (Nat.min MAX_EMAILS_PER_FOLDER (MAX_EMAILS_TO_PROCESS / n))) /\
  calculatePerFolderLimit 30 = 66 /\
  match fetchMessagesAcrossInboxAndSubfolders true envC1 initSt with
  | (Ok (msgs, stats), _) =>
      length stats = 30 /\ map fs_included stats = 100 :: repeat 0 29 /\ length msgs = 100
  | _ => False
  end.
Proof.
  split; [|split; [reflexivity | vm_compute; repeat split]].
  intros n Hn. unfold calculatePerFolderLimit. cbv zeta.
  replace (Nat.ltb 0 n) with true by (symmetry; apply Nat.ltb_lt; lia).
  assert (Hd : MAX_EMAILS_TO_PROCESS / n <= MAX_EMAILS_PER_FOLDER).
  { apply Nat.Div0.div_le_upper_bound; unfold MAX_EMAILS_TO_PROCESS, MAX_EMAILS_PER_FOLDER; lia. }
  revert Hd. unfold MIN_EMAILS_PER_FOLDER, MAX_EMAILS_PER_FOLDER. lia.
Qed.

Lemma perFolderLimit_not_applied_witness :
  calculatePerFolderLimit 1 = 2000 /\ calculatePerFolderLimit 100 = 50.
Proof.
  destruct perFolderLimit_not_applied as [H _].
  split; rewrite H by lia; reflexivity.
Defined.

(** Claim C2.  A fetched message is selected for archiving iff its
    messageId is non-empty and occurs in the inReplyTo or references list of
    some fetched message; a message with an empty messageId is never
    selected. *)
Theorem selectToArchive_iff (messages : list Msg) (msg : Msg) :
  In msg (selectToArchive messages (repliedTo messages)) <->
  In msg messages /\ messageId msg <> EmptyString /\
  exists r, In r messages /\
            (In (messageId msg) (inReplyTo r) \/ In (messageId msg) (references r)).
Proof.
  unfold selectToArchive. rewrite filter_In.
  destruct (String.eqb (messageId msg) EmptyString) eqn:E.
  - apply String.eqb_eq in E. split; [intros [_ H]; discriminate | intros (_ & H & _); contradiction].
  - apply String.eqb_neq in E. rewrite mem_In, repliedTo_In. tauto.
Qed.




(** Claim C4, witness: a mailbox with a duplicate group, no Duplicates
    folder and an archive folder. *)
Lemma dup_folder_missing_live_run_witness :
  st_inProgress initSt = false /\
  truthy (env_findFolder (envMailbox None (Some "ARCH")) "Duplicates") = None /\
  0 < duplicateCountOf (emailGroupsOf mailboxD) /\
  exists r s', processAndArchiveEmails false false (envMailbox None (Some "ARCH")) initSt = (Ok r, s') /\
    In skipDuplicatesLine (st_log s') /\ st_created s' = [].
Proof.
  split; [reflexivity|]. split; [reflexivity|].
  assert (Hd : 0 < duplicateCountOf (emailGroupsOf mailboxD)) by (apply Nat.ltb_lt; vm_compute; reflexivity).
  split; [exact Hd|].
  destruct (processAndArchiveEmails false false (envMailbox None (Some "ARCH")) initSt) as [o s'] eqn:E.
  destruct (dup_folder_missing_live_run false (envMailbox None (Some "ARCH")) initSt s' o mailboxD [mkFolderStat "Inbox" 3 3 None false]
              eq_refl eq_refl eq_refl Hd E) as (Hc & Hl & _ & r & -> & _).
  exists r, s'. split; [reflexivity|]. split; [exact Hl | exact Hc].
Defined.

(** Claim C4, counterexample: the same mailbox with neither a Duplicates
    nor an archive folder.  The skip is logged, but the run ends with
    success:false and the archive-folder error. *)
Lemma dup_folder_missing_live_run_counterexample :
  duplicateCountOf (emailGroupsOf mailboxD) = 1 /\
  match processAndArchiveEmails false false (envMailbox None None) initSt with
  | (Ok r, s') =>
      rr_success r = false /\ rr_error r = Some archiveFolderError /\
      rr_duplicatesMovedCount r = None /\ In skipDuplicatesLine (st_log s')
  | _ => False
  end.
Proof. vm_compute. repeat split. repeat (first [left; reflexivity | right]). Qed.

(** Claim C5.  A successful run of the aggregator serves a sequence of
    pages (folder by folder, page by page, recorded in the state); the
    messages it returns have pairwise distinct ids, number at most
    MAX_EMAILS_TO_PROCESS, form a prefix of the first-occurrence
    de-duplication of the concatenated pages, and each is the first item of
    that concatenation with its id. *)
Theorem aggregator_unique_ids_capped (inc : bool) (e : Env) (s s' : St) r :
  fetchMessagesAcrossInboxAndSubfolders inc e s = (Ok r, s') ->
  exists pages, st_pages s' = st_pages s ++ pages /\
    NoDup (map id (fst r)) /\
    length (fst r) <= MAX_EMAILS_TO_PROCESS /\
    prefix_of (fst r) (dedup_first [] (concat pages)) /\
    (forall m, In m (fst r) ->
       exists l1 l2, concat pages = l1 ++ m :: l2 /\ Forall (fun x => id x <> id m) l1).
Proof.
  intros H. destruct (fetchAll_spec inc e s s' _ H) as [_ [pages [Hp Hr]]].
  destruct (Hr r eq_refl) as [Hlen Hpre].
  exists pages. split; [exact Hp|]. split; [eapply prefix_NoDup_ids; exact Hpre|].
  split; [exact Hlen|]. split; [exact Hpre|].
  intros m Hm. apply (dedup_first_first []). destruct Hpre as [rest Hrest].
  rewrite <- Hrest. apply in_or_app. left. exact Hm.
Qed.

(** Claim C5, witness: an inbox and a subfolder listing the same items. *)
Lemma aggregator_unique_ids_capped_witness :
  exists r s', fetchMessagesAcrossInboxAndSubfolders true envC5 initSt = (Ok r, s') /\
    NoDup (map id (fst r)) /\ map id (fst r) = ["1"; "2"; "3"].
Proof.
  destruct (fetchMessagesAcrossInboxAndSubfolders true envC5 initSt) as [[r|t] s'] eqn:E.
  - destruct (aggregator_unique_ids_capped true envC5 initSt s' r E) as (_ & _ & Hnd & _).
    exists r, s'. split; [reflexivity|]. split; [exact Hnd|].
    vm_compute in E. injection E as <- _. reflexivity.
  - vm_compute in E. discriminate.
Defined.

(** Claim C7, witness: the flag is set before the third of four items. *)
Lemma classify_abort_witness :
  let o := classifyAndMoveEmails (fun i => Nat.leb 2 i) (fun _ => Parsed true (Some "2-Action") None)
             (fun _ => Some "FID") (fun _ _ => None)
             [mk "a" "<a>" []; mk "b" "<b>" []; mk "c" "<c>" []; mk "d" "<d>" []] 0 in
  o_aborted o = true /\ o_processed o = 2 /\ map t_id (o_results o) = ["a"; "b"].
Proof.
  intros o.
  destruct (classify_abort (fun i => Nat.leb 2 i) (fun _ => Parsed true (Some "2-Action") None)
              (fun _ => Some "FID") (fun _ _ => None)
              [mk "a" "<a>" []; mk "b" "<b>" []; mk "c" "<c>" []; mk "d" "<d>" []] 0 2)
    as (H1 & H2 & H3 & _).
  - vm_compute. lia.
  - intros j Hj. apply Nat.leb_gt. exact Hj.
  - reflexivity.
  - split; [exact H1|]. split; [exact H2|]. exact H3.
Defined.

(** Claim C8.  A call made while a run is in progress returns the failure
    Processing already in progress and leaves the state unchanged (nothing
    fetched or moved); a call made while no run is in progress runs the body
    with the flag set and ends with the flag cleared and a result, also when
    the body throws; the body never changes the flag. *)
Theorem single_flight_guard :
  (forall dry inc e s, st_inProgress s = true ->
     processAndArchiveEmails dry inc e s = (Ok res_busy, s) /\
     rr_success res_busy = false /\
     rr_error res_busy = Some "Processing already in progress") /\
  (forall dry inc e s o s', st_inProgress s = false ->
     processAndArchiveEmails dry inc e s = (o, s') ->
     st_inProgress s' = false /\ (exists r, o = Ok r) /\
     exists o1 s1, processBody dry inc e (set_log [] (set_inProgress true s)) = (o1, s1) /\
                   st_moves s' = st_moves s1 /\ st_created s' = st_created s1) /\
  (forall dry inc e s o s', processBody dry inc e s = (o, s') ->
     st_inProgress s' = st_inProgress s).
Proof.
  split; [|split].
  - intros dry inc e s Hs. split; [apply processAndArchiveEmails_busy, Hs|].
    split; reflexivity.
  - intros dry inc e s o s' Hs H. rewrite processAndArchiveEmails_eq in H by exact Hs.
    destruct (processBody dry inc e _) as [[r|t] s1] eqn:B; injection H as <- <-.
    + split; [reflexivity|]. split; [eexists; reflexivity|].
      do 2 eexists. split; [reflexivity|]. split; reflexivity.
    + split; [reflexivity|]. split; [eexists; reflexivity|].
      do 2 eexists. split; [reflexivity|]. split; reflexivity.
  - intros dry inc e s o s' H.
    destruct (keeps_processBody e dry inc s o s' H) as (_ & Hp & _). exact Hp.
Qed.

(** Claim C8, witness: a busy call and a complete run. *)
Lemma single_flight_guard_witness :
  processAndArchiveEmails false false (envMailbox (Some "DUP") None)
    (set_inProgress true initSt) = (Ok res_busy, set_inProgress true initSt) /\
  st_inProgress (snd (processAndArchiveEmails false false (envMailbox (Some "DUP") None) initSt)) = false.
Proof.
  destruct single_flight_guard as [Hb [Hr _]].
  split; [exact (proj1 (Hb false false (envMailbox (Some "DUP") None) (set_inProgress true initSt) eq_refl))|].
  destruct (processAndArchiveEmails false false (envMailbox (Some "DUP") None) initSt) as [o s'] eqn:E.
  destruct (Hr false false _ initSt o s' eq_refl E) as [Hf _]. exact Hf.
Defined.

(** Claim C9 (a code bug).  Escaping and then decoding is not the identity:
    the text ampersand-hash-39-semicolon escapes to ampersand-amp-semicolon
    followed by hash-39-semicolon, which [htmlDecode] turns into a single
    quote, because the amp entity is decoded before the #39 entity. *)
Theorem htmlDecode_double_decodes :
  htmlEscape "&#39;" = "&amp;#39;" /\
  htmlDecode (htmlEscape "&#39;") = "'" /\
  htmlDecode (htmlEscape "&#39;") <> "&#39;".
Proof.
  split; [reflexivity|]. split; [vm_compute; reflexivity|].
  vm_compute. discriminate.
Qed.



(* ================================================================== *)
(** * Further properties of the code *)

(** ** Message-ID headers *)

Lemma spanNotGt_spec (s b : string) (r : option string) :
  spanNotGt s = (b, r) ->
  ~ In ">"%char (list_ascii_of_string b) /\
  match r with
  | Some after => s = String.append b (String ">" after)
  | None => s = b
  end.
Proof.
  revert b r. induction s as [|c s IH]; intros b r H; cbn in H.
  - inversion H; subst. split; [intros []|reflexivity].
  - destruct (Ascii.eqb c ">"%char) eqn:E.
    + inversion H; subst. apply Ascii.eqb_eq in E. subst.
      split; [intros []|reflexivity].
    + destruct (spanNotGt s) as [b' r'] eqn:S. inversion H; subst.
      destruct (IH b' r eq_refl) as [Hn Hr]. split.
      * cbn. intros [Hc|Hc]; [subst; rewrite Ascii.eqb_refl in E; discriminate | exact (Hn Hc)].
      * destruct r; cbn; rewrite Hr; reflexivity.
Qed.

Lemma spanNotGt_app (b r : string) :
  ~ In ">"%char (list_ascii_of_string b) ->
  spanNotGt (String.append b (String ">" r)) = (b, Some r).
Proof.
  induction b as [|c b IH]; intros H; cbn.
  - reflexivity.
  - destruct (Ascii.eqb c ">"%char) eqn:E.
    + apply Ascii.eqb_eq in E. subst. exfalso. apply H. left. reflexivity.
    + rewrite IH; [reflexivity|]. intros Hc. apply H. right. exact Hc.
Qed.

Lemma length_append (a b : string) :
  String.length (String.append a b) = String.length a + String.length b.
Proof. induction a as [|c a IH]; cbn; [reflexivity | rewrite IH; reflexivity]. Qed.

Lemma matchAt_spec (s m after : string) :
  matchAt s = Some (m, after) ->
  wellFormedId m /\ String.length after < String.length s.
Proof.
  destruct s as [|c s]; cbn; [discriminate|].
  destruct (Ascii.eqb c "<"%char) eqn:E; [|discriminate].
  destruct (spanNotGt s) as [b r] eqn:S.
  destruct b as [|b0 b]; [discriminate|]. destruct r as [r|]; [|discriminate].
  intros H. inversion H; subst. apply spanNotGt_spec in S. destruct S as [Hn Hs].
  split.
  - exists (String b0 b). split; [reflexivity|]. split; [discriminate | exact Hn].
  - rewrite Hs, length_append. cbn. lia.
Qed.

Lemma matchAll_go_fuel (f1 f2 : nat) (s : string) :
  String.length s <= f1 -> String.length s <= f2 ->
  matchAll_go f1 s = matchAll_go f2 s.
Proof.
  revert f2 s. induction f1 as [|f1 IH]; intros f2 s H1 H2.
  - destruct s; [destruct f2; reflexivity | cbn in H1; lia].
  - destruct f2 as [|f2].
    + destruct s; [reflexivity | cbn in H2; lia].
    + destruct s as [|c s']; [reflexivity|]. cbn [matchAll_go].
      destruct (matchAt (String c s')) as [[m after]|] eqn:E.
      * apply matchAt_spec in E. destruct E as [_ HL]. f_equal. apply IH; lia.
      * cbn in H1, H2. apply IH; lia.
Qed.

Lemma matchMessageIds_cons (c : ascii) (s : string) :
  matchMessageIds (String c s) =
  match matchAt (String c s) with
  | Some (m, after) => m :: matchMessageIds after
  | None => matchMessageIds s
  end.
Proof.
  unfold matchMessageIds at 1. cbn [String.length matchAll_go].
  destruct (matchAt (String c s)) as [[m after]|] eqn:E.
  - apply matchAt_spec in E. destruct E as [_ HL]. f_equal. apply matchAll_go_fuel; cbn in HL; lia.
  - reflexivity.
Qed.

Lemma matchAll_go_wf (f : nat) (s m : string) :
  In m (matchAll_go f s) -> wellFormedId m.
Proof.
  revert s. induction f as [|f IH]; intros s H; cbn in H; [contradiction|].
  destruct s as [|c s']; [contradiction|].
  destruct (matchAt (String c s')) as [[m' after]|] eqn:E.
  - destruct H as [H|H].
    + subst. apply matchAt_spec in E. exact (proj1 E).
    + exact (IH _ H).
  - exact (IH _ H).
Qed.

Lemma replace_go_noamp (f : nat) (pat rep s : string) (p' : string) :
  pat = String "&" p' -> ~ In "&"%char (list_ascii_of_string s) ->
  replace_go f pat rep s = s.
Proof.
  intros Hp. subst pat. revert s. induction f as [|f IH]; intros s H; [reflexivity|].
  destruct s as [|c s']; [reflexivity|]. cbn [replace_go].
  replace (String.prefix (String "&" p') (String c s')) with false.
  - rewrite IH; [reflexivity|]. intros Hc. apply H. right. exact Hc.
  - cbn [String.prefix]. destruct (Ascii.ascii_dec "&" c) as [E|E]; [|reflexivity].
    subst. exfalso. apply H. left. reflexivity.
Qed.

Lemma htmlDecode_noamp (s : string) :
  ~ In "&"%char (list_ascii_of_string s) -> htmlDecode s = s.
Proof.
  intros H. destruct s as [|c s']; [reflexivity|].
  change (replace_all "&#39;" "'" (replace_all "&quot;" dquote (replace_all "&amp;" "&"
           (replace_all "&gt;" ">" (replace_all "&lt;" "<" (String c s')))))
          = String c s').
  unfold replace_all.
  rewrite (replace_go_noamp _ "&lt;" _ _ "lt;") by (reflexivity || exact H).
  rewrite (replace_go_noamp _ "&gt;" _ _ "gt;") by (reflexivity || exact H).
  rewrite (replace_go_noamp _ "&amp;" _ _ "amp;") by (reflexivity || exact H).
  rewrite (replace_go_noamp _ "&quot;" _ _ "quot;") by (reflexivity || exact H).
  rewrite (replace_go_noamp _ "&#39;" _ _ "#39;") by (reflexivity || exact H).
  reflexivity.
Qed.

Lemma append_empty_r (a : string) : String.append a EmptyString = a.
Proof. induction a as [|c a IH]; cbn; [reflexivity | rewrite IH; reflexivity]. Qed.

Lemma list_ascii_append (a b : string) :
  list_ascii_of_string (String.append a b) = list_ascii_of_string a ++ list_ascii_of_string b.
Proof. induction a as [|c a IH]; cbn; [reflexivity | rewrite IH; reflexivity]. Qed.

(** The ids joined by single blanks, as a References header lists them. *)
Lemma concat_ids_noamp (ids : list string) :
  Forall (fun m => ~ In "&"%char (list_ascii_of_string m)) ids ->
  ~ In "&"%char (list_ascii_of_string (String.concat " " ids)).
Proof.
  induction ids as [|m ids IH]; intros H; cbn; [intros []|].
  inversion H; subst. destruct ids as [|m2 ids].
  - exact H2.
  - rewrite list_ascii_append. cbn. intros Hc. apply in_app_or in Hc.
    destruct Hc as [Hc|[Hc|Hc]]; [exact (H2 Hc) | discriminate | exact (IH H3 Hc)].
Qed.

Lemma matchMessageIds_wf_app (b r : string) :
  b <> EmptyString -> ~ In ">"%char (list_ascii_of_string b) ->
  matchMessageIds (String.append (String.append "<" (String.append b ">")) r) =
  String.append "<" (String.append b ">") :: matchMessageIds r.
Proof.
  intros Hb Hn. cbn [String.append]. rewrite matchMessageIds_cons.
  cbn [matchAt]. rewrite Ascii.eqb_refl.
  replace (String.append (String.append b ">") r) with (String.append b (String ">" r)).
  - rewrite (spanNotGt_app b r Hn). destruct b as [|b0 b]; [contradiction|]. reflexivity.
  - clear. induction b as [|c b IH]; cbn; [reflexivity | rewrite IH; reflexivity].
Qed.

Lemma matchMessageIds_join (ids : list string) :
  Forall wellFormedId ids -> matchMessageIds (String.concat " " ids) = ids.
Proof.
  induction ids as [|m ids IH]; intros H; [reflexivity|].
  inversion H as [|? ? Hm Hids]; subst. destruct Hm as (b & -> & Hb & Hn).
  destruct ids as [|m2 ids].
  - cbn [String.concat]. rewrite <- (append_empty_r (String.append "<" (String.append b ">"))) at 1.
    rewrite matchMessageIds_wf_app by assumption. reflexivity.
  - change (String.concat " " (String.append "<" (String.append b ">") :: m2 :: ids))
      with (String.append (String.append "<" (String.append b ">"))
              (String.append " " (String.concat " " (m2 :: ids)))).
    rewrite matchMessageIds_wf_app by assumption. f_equal.
    cbn [String.append]. rewrite matchMessageIds_cons. cbn [matchAt].
    rewrite (IH Hids). reflexivity.
Qed.

(** ** Bearer tokens *)

Lemma toLowerCase_append (a b : string) :
  toLowerCase (String.append a b) = String.append (toLowerCase a) (toLowerCase b).
Proof. induction a as [|c a IH]; cbn; [reflexivity | rewrite IH; reflexivity]. Qed.

Lemma prefix_append (a b : string) : String.prefix a (String.append a b) = true.
Proof.
  induction a as [|c a IH]; [destruct b; reflexivity|].
  cbn. destruct (Ascii.ascii_dec c c) as [_|n]; [exact IH | contradiction n; reflexivity].
Qed.

Lemma substring_full (x : string) : substring 0 (String.length x) x = x.
Proof. induction x as [|c x IH]; cbn; [reflexivity | rewrite IH; reflexivity]. Qed.

Lemma substring_after (p x : string) :
  substring (String.length p) (String.length (String.append p x) - String.length p)
    (String.append p x) = x.
Proof.
  rewrite length_append. replace (String.length p + String.length x - String.length p)
    with (String.length x) by lia.
  induction p as [|c p IH]; cbn [String.length String.append substring];
    [apply substring_full | exact IH].
Qed.

Lemma rev_string_append (a b acc : string) :
  rev_string (String.append a b) acc = rev_string b (rev_string a acc).
Proof. revert acc. induction a as [|c a IH]; intros acc; cbn; [reflexivity | apply IH]. Qed.

Lemma rev_string_rev (s a b : string) :
  rev_string (rev_string s a) b = rev_string a (String.append s b).
Proof. revert a b. induction s as [|c s IH]; intros a b; cbn; [reflexivity | rewrite IH; reflexivity]. Qed.

Lemma trimStart_ws (w x : string) :
  forallb is_ws (list_ascii_of_string w) = true ->
  trimStart (String.append w x) = trimStart x.
Proof.
  induction w as [|c w IH]; intros H; cbn in *; [reflexivity|].
  apply andb_prop in H. destruct H as [Hc Hw]. rewrite Hc. exact (IH Hw).
Qed.

Lemma trimStart_rev_ws (w acc : string) :
  forallb is_ws (list_ascii_of_string w) = true ->
  trimStart (rev_string w acc) = trimStart acc.
Proof.
  revert acc. induction w as [|c w IH]; intros acc H; cbn in *; [reflexivity|].
  apply andb_prop in H. destruct H as [Hc Hw]. rewrite (IH _ Hw). cbn. rewrite Hc. reflexivity.
Qed.

Lemma tokenChar_not_ws (c : ascii) : isTokenChar c = true -> is_ws c = false.
Proof. destruct c as [[] [] [] [] [] [] [] []]; vm_compute; congruence. Qed.

Lemma trimStart_nows (x : string) :
  forallb (fun c => negb (is_ws c)) (list_ascii_of_string x) = true -> trimStart x = x.
Proof.
  destruct x as [|c x]; cbn; [reflexivity|]. intros H.
  apply andb_prop in H. destruct H as [Hc _]. destruct (is_ws c); [discriminate | reflexivity].
Qed.

Lemma forallb_rev_string (P : ascii -> bool) (s acc : string) :
  forallb P (list_ascii_of_string (rev_string s acc)) =
  forallb P (list_ascii_of_string s) && forallb P (list_ascii_of_string acc).
Proof.
  revert acc. induction s as [|c s IH]; intros acc; cbn; [reflexivity|].
  rewrite IH. cbn. destruct (P c), (forallb P (list_ascii_of_string s)); reflexivity.
Qed.

Lemma trim_around (w1 t w2 : string) :
  forallb is_ws (list_ascii_of_string w1) = true ->
  forallb is_ws (list_ascii_of_string w2) = true ->
  forallb (fun c => negb (is_ws c)) (list_ascii_of_string t) = true ->
  trim (String.append w1 (String.append t w2)) = t.
Proof.
  intros H1 H2 Ht. unfold trim.
  rewrite (trimStart_ws _ _ H1).
  destruct t as [|c t'] eqn:Et.
  - cbn [String.append]. rewrite <- (append_empty_r w2) at 1.
    rewrite (trimStart_ws w2 EmptyString H2). reflexivity.
  - assert (Hs : trimStart (String.append t w2) = String.append t w2).
    { subst t. cbn in Ht |- *. apply andb_prop in Ht. destruct Ht as [Hc _].
      destruct (is_ws c); [discriminate | reflexivity]. }
    rewrite <- Et in *. rewrite Hs.
    rewrite rev_string_append, (trimStart_rev_ws _ _ H2).
    rewrite trimStart_nows.
    + rewrite rev_string_rev. cbn. apply append_empty_r.
    + rewrite forallb_rev_string. rewrite Ht. reflexivity.
Qed.

Lemma valid_token_nows (t : string) :
  isValidBearerToken t = true ->
  forallb (fun c => negb (is_ws c)) (list_ascii_of_string t) = true.
Proof.
  unfold isValidBearerToken.
  destruct (Nat.eqb (String.length t) 0 || _)%bool; [discriminate|].
  induction (list_ascii_of_string t) as [|c l IH]; cbn; [reflexivity|].
  intros H. apply andb_prop in H. destruct H as [Hc Hl].
  rewrite (tokenChar_not_ws c Hc). exact (IH Hl).
Qed.

Lemma extractBearerToken_valid (h t : string) :
  extractBearerToken h = Some t -> isValidBearerToken t = true.
Proof.
  unfold extractBearerToken. destruct (negb _); [discriminate|].
  destruct (isValidBearerToken _) eqn:E; intros H; inversion H; subst; exact E.
Qed.

(** Parsing the space-separated join of well-formed Message-IDs that
    contain no [&] gives back exactly those Message-IDs, in order. *)
Theorem parseMessageIdHeader_join (ids : list string) :
  Forall wellFormedId ids ->
  Forall (fun m => ~ In "&"%char (list_ascii_of_string m)) ids ->
  parseMessageIdHeader (String.concat " " ids) = ids.
Proof.
  intros Hw Ha. destruct ids as [|m ids]; [reflexivity|].
  assert (Hne : String.concat " " (m :: ids) <> EmptyString).
  { inversion Hw as [|? ? (b & -> & _ & _) _]; subst.
    destruct ids; cbn; discriminate. }
  unfold parseMessageIdHeader.
  destruct (String.concat " " (m :: ids)) as [|c r] eqn:E; [contradiction|].
  rewrite <- E, htmlDecode_noamp by (apply concat_ids_noamp; exact Ha).
  apply matchMessageIds_join. exact Hw.
Qed.

(** A header made of a 7-character prefix that lower-cases to [bearer ],
    whitespace, a valid token and more whitespace yields that token. *)
Theorem extractBearerToken_roundtrip (p w1 t w2 : string) :
  String.length p = 7 -> toLowerCase p = "bearer " ->
  isValidBearerToken t = true ->
  forallb is_ws (list_ascii_of_string w1) = true ->
  forallb is_ws (list_ascii_of_string w2) = true ->
  extractBearerToken (String.append p (String.append w1 (String.append t w2))) = Some t.
Proof.
  intros Hl Hp Ht H1 H2. unfold extractBearerToken.
  rewrite toLowerCase_append, Hp, prefix_append. cbn [negb].
  rewrite <- Hl, substring_after, trim_around by (assumption || apply valid_token_nows; assumption).
  rewrite Ht. reflexivity.
Qed.

Lemma extractBearerToken_roundtrip_witness :
  String.length "BeArEr " = 7 /\ toLowerCase "BeArEr " = "bearer " /\
  isValidBearerToken "eyJ0.abc-_9" = true /\
  extractBearerToken (String.append "BeArEr " (String.append "  " (String.append "eyJ0.abc-_9" " "))) =
    Some "eyJ0.abc-_9".
Proof.
  split; [reflexivity|]. split; [reflexivity|]. split; [vm_compute; reflexivity|].
  apply extractBearerToken_roundtrip; vm_compute; reflexivity.
Defined.

Lemma parseMessageIdHeader_join_witness :
  parseMessageIdHeader (String.concat " " ["<a@x>"; "<b<c@y>"]) = ["<a@x>"; "<b<c@y>"].
Proof.
  apply parseMessageIdHeader_join.
  - repeat constructor.
    + exists "a@x". split; [reflexivity|]. split; [discriminate|]. cbn. intuition discriminate.
    + exists "b<c@y". split; [reflexivity|]. split; [discriminate|]. cbn. intuition discriminate.
  - repeat constructor; cbn; intuition discriminate.
Defined.

(** ** Captured tokens *)

Lemma storeTokenList_shape (now : Z) (td : TokenData) (l : list TokenRec) :
  exists l2,
    storeTokenList now td l = firstn MAX_TOKENS_STORED l2 /\
    l2 = filter (fun t => Z.ltb (now - tk_timestamp t) TOKEN_EXPIRY_MS)
           (if existsb (fun t => String.eqb (tk_token t) (td_token td)) l
            then bumpFirst td l else newTokenRec td :: l).
Proof.
  eexists. split; [|reflexivity]. unfold storeTokenList.
  destruct (Nat.ltb MAX_TOKENS_STORED _) eqn:E; [reflexivity|].
  apply Nat.ltb_ge in E. symmetry. apply firstn_all2. exact E.
Qed.

Lemma bumpFirst_tokens (td : TokenData) (l : list TokenRec) :
  map tk_token (bumpFirst td l) = map tk_token l.
Proof.
  induction l as [|t l IH]; cbn; [reflexivity|].
  destruct (String.eqb (tk_token t) (td_token td)); cbn; [reflexivity | rewrite IH; reflexivity].
Qed.

Lemma NoDup_map_filter {A B} (f : A -> B) (P : A -> bool) (l : list A) :
  NoDup (map f l) -> NoDup (map f (filter P l)).
Proof.
  induction l as [|x l IH]; cbn; intros H; [constructor|].
  inversion H; subst. destruct (P x); [|apply IH; assumption].
  cbn. constructor; [|apply IH; assumption].
  intros Hin. apply H2. apply in_map_iff in Hin. destruct Hin as (y & Hy & Hyin).
  apply filter_In in Hyin. rewrite <- Hy. apply in_map. apply Hyin.
Qed.

Lemma NoDup_map_firstn {A B} (f : A -> B) (n : nat) (l : list A) :
  NoDup (map f l) -> NoDup (map f (firstn n l)).
Proof.
  revert l. induction n as [|n IH]; intros l H; [constructor|].
  destruct l as [|x l]; cbn; [constructor|]. inversion H; subst. constructor.
  - intros Hin. apply H2. rewrite <- (firstn_skipn n l), map_app. apply in_or_app. left. exact Hin.
  - apply IH. assumption.
Qed.

Lemma Forall_bumpFirst (P : string -> Prop) (td : TokenData) (l : list TokenRec) :
  Forall (fun t => P (tk_token t)) l -> Forall (fun t => P (tk_token t)) (bumpFirst td l).
Proof.
  induction l as [|t l IH]; cbn; intros H; [constructor|]. inversion H; subst.
  destruct (String.eqb (tk_token t) (td_token td)); constructor; auto.
Qed.

Lemma storeTokenList_inv (now : Z) (td : TokenData) (l : list TokenRec) :
  isValidBearerToken (td_token td) = true ->
  Forall (fun t => isValidBearerToken (tk_token t) = true) l ->
  NoDup (map tk_token l) ->
  Forall (fun t => isValidBearerToken (tk_token t) = true) (storeTokenList now td l) /\
  NoDup (map tk_token (storeTokenList now td l)) /\
  length (storeTokenList now td l) <= MAX_TOKENS_STORED.
Proof.
  intros Hv Hf Hn. destruct (storeTokenList_shape now td l) as (l2 & -> & E).
  assert (H1 : Forall (fun t => isValidBearerToken (tk_token t) = true) l2 /\ NoDup (map tk_token l2)).
  { subst l2. destruct (existsb _ l) eqn:Ex.
    - split.
      + apply Forall_forall. intros x Hx. apply filter_In in Hx.
        apply (proj1 (Forall_forall _ _) (Forall_bumpFirst (fun t => isValidBearerToken t = true) td l Hf)).
        apply Hx.
      + apply NoDup_map_filter. rewrite bumpFirst_tokens. exact Hn.
    - split.
      + apply Forall_forall. intros x Hx. apply filter_In in Hx. destruct Hx as [[<-|Hx] _].
        * exact Hv.
        * exact (proj1 (Forall_forall _ _) Hf x Hx).
      + apply NoDup_map_filter. cbn. constructor; [|exact Hn].
        intros Hin. apply in_map_iff in Hin. destruct Hin as (y & Hy & Hyin).
        assert (existsb (fun t => String.eqb (tk_token t) (td_token td)) l = true).
        { apply existsb_exists. exists y. split; [exact Hyin|]. rewrite Hy. apply String.eqb_refl. }
        congruence. }
  destruct H1 as [H1 H2]. split; [|split].
  - apply Forall_forall. intros x Hx. apply (proj1 (Forall_forall _ _) H1).
    rewrite <- (firstn_skipn MAX_TOKENS_STORED l2). apply in_or_app. left. exact Hx.
  - apply NoDup_map_firstn. exact H2.
  - rewrite length_firstn. lia.
Qed.

Lemma storeToken_inv (ok : bool) (now : Z) (td : TokenData) (stored : option (list TokenRec)) :
  isValidBearerToken (td_token td) = true ->
  match stored with
  | None => True
  | Some l => Forall (fun t => isValidBearerToken (tk_token t) = true) l /\
              NoDup (map tk_token l) /\ length l <= MAX_TOKENS_STORED
  end ->
  match storeToken ok now td stored with
  | None => True
  | Some l => Forall (fun t => isValidBearerToken (tk_token t) = true) l /\
              NoDup (map tk_token l) /\ length l <= MAX_TOKENS_STORED
  end.
Proof.
  intros Hv Hs. unfold storeToken. destruct ok; [|exact Hs].
  apply storeTokenList_inv; [exact Hv| |]; destruct stored as [l|];
    try (apply Hs); try constructor.
Qed.

Lemma map_set_keys {V} (k : string) (v : V) (m : list (string * V)) :
  forall x, In x (map fst (map_set k v m)) <-> In x (map fst m) \/ x = k.
Proof.
  induction m as [|[k' v'] m IH]; intros x; cbn.
  - intuition.
  - destruct (String.eqb k k') eqn:E.
    + apply String.eqb_eq in E. subst. cbn. intuition.
    + cbn. rewrite IH. intuition.
Qed.

Lemma map_set_inv (k : string) (td : TokenData) (m : list (string * TokenData)) :
  isValidBearerToken k = true -> td_token td = k ->
  Forall (fun kv => isValidBearerToken (fst kv) = true /\ td_token (snd kv) = fst kv) m ->
  NoDup (map fst m) ->
  Forall (fun kv => isValidBearerToken (fst kv) = true /\ td_token (snd kv) = fst kv) (map_set k td m) /\
  NoDup (map fst (map_set k td m)).
Proof.
  intros Hv Ht. subst k. induction m as [|[k' v'] m IH]; intros Hf Hn; cbn.
  - split; [constructor; [split; [exact Hv|reflexivity] | constructor] | constructor; [intros [] | constructor]].
  - apply Forall_cons_iff in Hf. destruct Hf as [Hk Hf']. apply NoDup_cons_iff in Hn.
    destruct Hn as [Hnot Hn']. cbn [fst snd] in Hk.
    destruct (String.eqb (td_token td) k') eqn:E.
    + apply String.eqb_eq in E. rewrite <- E in *. cbn.
      split; [constructor; [split; [exact Hv|reflexivity]|exact Hf'] |].
      constructor; assumption.
    + destruct (IH Hf' Hn') as [IH1 IH2]. split; [constructor; [exact Hk | exact IH1]|].
      cbn. constructor; [|exact IH2].
      rewrite map_set_keys. intros [H|H]; [exact (Hnot H)|]. rewrite H, String.eqb_refl in E. discriminate.
Qed.

Lemma onBeforeSendHeaders_inv (now : Z) (d : Details) (pending : list (string * TokenData)) :
  Forall (fun kv => isValidBearerToken (fst kv) = true /\ td_token (snd kv) = fst kv) pending ->
  NoDup (map fst pending) ->
  let p := onBeforeSendHeaders now d pending in
  Forall (fun kv => isValidBearerToken (fst kv) = true /\ td_token (snd kv) = fst kv) p /\
  NoDup (map fst p).
Proof.
  unfold onBeforeSendHeaders. destruct (d_requestHeaders d) as [hs|]; [|tauto].
  revert pending. induction hs as [|h hs IH]; intros pending Hf Hn; cbn; [tauto|].
  apply IH.
  - destruct (_ && _)%bool; [|exact Hf].
    destruct (extractBearerToken (h_value h)) as [tok|] eqn:E; [|exact Hf].
    apply map_set_inv; [eapply extractBearerToken_valid; exact E | reflexivity | exact Hf | exact Hn].
  - destruct (_ && _)%bool; [|exact Hn].
    destruct (extractBearerToken (h_value h)) as [tok|] eqn:E; [|exact Hn].
    apply map_set_inv; [eapply extractBearerToken_valid; exact E | reflexivity | exact Hf | exact Hn].
Qed.

Lemma storeAll_inv (okAt : nat -> bool) (nowAt : nat -> Z) (i : nat) (tds : list TokenData)
    (stored : option (list TokenRec)) :
  Forall (fun td => isValidBearerToken (td_token td) = true) tds ->
  match stored with
  | None => True
  | Some l => Forall (fun t => isValidBearerToken (tk_token t) = true) l /\
              NoDup (map tk_token l) /\ length l <= MAX_TOKENS_STORED
  end ->
  match storeAll okAt nowAt i tds stored with
  | None => True
  | Some l => Forall (fun t => isValidBearerToken (tk_token t) = true) l /\
              NoDup (map tk_token l) /\ length l <= MAX_TOKENS_STORED
  end.
Proof.
  revert i stored. induction tds as [|td tds IH]; intros i stored Hf Hs; cbn; [exact Hs|].
  inversion Hf; subst. apply IH; [assumption|]. apply storeToken_inv; assumption.
Qed.

Lemma tokenStep_inv (st : TokenSt) (ev : TokenEvent) :
  TokenInv st -> TokenInv (tokenStep st ev).
Proof.
  intros (Hf & Hn & Hs). destruct ev as [now d|okAt nowAt|ok]; unfold TokenInv; cbn.
  - destruct (onBeforeSendHeaders_inv now d _ Hf Hn) as [H1 H2]. tauto.
  - unfold flushPendingTokens. destruct (ts_pending st) as [|kv p] eqn:Ep;
      cbn [fst snd ts_pending ts_stored].
    + split; [constructor|]. split; [constructor|exact Hs].
    + split; [constructor|]. split; [constructor|]. apply storeAll_inv; [|exact Hs].
      apply Forall_map. apply Forall_forall. intros x Hx.
      destruct (proj1 (Forall_forall _ _) Hf x Hx) as [Hv Ht]. rewrite Ht. exact Hv.
  - split; [exact Hf|]. split; [exact Hn|]. destruct ok; [|exact Hs].
    split; [constructor|]. split; [constructor|]. cbn. lia.
Qed.

Lemma bumpFirst_In (td : TokenData) (l : list TokenRec) (r x : TokenRec) :
  NoDup (map tk_token l) -> In r l -> tk_token r = td_token td ->
  In x (bumpFirst td l) -> tk_token x = td_token td -> x = bumpToken (td_timestamp td) r.
Proof.
  induction l as [|t l IH]; intros Hn Hr Htr Hx Htx; [destruct Hr|].
  apply NoDup_cons_iff in Hn. destruct Hn as [Hnot Hn]. cbn in Hx.
  destruct (String.eqb (tk_token t) (td_token td)) eqn:E.
  - apply String.eqb_eq in E. destruct Hr as [<-|Hr].
    + destruct Hx as [<-|Hx]; [reflexivity|].
      exfalso. apply Hnot. rewrite E, <- Htx. apply in_map. exact Hx.
    + exfalso. apply Hnot. rewrite E, <- Htr. apply in_map. exact Hr.
  - destruct Hr as [<-|Hr]; [rewrite Htr, String.eqb_refl in E; discriminate|].
    destruct Hx as [<-|Hx]; [rewrite Htx, String.eqb_refl in E; discriminate|].
    exact (IH Hn Hr Htr Hx Htx).
Qed.

Lemma storeTokenList_In (now : Z) (td : TokenData) (l : list TokenRec) (x : TokenRec) :
  In x (storeTokenList now td l) ->
  (now - tk_timestamp x < TOKEN_EXPIRY_MS)%Z /\
  In x (if existsb (fun t => String.eqb (tk_token t) (td_token td)) l
        then bumpFirst td l else newTokenRec td :: l).
Proof.
  destruct (storeTokenList_shape now td l) as (l2 & -> & E). intros Hx.
  assert (Hx2 : In x l2).
  { rewrite <- (firstn_skipn MAX_TOKENS_STORED l2). apply in_or_app. left. exact Hx. }
  subst l2. apply filter_In in Hx2. destruct Hx2 as [H1 H2]. apply Z.ltb_lt in H2. tauto.
Qed.

(** A token not stored yet and not expired is written first, as a new
    entry with count 1 and [lastSeen] equal to its timestamp. *)
Theorem storeTokenList_new_first (now : Z) (td : TokenData) (l : list TokenRec) :
  ~ In (td_token td) (map tk_token l) ->
  (now - td_timestamp td < TOKEN_EXPIRY_MS)%Z ->
  hd_error (storeTokenList now td l) = Some (newTokenRec td).
Proof.
  intros Hn Hf. destruct (storeTokenList_shape now td l) as (l2 & -> & E).
  replace (existsb (fun t => String.eqb (tk_token t) (td_token td)) l) with false in E.
  - subst l2. cbn [filter]. replace (Z.ltb (now - tk_timestamp (newTokenRec td)) TOKEN_EXPIRY_MS)
      with true by (symmetry; apply Z.ltb_lt; exact Hf). reflexivity.
  - symmetry. apply Bool.not_true_iff_false. intros Hex. apply existsb_exists in Hex.
    destruct Hex as (y & Hy & Heq). apply String.eqb_eq in Heq. apply Hn. rewrite <- Heq.
    apply in_map. exact Hy.
Qed.

Lemma storeTokenList_new_first_witness :
  ~ In "tok" (map tk_token []) /\ (0 - 5 < TOKEN_EXPIRY_MS)%Z /\
  hd_error (storeTokenList 0 (mkTokenData "tok" "u" "outlook.office.com" "GET" 5 1) []) =
    Some (newTokenRec (mkTokenData "tok" "u" "outlook.office.com" "GET" 5 1)).
Proof.
  split; [intros []|]. split; [vm_compute; reflexivity|].
  apply (storeTokenList_new_first 0 (mkTokenData "tok" "u" "outlook.office.com" "GET" 5 1) []);
    [intros [] | vm_compute; reflexivity].
Defined.

(** When the stored tokens are distinct and one of them is captured
    again, the only entry for that token that [storeToken] writes is the
    old one with [lastSeen] and [count] updated; if the old entry is
    expired by its first capture time, the token is dropped. *)
Theorem storeTokenList_seen (now : Z) (td : TokenData) (l : list TokenRec) (r : TokenRec) :
  NoDup (map tk_token l) -> In r l -> tk_token r = td_token td ->
  (forall x, In x (storeTokenList now td l) -> tk_token x = td_token td ->
     x = bumpToken (td_timestamp td) r) /\
  ((TOKEN_EXPIRY_MS <= now - tk_timestamp r)%Z ->
     forall x, In x (storeTokenList now td l) -> tk_token x <> td_token td).
Proof.
  intros Hn Hr Htr.
  assert (Hex : existsb (fun t => String.eqb (tk_token t) (td_token td)) l = true).
  { apply existsb_exists. exists r. split; [exact Hr|]. rewrite Htr. apply String.eqb_refl. }
  assert (A : forall x, In x (storeTokenList now td l) -> tk_token x = td_token td ->
                x = bumpToken (td_timestamp td) r).
  { intros x Hx Htx. destruct (storeTokenList_In now td l x Hx) as [_ Hin].
    rewrite Hex in Hin. exact (bumpFirst_In td l r x Hn Hr Htr Hin Htx). }
  split; [exact A|]. intros Hold x Hx Htx.
  pose proof (A x Hx Htx) as Ex. destruct (storeTokenList_In now td l x Hx) as [Hf _].
  rewrite Ex in Hf. cbn [bumpToken tk_timestamp] in Hf. lia.
Qed.

Lemma storeTokenList_seen_witness :
  let r := mkTokenRec "tok" "u" "outlook.office.com" "GET" 0 1 3 0 in
  NoDup (map tk_token [r]) /\ In r [r] /\ tk_token r = "tok" /\
  storeTokenList TOKEN_EXPIRY_MS (mkTokenData "tok" "u" "outlook.office.com" "GET" TOKEN_EXPIRY_MS 1) [r] = [] /\
  (forall x, In x (storeTokenList 10 (mkTokenData "tok" "u" "outlook.office.com" "GET" 10 1) [r]) ->
     tk_token x = "tok" -> x = bumpToken 10 r).
Proof.
  intros r. split; [repeat constructor; intros []|]. split; [left; reflexivity|].
  split; [reflexivity|]. split; [vm_compute; reflexivity|].
  apply (storeTokenList_seen 10 (mkTokenData "tok" "u" "outlook.office.com" "GET" 10 1) [r] r);
    [repeat constructor; intros [] | left; reflexivity | reflexivity].
Defined.

(** Across any sequence of captured requests, debounced flushes and
    [clearTokens] messages, pending tokens stay valid, keyed by their own
    token and distinct, and the stored list stays valid, distinct and at
    most [MAX_TOKENS_STORED] long. *)
Theorem token_store_invariant (evs : list TokenEvent) (st : TokenSt) :
  TokenInv st -> TokenInv (runTokenEvents evs st).
Proof.
  unfold runTokenEvents. revert st. induction evs as [|ev evs IH]; intros st H; cbn; [exact H|].
  apply IH. apply tokenStep_inv. exact H.
Qed.

Lemma token_store_invariant_witness :
  let evs := [Capture 5 (mkDetails "https://outlook.office.com/x" "outlook.office.com" "GET" 1
                 (Some [mkHeader "Authorization" "Bearer abc.DEF-1"; mkHeader "Accept" "x"]));
              FlushTokens (fun _ => true) (fun _ => 6%Z)] in
  TokenInv (mkTokenSt [] None) /\
  ts_stored (runTokenEvents evs (mkTokenSt [] None)) =
    Some [mkTokenRec "abc.DEF-1" "https://outlook.office.com/x" "outlook.office.com" "GET" 5 1 1 5] /\
  TokenInv (runTokenEvents evs (mkTokenSt [] None)).
Proof.
  intros evs. assert (H0 : TokenInv (mkTokenSt [] None)).
  { split; [constructor|]. split; [constructor|exact I]. }
  split; [exact H0|]. split; [vm_compute; reflexivity|].
  exact (token_store_invariant evs (mkTokenSt [] None) H0).
Defined.

Lemma insert_str_perm (x : string) (l : list string) :
  Permutation (insert_str x l) (x :: l).
Proof.
  induction l as [|y l IH]; cbn [insert_str]; [auto|].
  destruct (String.leb x y); [auto|].
  eapply perm_trans; [apply perm_skip, IH | apply perm_swap].
Qed.

Lemma sort_strings_perm (l : list string) : Permutation (sort_strings l) l.
Proof.
  induction l as [|x l IH]; cbn [sort_strings fold_right]; [auto|].
  eapply perm_trans; [apply insert_str_perm | apply perm_skip, IH].
Qed.

Lemma insert_str_sorted (x : string) (l : list string) :
  Sorted (fun a b => String.leb a b = true) l ->
  Sorted (fun a b => String.leb a b = true) (insert_str x l).
Proof.
  induction 1 as [|y l Hs IH Hh]; cbn [insert_str]; [auto|].
  destruct (String.leb x y) eqn:Exy; [auto|].
  assert (Hyx : String.leb y x = true).
  { destruct (String.leb_total x y) as [H|H]; [congruence | exact H]. }
  constructor; [exact IH|].
  destruct l as [|z l]; cbn [insert_str]; [auto|].
  inversion Hh; subst.
  destruct (String.leb x z); auto.
Qed.

Lemma sort_strings_sorted (l : list string) :
  Sorted (fun a b => String.leb a b = true) (sort_strings l).
Proof.
  induction l as [|x l IH]; cbn [sort_strings fold_right]; [auto|].
  apply insert_str_sorted, IH.
Qed.

Lemma modelNames_nonempty (names : option (list (option string))) (s : string) :
  In s (modelNames names) -> s <> EmptyString.
Proof.
  unfold modelNames. rewrite in_flat_map. intros [[n|] [_ Hn]]; [|destruct Hn].
  destruct (String.eqb_spec n EmptyString); [destruct Hn|].
  destruct Hn as [<-|[]]. exact n0.
Qed.

Lemma checkOllamaStatus_nonempty (r : TagsReply) (a : string) :
  a <> EmptyString -> snd (checkOllamaStatus r a) <> EmptyString.
Proof.
  intros Ha. destruct r as [ab msg|st|names]; cbn [checkOllamaStatus snd]; auto.
  destruct (sort_strings (modelNames names)) as [|m0 ms] eqn:Es; [exact Ha|].
  destruct (mem a (m0 :: ms)); [exact Ha|].
  apply (modelNames_nonempty names).
  apply (Permutation_in _ (sort_strings_perm _)). rewrite Es. left. reflexivity.
Qed.

Lemma modelStep_nonempty (a : string) (ev : ModelEvent) :
  a <> EmptyString -> modelStep a ev <> EmptyString.
Proof.
  intros Ha. destruct ev as [r|[m|]|[sv|]]; cbn [modelStep].
  - apply checkOllamaStatus_nonempty, Ha.
  - cbn [setOllamaModel snd].
    destruct (String.eqb_spec (trim m) EmptyString); cbn [negb snd]; assumption.
  - exact Ha.
  - cbn [loadSavedModel]. destruct (String.eqb_spec sv EmptyString); assumption.
  - exact Ha.
Qed.

Lemma runModelEvents_nonempty (evs : list ModelEvent) (a : string) :
  a <> EmptyString -> runModelEvents evs a <> EmptyString.
Proof.
  unfold runModelEvents. revert a.
  induction evs as [|ev evs IH]; intros a Ha; cbn [fold_left]; auto.
  apply IH, modelStep_nonempty, Ha.
Qed.

Lemma movePlanItems_spec (fid : string) (items : list PlanItem)
    (sc ec : nat) (log : list string) (e : Env) (s s' : St) o :
  movePlanItems fid items sc ec log e s = (o, s') ->
  exists sc' ec' log',
    o = Ok (sc', ec', log') /\
    sc' = sc + length (filter (plan_ok e fid) items) /\
    sc' + ec' = sc + ec + length items /\
    st_moveCalls s' = st_moveCalls s ++ map (fun i => (pi_id i, fid)) items /\
    st_moves s' = st_moves s ++ map (fun i => (pi_id i, fid)) (filter (plan_ok e fid) items) /\
    st_created s' = st_created s /\ st_log s' = st_log s /\
    st_stored s' = st_stored s /\ st_inProgress s' = st_inProgress s /\
    st_pages s' = st_pages s.
Proof.
  revert sc ec log s. induction items as [|i items IH]; intros sc ec log s H;
    cbn [movePlanItems] in H.
  - unfold ret in H. injection H as <- <-.
    exists sc, ec, log. cbn [filter length map]. rewrite !app_nil_r.
    repeat split; lia.
  - rewrite bind_eq, attempt_moveToFolder in H.
    assert (Hok : plan_ok e fid i =
                  match env_move e (pi_id i) fid with None => true | Some _ => false end)
      by reflexivity.
    cbn [filter]. rewrite Hok.
    destruct (env_move e (pi_id i) fid) eqn:Em;
      cbn beta iota in H |- *;
      destruct (IH _ _ _ _ H) as (sc' & ec' & log' & Ho & H1 & H2 & H3 & H4 & H5 & H6 & H7 & H8 & H9);
      exists sc', ec', log'; cbn [add_move st_moveCalls st_moves st_created st_log
                                  st_stored st_inProgress st_pages] in *;
      rewrite <- ?app_assoc in H3; rewrite <- ?app_assoc in H4;
      cbn [app] in H3, H4;
      repeat split; try assumption; cbn [length map app]; lia.
Qed.

Lemma findOrCreateFolder_spec (t : string) (e : Env) (s s1 : St) o :
  findOrCreateFolder t e s = (o, s1) ->
  st_moveCalls s1 = st_moveCalls s /\ st_moves s1 = st_moves s /\
  forall fid, o = Ok fid ->
    env_findFolder e t = Some fid \/ env_createFolder e t = Some fid.
Proof.
  unfold findOrCreateFolder, findFolderByName, createFolder.
  cbv [bind ask get put ret throw].
  destruct (env_findFolder e t) as [f1|] eqn:E1.
  - intros H. injection H as <- <-. repeat split; auto.
    intros fid Hf. injection Hf as <-. rewrite ?E1; auto.
  - destruct (env_createFolder e t) as [f2|] eqn:E2; intros H.
    + injection H as <- <-. repeat split; auto.
      intros fid Hf. injection Hf as <-. rewrite ?E2; auto.
    + rewrite E1 in H. injection H as <- <-. repeat split; auto.
      intros fid Hf. discriminate Hf.
Qed.

Lemma truthy_some (o : option string) (fid : string) :
  truthy o = Some fid -> o = Some fid /\ fid <> EmptyString.
Proof.
  destruct o as [f|]; cbn [truthy]; [|discriminate].
  destruct (String.eqb_spec f EmptyString); [discriminate|].
  intros H. injection H as <-. auto.
Qed.

Lemma planFolder_spec (plan : Plan) (e : Env) (s s1 : St) r :
  attempt (if String.eqb (pl_action plan) "archive"
           then getFolderId "archive" true
           else fid <- findOrCreateFolder (pl_targetFolder plan) ;; ret (Some fid)) e s
    = (r, s1) ->
  exists x, r = Ok x /\ st_moveCalls s1 = st_moveCalls s /\ st_moves s1 = st_moves s /\
    forall fo, x = Ok fo -> forall fid, truthy fo = Some fid ->
      fid <> EmptyString /\
      if String.eqb (pl_action plan) "archive"
      then env_distinguished e "archive" = Some fid
      else env_findFolder e (pl_targetFolder plan) = Some fid \/
           env_createFolder e (pl_targetFolder plan) = Some fid.
Proof.
  destruct (String.eqb (pl_action plan) "archive").
  - cbv [attempt catch bind getFolderId ask ret]. intros H. injection H as <- <-.
    eexists. split; [reflexivity|]. split; [auto|]. split; [auto|].
    intros fo Hfo fid Ht. injection Hfo as Hfo. subst fo.
    destruct (truthy_some _ _ Ht) as [-> Hne]. auto.
  - cbv [attempt catch]. rewrite bind_eq, bind_eq.
    destruct (findOrCreateFolder (pl_targetFolder plan) e s) as [o1 s2] eqn:Ef.
    destruct (findOrCreateFolder_spec _ _ _ _ _ Ef) as (Hc & Hm & Hid).
    destruct o1 as [fid0|t]; cbv [ret]; intros H; injection H as <- <-.
    + eexists. split; [reflexivity|]. split; [auto|]. split; [auto|].
      intros fo Hfo fid Ht. injection Hfo as Hfo. subst fo.
      destruct (truthy_some _ _ Ht) as [Hs Hne]. injection Hs as ->.
      split; [exact Hne | apply Hid; reflexivity].
    + eexists. split; [reflexivity|]. split; [auto|]. split; [auto|].
      intros fo Hfo. discriminate Hfo.
Qed.


(** The active Ollama model is never empty: starting from
    [DEFAULT_OLLAMA_MODEL], no sequence of status checks, [setOllamaModel]
    messages and startup loads of the saved model sets
    [activeOllamaModel] to the empty string. *)
Theorem activeOllamaModel_nonempty (evs : list ModelEvent) :
  runModelEvents evs DEFAULT_OLLAMA_MODEL <> EmptyString.
Proof. apply runModelEvents_nonempty. discriminate. Qed.

(** A successful [checkOllamaStatus] reports the non-empty model names
    sorted in ascending order and reports as active model the new value of
    [activeOllamaModel]; that value is one of the listed models whenever
    the list is non-empty, and it is the previous active model when that
    one is listed or the list is empty. *)
Theorem checkOllamaStatus_body (names : option (list (option string))) (a : string) :
  let r := checkOllamaStatus (TagsBody names) a in
  os_available (fst r) = true /\ os_activeModel (fst r) = Some (snd r) /\
  Permutation (os_models (fst r)) (modelNames names) /\
  Forall (fun m => m <> EmptyString) (os_models (fst r)) /\
  Sorted (fun x y => String.leb x y = true) (os_models (fst r)) /\
  (os_models (fst r) <> [] -> In (snd r) (os_models (fst r))) /\
  (In a (os_models (fst r)) \/ os_models (fst r) = [] -> snd r = a).
Proof.
  cbn [checkOllamaStatus fst snd os_available os_activeModel os_models].
  pose proof (sort_strings_perm (modelNames names)) as Hp.
  pose proof (sort_strings_sorted (modelNames names)) as Hs.
  destruct (sort_strings (modelNames names)) as [|m0 ms] eqn:Es.
  - repeat split; auto. intros []; reflexivity.
  - repeat split; auto.
    + apply Forall_forall. intros m Hm.
      apply (modelNames_nonempty names), (Permutation_in _ Hp), Hm.
    + intros _. destruct (mem a (m0 :: ms)) eqn:Em.
      * apply mem_In, Em.
      * left. reflexivity.
    + intros [Ha|Ha]; [|discriminate Ha].
      apply mem_In in Ha. rewrite Ha. reflexivity.
Qed.

(** [executeAIPlan] never throws.  When it reports failure (no plan, no
    items, a folder error or no folder id) it leaves [pendingPlan] as it
    was and makes no move call.  When it reports success it clears
    [pendingPlan]: the folder id is non-empty and comes from the archive
    lookup or from [findOrCreateFolder], every item gets exactly one move
    call to it, in order, [movedCount] is the number of moves that
    succeeded and [movedCount + errorCount] is the number of items. *)
Theorem executeAIPlan_outcome (pp : option Plan) (e : Env) (s s' : St) o :
  executeAIPlan pp e s = (o, s') ->
  exists res pp', o = Ok (res, pp') /\
    (pr_success res = false ->
       pp' = pp /\ st_moveCalls s' = st_moveCalls s /\ st_moves s' = st_moves s) /\
    (pr_success res = true ->
       pp' = None /\
       exists plan items fid,
         pp = Some plan /\ pl_items plan = Some items /\ fid <> EmptyString /\
         (if String.eqb (pl_action plan) "archive"
          then env_distinguished e "archive" = Some fid
          else env_findFolder e (pl_targetFolder plan) = Some fid \/
               env_createFolder e (pl_targetFolder plan) = Some fid) /\
         st_moveCalls s' = st_moveCalls s ++ map (fun i => (pi_id i, fid)) items /\
         st_moves s' = st_moves s ++
                       map (fun i => (pi_id i, fid)) (filter (plan_ok e fid) items) /\
         pr_movedCount res = Some (length (filter (plan_ok e fid) items)) /\
         exists ec, pr_errorCount res = Some ec /\
                    length (filter (plan_ok e fid) items) + ec = length items).
Proof.
  intros H. destruct pp as [plan|]; cbn [executeAIPlan] in H.
  2:{ unfold ret in H. injection H as <- <-.
      exists noPendingPlan, None. split; [reflexivity|].
      split; [auto | discriminate]. }
  destruct (pl_items plan) as [[|i0 its]|] eqn:Ei.
  1,3: unfold ret in H; injection H as <- <-;
       exists noPendingPlan, (Some plan); split; [reflexivity|];
       split; [auto | discriminate].
  rewrite bind_eq in H.
  match type of H with
  | context [attempt ?m e s] => destruct (attempt m e s) as [r s1] eqn:Ea
  end.
  destruct (planFolder_spec _ _ _ _ _ Ea) as (x & -> & Hc & Hm & Hid).
  destruct x as [fo|t].
  2:{ unfold ret in H. injection H as <- <-.
      eexists; exists (Some plan). split; [reflexivity|].
      split; [auto | discriminate]. }
  destruct (truthy fo) as [fid|] eqn:Ef.
  2:{ unfold ret in H. injection H as <- <-.
      eexists; exists (Some plan). split; [reflexivity|].
      split; [auto | discriminate]. }
  destruct (Hid fo eq_refl fid Ef) as [Hne Hsrc].
  rewrite bind_eq in H.
  destruct (movePlanItems fid (i0 :: its) 0 0 _ e s1) as [o2 s2] eqn:Em.
  destruct (movePlanItems_spec _ _ _ _ _ _ _ _ _ Em)
    as (sc & ec & log' & -> & H1 & H2 & H3 & H4 & _).
  unfold ret in H. injection H as <- <-.
  eexists; exists None. split; [reflexivity|].
  split; [cbn [pr_success]; discriminate|].
  intros _. split; [reflexivity|].
  exists plan, (i0 :: its), fid. cbn [pr_movedCount pr_errorCount].
  repeat split; auto.
  - rewrite H3, Hc. reflexivity.
  - rewrite H4, Hm. reflexivity.
  - exists ec. split; [reflexivity | lia].
Qed.

Lemma executeAIPlan_outcome_witness :
  executeAIPlan planW envPlan initSt =
    (fst (executeAIPlan planW envPlan initSt), snd (executeAIPlan planW envPlan initSt)) /\
  exists res, fst (executeAIPlan planW envPlan initSt) = Ok (res, None) /\
    pr_success res = true /\ pr_movedCount res = Some 1 /\
    st_moveCalls (snd (executeAIPlan planW envPlan initSt)) = [("a", "P1"); ("b", "P1")].
Proof.
  assert (E : executeAIPlan planW envPlan initSt =
    (fst (executeAIPlan planW envPlan initSt), snd (executeAIPlan planW envPlan initSt)))
    by (destruct (executeAIPlan planW envPlan initSt); reflexivity).
  split; [exact E|].
  destruct (executeAIPlan_outcome _ _ _ _ _ E) as (res & pp' & Ho & _ & Ht).
  assert (Hs : pr_success res = true).
  { vm_compute in Ho. injection Ho as <- <-. reflexivity. }
  destruct (Ht Hs) as (-> & plan & items & fid & Hp & Hi & _ & Hsrc & Hc & _ & Hmc & _).
  injection Hp as <-. injection Hi as <-.
  assert (Hf : fid = "P1").
  { vm_compute in Hsrc. destruct Hsrc as [H|H]; [discriminate H | injection H as <-; reflexivity]. }
  subst fid. exists res. split; [exact Ho|]. split; [exact Hs|]. split.
  - rewrite Hmc. reflexivity.
  - rewrite Hc. reflexivity.
Defined.

Lemma list_sum_perm (l l' : list nat) : Permutation l l' -> list_sum l = list_sum l'.
Proof. unfold list_sum. induction 1; cbn [fold_right] in *; lia. Qed.

Lemma list_sum_cons (x : nat) (l : list nat) : list_sum (x :: l) = x + list_sum l.
Proof. reflexivity. Qed.

Lemma insert_desc_perm {A} (key : A -> nat) (x : A) (l : list A) :
  Permutation (insert_desc key x l) (x :: l).
Proof.
  induction l as [|y l IH]; cbn [insert_desc]; [auto|].
  destruct (Nat.ltb (key y) (key x)); [auto|].
  eapply perm_trans; [apply perm_skip, IH | apply perm_swap].
Qed.

Lemma sort_desc_perm_gen {A} (key : A -> nat) (l acc : list A) :
  Permutation (fold_left (fun acc x => insert_desc key x acc) l acc) (l ++ acc).
Proof.
  revert acc. induction l as [|x l IH]; intros acc; cbn [fold_left app]; [auto|].
  eapply perm_trans; [apply IH|].
  eapply perm_trans; [apply Permutation_app_head, insert_desc_perm|].
  apply Permutation_sym, Permutation_middle.
Qed.

Lemma sort_desc_perm {A} (key : A -> nat) (l : list A) : Permutation (sort_desc key l) l.
Proof. unfold sort_desc. rewrite <- (app_nil_r l) at 2. apply sort_desc_perm_gen. Qed.

Lemma insert_desc_sorted {A} (key : A -> nat) (x : A) (l : list A) :
  Sorted (fun a b => key b <= key a) l ->
  Sorted (fun a b => key b <= key a) (insert_desc key x l).
Proof.
  induction 1 as [|y l Hs IH Hh]; cbn [insert_desc]; [auto|].
  destruct (Nat.ltb (key y) (key x)) eqn:E.
  - apply Nat.ltb_lt in E. constructor; [constructor; assumption|]. constructor. lia.
  - apply Nat.ltb_ge in E. constructor; [exact IH|].
    destruct l as [|z l]; cbn [insert_desc]; [constructor; exact E|].
    inversion Hh; subst.
    destruct (Nat.ltb (key z) (key x)); constructor; assumption.
Qed.

Lemma sort_desc_sorted {A} (key : A -> nat) (l : list A) :
  Sorted (fun a b => key b <= key a) (sort_desc key l).
Proof.
  unfold sort_desc.
  assert (G : forall acc, Sorted (fun a b => key b <= key a) acc ->
            Sorted (fun a b => key b <= key a)
              (fold_left (fun acc x => insert_desc key x acc) l acc)).
  { induction l as [|x l IH]; intros acc H; cbn [fold_left]; [exact H|].
    apply IH, insert_desc_sorted, H. }
  apply G. constructor.
Qed.

Lemma set_add_NoDup (x : string) (l : list string) : NoDup l -> NoDup (set_add x l).
Proof.
  intros H. unfold set_add. destruct (mem x l) eqn:E; [exact H|].
  apply mem_false in E. apply NoDup_app; [exact H | constructor; [intros []|constructor]|].
  intros y Hy [<-|[]]. exact (E Hy).
Qed.

Lemma count_add_keys (k : string) (c : list (string * nat)) :
  map fst (count_add k c) = set_add k (map fst c).
Proof.
  induction c as [|[k' n] c IH]; [reflexivity|].
  cbn [count_add map fst]. unfold set_add. cbn [mem existsb].
  destruct (String.eqb k k') eqn:E; cbn [orb map fst]; [reflexivity|].
  fold (mem k (map fst c)). rewrite IH. unfold set_add.
  destruct (mem k (map fst c)); reflexivity.
Qed.

Lemma count_add_get (k k' : string) (c : list (string * nat)) :
  count_get k' (count_add k c) =
  if String.eqb k' k then S (count_get k' c) else count_get k' c.
Proof.
  induction c as [|[k0 n] c IH]; cbn [count_add count_get].
  - destruct (String.eqb k' k); reflexivity.
  - destruct (String.eqb_spec k k0) as [<-|Hne]; cbn [count_get].
    + destruct (String.eqb k' k); reflexivity.
    + rewrite IH. destruct (String.eqb_spec k' k0) as [->|Hne'].
      * apply String.eqb_neq in Hne. rewrite String.eqb_sym, Hne. reflexivity.
      * reflexivity.
Qed.

Lemma count_add_sum (k : string) (c : list (string * nat)) :
  list_sum (map snd (count_add k c)) = S (list_sum (map snd c)).
Proof.
  induction c as [|[k0 n] c IH]; cbn [count_add]; [reflexivity|].
  unfold list_sum in *. destruct (String.eqb k k0); cbn [map snd fold_right] in *; lia.
Qed.

Lemma count_add_pos (k : string) (c : list (string * nat)) :
  Forall (fun p => 0 < snd p) c -> Forall (fun p => 0 < snd p) (count_add k c).
Proof.
  induction 1 as [|[k0 n] c Hn Hc IH]; cbn [count_add].
  - constructor; [cbn; lia | constructor].
  - destruct (String.eqb k k0); constructor; cbn [snd] in *; auto; lia.
Qed.

Lemma count_get_In (k : string) (n : nat) (c : list (string * nat)) :
  NoDup (map fst c) -> In (k, n) c -> count_get k c = n.
Proof.
  induction c as [|[k0 n0] c IH]; intros ND Hin; [destruct Hin|].
  cbn [map fst] in ND. inversion ND as [|? ? Hk0 ND']; subst.
  cbn [count_get]. destruct Hin as [Heq|Hin].
  - injection Heq as -> ->. rewrite String.eqb_refl. reflexivity.
  - destruct (String.eqb_spec k k0) as [->|_]; [|apply IH; assumption].
    exfalso. apply Hk0. apply (in_map fst) in Hin. exact Hin.
Qed.


Lemma countFold_NoDup (messages : list Msg) (c0 : list (string * nat)) :
  NoDup (map fst c0) -> NoDup (map fst (countFold messages c0)).
Proof.
  unfold countFold. revert c0. induction messages as [|m ms IH]; intros c0 H; [exact H|].
  cbn [fold_left]. apply IH. rewrite count_add_keys. apply set_add_NoDup, H.
Qed.

Lemma countFold_get (k : string) (messages : list Msg) (c0 : list (string * nat)) :
  count_get k (countFold messages c0) = count_get k c0 + labelCount k messages.
Proof.
  unfold countFold, labelCount. revert c0.
  induction messages as [|m ms IH]; intros c0; cbn [fold_left filter length]; [lia|].
  rewrite IH, count_add_get, (String.eqb_sym k (folderLabel m)).
  destruct (String.eqb (folderLabel m) k); cbn [length]; lia.
Qed.

Lemma countFold_keys (k : string) (messages : list Msg) (c0 : list (string * nat)) :
  In k (map fst (countFold messages c0)) <->
  In k (map fst c0) \/ exists m, In m messages /\ folderLabel m = k.
Proof.
  unfold countFold. revert c0.
  induction messages as [|m ms IH]; intros c0; cbn [fold_left].
  - split; [tauto|]. intros [H|(m & [] & _)]. exact H.
  - rewrite IH, count_add_keys, set_add_In. split.
    + intros [[H|H]|(m' & Hm' & Hl)]; [left; exact H| |].
      * right. exists m. split; [left; reflexivity | symmetry; exact H].
      * right. exists m'. split; [right; exact Hm' | exact Hl].
    + intros [H|(m' & [<-|Hm'] & Hl)]; [left; left; exact H| left; right; symmetry; exact Hl|].
      right. exists m'. split; assumption.
Qed.

Lemma countFold_sum (messages : list Msg) (c0 : list (string * nat)) :
  list_sum (map snd (countFold messages c0)) = list_sum (map snd c0) + length messages.
Proof.
  unfold countFold. revert c0.
  induction messages as [|m ms IH]; intros c0; cbn [fold_left length]; [lia|].
  rewrite IH, count_add_sum. lia.
Qed.

Lemma countFold_pos (messages : list Msg) (c0 : list (string * nat)) :
  Forall (fun p => 0 < snd p) c0 -> Forall (fun p => 0 < snd p) (countFold messages c0).
Proof.
  unfold countFold. revert c0.
  induction messages as [|m ms IH]; intros c0 H; cbn [fold_left]; [exact H|].
  apply IH, count_add_pos, H.
Qed.

Lemma countByFolder_perm (messages : list Msg) :
  Permutation (countByFolder messages) (countFold messages []).
Proof. unfold countByFolder. apply sort_desc_perm. Qed.

(** [duplicateCountOf] adds [len - 1] for every group: a group of one
    message adds nothing either way. *)
Lemma duplicateCountOf_sum (groups : list (string * list Msg)) :
  duplicateCountOf groups = list_sum (map (fun g => length (snd g) - 1) groups).
Proof.
  unfold duplicateCountOf.
  assert (G : forall n0, fold_left (fun n g => if Nat.ltb 1 (length (snd g))
                                             then n + (length (snd g) - 1) else n) groups n0
                         = n0 + list_sum (map (fun g => length (snd g) - 1) groups)).
  { induction groups as [|g gs IH]; intros n0; cbn [fold_left map list_sum fold_right]; [lia|].
    rewrite IH. fold (list_sum (map (fun g => length (snd g) - 1) gs)).
    destruct (Nat.ltb_spec 1 (length (snd g))); lia. }
  rewrite G. reflexivity.
Qed.

Lemma filter_or_length {A} (f g : A -> bool) (l : list A) :
  (forall x, In x l -> f x = true -> g x = false) ->
  length (filter (fun x => f x || g x) l) = length (filter f l) + length (filter g l).
Proof.
  induction l as [|x l IH]; intros H; [reflexivity|].
  assert (IH' := IH (fun y Hy => H y (or_intror Hy))).
  cbn [filter]. destruct (f x) eqn:Ef; cbn [orb].
  - rewrite (H x (or_introl eq_refl) Ef). cbn [length]. lia.
  - destruct (g x); cbn [length]; lia.
Qed.

Lemma sum_sameId (K : list string) (l : list Msg) :
  NoDup K ->
  list_sum (map (fun k => length (sameId k l)) K) =
  length (filter (fun m => mem (messageId m) K) l).
Proof.
  induction K as [|k K IH]; intros ND.
  - cbn. induction l as [|m l IHl]; [reflexivity|]. exact IHl.
  - inversion ND as [|? ? Hk ND']; subst.
    cbn [map list_sum fold_right]. fold (list_sum (map (fun k => length (sameId k l)) K)).
    rewrite IH by exact ND'. unfold mem. cbn [existsb].
    rewrite (filter_or_length (fun m => String.eqb (messageId m) k)
               (fun m => existsb (String.eqb (messageId m)) K)).
    + reflexivity.
    + intros m _ Hm. apply String.eqb_eq in Hm. rewrite Hm.
      fold (mem k K). apply mem_false, Hk.
Qed.

Lemma sameId_keys_nonempty (messages : list Msg) (k : string) :
  In k (keysOf messages) -> 1 <= length (sameId k messages).
Proof.
  intros Hk. apply keysOf_In in Hk as (_ & m & Hm & Hid).
  destruct (sameId k messages) as [|a r] eqn:E; [|cbn; lia].
  assert (Hin : In m (sameId k messages))
    by (apply filter_In; split; [exact Hm | apply String.eqb_eq, Hid]).
  rewrite E in Hin. destruct Hin.
Qed.

Lemma sum_pred_length (K : list string) (f : string -> nat) :
  Forall (fun k => 1 <= f k) K ->
  list_sum (map (fun k => f k - 1) K) + length K = list_sum (map f K).
Proof.
  unfold list_sum in *. induction 1 as [|k K Hk HK IH]; cbn [map fold_right length] in *; lia.
Qed.

(* ------------------------------------------------------------------ *)

(** [countByFolder] lists every folder label of the messages once, with
    the number of messages carrying it (always positive), sorted by
    descending count; the counts add up to the number of messages. *)
Theorem countByFolder_counts (messages : list Msg) :
  let c := countByFolder messages in
  NoDup (map fst c) /\
  (forall k n, In (k, n) c -> n = labelCount k messages /\ 0 < n) /\
  (forall k, In k (map fst c) <-> exists m, In m messages /\ folderLabel m = k) /\
  Sorted (fun a b => snd b <= snd a) c /\
  list_sum (map snd c) = length messages.
Proof.
  cbv zeta. pose proof (countByFolder_perm messages) as Hp.
  assert (HND : NoDup (map fst (countFold messages []))) by (apply countFold_NoDup; constructor).
  split; [|split; [|split; [|split]]].
  - apply (Permutation_NoDup (Permutation_map fst (Permutation_sym Hp))), HND.
  - intros k n Hin. apply (Permutation_in _ Hp) in Hin. split.
    + rewrite <- (count_get_In _ _ _ HND Hin), countFold_get. reflexivity.
    + exact (proj1 (Forall_forall _ _) (countFold_pos messages [] (Forall_nil _)) _ Hin).
  - intros k. split.
    + intros H. apply (Permutation_in _ (Permutation_map fst Hp)), countFold_keys in H.
      destruct H as [[]|H]. exact H.
    + intros H. apply (Permutation_in _ (Permutation_map fst (Permutation_sym Hp))).
      apply countFold_keys. right. exact H.
  - apply sort_desc_sorted.
  - rewrite (list_sum_perm _ _ (Permutation_map snd Hp)), countFold_sum. reflexivity.
Qed.

(** The duplicate count is the number of messages with a non-empty
    Message-ID minus the number of distinct such IDs (one group each);
    the reported duplicate groups, sorted by descending count, each hold
    at least two messages, and their counts add up to the duplicate count
    plus the number of groups. *)
Theorem duplicateCount_distinct (messages : list Msg) :
  let groups := emailGroupsOf messages in
  duplicateCountOf groups + length groups =
    length (filter (fun m => negb (String.eqb (messageId m) EmptyString)) messages) /\
  Sorted (fun a b => dg_count b <= dg_count a) (duplicateGroupsOf groups) /\
  Forall (fun d => 2 <= dg_count d) (duplicateGroupsOf groups) /\
  list_sum (map dg_count (duplicateGroupsOf groups)) =
    duplicateCountOf groups + length (duplicateGroupsOf groups).
Proof.
  cbv zeta. split; [|split; [|split]].
  - rewrite duplicateCountOf_sum, emailGroupsOf_eq, map_map, length_map. cbn [snd].
    rewrite sum_pred_length.
    + rewrite sum_sameId by apply keysOf_NoDup. apply f_equal.
      apply filter_ext_in. intros m Hm.
      destruct (String.eqb_spec (messageId m) EmptyString) as [He|Hne]; cbn [negb].
      * apply mem_false. rewrite keysOf_In. intros [Hk _]. exact (Hk He).
      * apply mem_In, keysOf_In. split; [exact Hne|]. exists m. split; [exact Hm | reflexivity].
    + apply Forall_forall. intros k Hk. apply sameId_keys_nonempty, Hk.
  - unfold duplicateGroupsOf. apply sort_desc_sorted.
  - unfold duplicateGroupsOf. apply Forall_forall. intros d Hd.
    apply (Permutation_in _ (sort_desc_perm _ _)) in Hd.
    apply in_flat_map in Hd as (g & _ & Hd).
    destruct (snd g) as [|a [|b r]] eqn:Eg; [destruct Hd | destruct Hd|].
    destruct Hd as [<-|[]]. cbn [dg_count]. cbn [length]. lia.
  - unfold duplicateGroupsOf. rewrite duplicateCountOf_sum.
    rewrite (list_sum_perm _ _ (Permutation_map dg_count (sort_desc_perm _ _))).
    rewrite (Permutation_length (sort_desc_perm _ _)).
    induction (emailGroupsOf messages) as [|g gs IH]; [reflexivity|].
    cbn [flat_map map]. rewrite list_sum_cons, map_app, list_sum_app, length_app, IH.
    destruct (snd g) as [|a [|b r]]; cbn [map length dg_count app];
      rewrite ?list_sum_cons; cbn [list_sum fold_right]; lia.
Qed.

Lemma pushPage_count (page : list Msg) (g g' : Agg) (inc inc' : nat) :
  pushPage page g inc = (g', inc') ->
  length (a_messages g') + inc = length (a_messages g) + inc' /\
  inc' <= inc + length page.
Proof.
  revert g inc. induction page as [|m page IH]; intros g inc Hp;
    cbn [pushPage] in Hp.
  - injection Hp as <- <-. cbn [length]. lia.
  - cbn [length].
    destruct (String.eqb (id m) EmptyString);
      [destruct (IH _ _ Hp); lia|].
    destruct (mem (id m) (a_seen g)); [destruct (IH _ _ Hp); lia|].
    destruct (Nat.leb MAX_EMAILS_TO_PROCESS _).
    + injection Hp as <- <-. cbn [a_messages]. rewrite length_app. cbn [length]. lia.
    + destruct (IH _ _ Hp) as [H1 H2]. cbn [a_messages] in H1.
      rewrite length_app in H1. cbn [length] in H1. lia.
Qed.

Lemma folderLoop_count (fuel : nat) (folder : FolderRef) (g : Agg)
    (fetched inc off pi : nat) (e : Env) (s s' : St) o :
  folderLoop fuel folder g fetched inc off pi e s = (o, s') ->
  exists g' fetched' inc' err, o = Ok (g', fetched', inc', err) /\
    length (a_messages g') + inc = length (a_messages g) + inc' /\
    inc' + fetched <= inc + fetched'.
Proof.
  revert g fetched inc off pi s.
  induction fuel as [|fuel IH]; intros g fetched inc off pi s H; cbn [folderLoop] in H.
  - unfold ret in H. injection H as <- <-. do 4 eexists. split; [reflexivity|]. lia.
  - destruct (_ && _ && _); [|unfold ret in H; injection H as <- <-;
                                do 4 eexists; split; [reflexivity|]; lia].
    destruct (Nat.eqb _ 0); [unfold ret in H; injection H as <- <-;
                             do 4 eexists; split; [reflexivity|]; lia|].
    unfold bind at 1 in H. rewrite attempt_fetchPage in H.
    destruct (env_page e (st_moves s) folder _ off) as [page|t].
    + destruct (pushPage page g inc) as [g1 inc1] eqn:Pp.
      destruct (pushPage_count _ _ _ _ _ Pp) as [P1 P2].
      destruct (Nat.ltb (length page) _).
      * unfold ret in H. injection H as <- <-. do 4 eexists. split; [reflexivity|]. lia.
      * destruct (IH _ _ _ _ _ _ H) as (g' & f' & i' & er & -> & H1 & H2).
        do 4 eexists. split; [reflexivity|]. lia.
    + unfold ret in H. injection H as <- <-. do 4 eexists. split; [reflexivity|]. lia.
Qed.

Lemma foldersLoop_stats (folders : list FolderRef) (g : Agg) (stats : list FolderStat)
    (e : Env) (s s' : St) o :
  foldersLoop folders g stats e s = (o, s') ->
  exists msgs new, o = Ok (msgs, stats ++ new) /\
    length msgs = length (a_messages g) + list_sum (map fs_included new) /\
    Forall (fun st => fs_included st <= fs_fetched st) new /\
    length new <= length folders /\
    (folders <> [] -> new <> []) /\
    map fs_folder new = map f_name (firstn (length new) folders).
Proof.
  revert g stats s. induction folders as [|folder rest IH]; intros g stats s H;
    cbn [foldersLoop] in H.
  - unfold ret in H. injection H as <- <-.
    exists (a_messages g), []. rewrite app_nil_r. cbn. repeat split; auto; lia.
  - unfold bind at 1 in H.
    destruct (folderLoop maxPagesPerFolder folder g 0 0 0 0 e s) as [o1 s1] eqn:Fl.
    destruct (folderLoop_count _ _ _ _ _ _ _ _ _ _ _ Fl)
      as (g' & fetched & included & err & -> & H1 & H2).
    set (stat := match err with
                 | Some t =>
                     if String.eqb t EmptyString
                     then mkFolderStat (f_name folder) fetched included None
                            (Nat.leb perFolderMax fetched
                             || Nat.leb MAX_EMAILS_TO_PROCESS (length (a_messages g')))
                     else mkFolderStat (f_name folder) fetched included (Some t) false
                 | None => mkFolderStat (f_name folder) fetched included None
                             (Nat.leb perFolderMax fetched
                              || Nat.leb MAX_EMAILS_TO_PROCESS (length (a_messages g')))
                 end) in H.
    assert (Hs : fs_folder stat = f_name folder /\ fs_fetched stat = fetched /\
                 fs_included stat = included)
      by (unfold stat; destruct err as [t|]; [destruct (String.eqb t EmptyString)|]; auto).
    destruct Hs as (Hs1 & Hs2 & Hs3).
    destruct (Nat.leb MAX_EMAILS_TO_PROCESS (length (a_messages g'))).
    + unfold ret in H. injection H as <- <-.
      exists (a_messages g'), [stat]. split; [reflexivity|].
      cbn [map list_sum fold_right firstn length].
      split; [lia|]. split; [constructor; [lia | constructor]|].
      split; [lia|]. split; [discriminate|]. rewrite Hs1. reflexivity.
    + destruct (IH _ _ _ H) as (msgs & new & Ho & G1 & G2 & G3 & G4 & G5).
      exists msgs, (stat :: new). split; [rewrite Ho, <- app_assoc; reflexivity|].
      cbn [map list_sum fold_right firstn length].
      fold (list_sum (map fs_included new)).
      split; [lia|]. split; [constructor; [lia | exact G2]|].
      split; [cbn [length] in G3; lia|]. split; [discriminate|].
      rewrite Hs1, G5. reflexivity.
Qed.

(** What the dry run may change: the log and the served pages, nothing
    else. *)
Lemma processBody_dry_frame (inc : bool) (e : Env) (s s' : St) o :
  processBody true inc e s = (o, s') ->
  st_inProgress s' = st_inProgress s /\ st_moveCalls s' = st_moveCalls s /\
  st_moves s' = st_moves s /\ st_created s' = st_created s /\
  st_stored s' = st_stored s /\ forall r, o = Ok r -> rr_archivedCount r = Some 0 \/ rr_archivedCount r = None.
Proof.
  unfold processBody. rewrite !bind_logp, bind_eq. intros H.
  destruct (fetchMessagesAcrossInboxAndSubfolders inc e _) as [o1 s1] eqn:Fa.
  destruct (fetchAll_spec _ _ _ _ _ Fa) as [(Fr1 & _ & Fr3 & Fr4 & Fr5 & Fr6) _].
  cbn [set_log st_inProgress st_moveCalls st_moves st_created st_stored] in Fr1, Fr3, Fr4, Fr5, Fr6.
  destruct o1 as [[msgs stats]|t].
  2:{ injection H as <- <-. repeat split; auto. intros r Hr. discriminate Hr. }
  rewrite bind_logp in H.
  cbn [fst snd] in H.
  match type of H with
  | bind (appendFolderStatsToLog ?t ?st) ?k ?e ?s0 = _ =>
      destruct (bind_appendFolderStatsToLog t st k e s0) as [ls E]
  end.
  rewrite E in H. clear E.
  destruct msgs as [|m ms].
  - rewrite bind_logp, bind_currentLog in H. unfold ret in H. injection H as <- <-.
    cbn. repeat split; auto. intros r Hr. injection Hr as <-. left. reflexivity.
  - rewrite !bind_logp in H.
    match type of H with
    | bind (appendCountsToLog ?t ?rows) ?k ?e ?s0 = _ =>
        destruct (bind_appendCountsToLog t rows k e s0) as [ls' E]
    end.
    rewrite E, bind_logp in H. clear E. cbv iota in H.
    rewrite bind_currentLog in H. unfold ret in H. injection H as <- <-.
    cbn. repeat split; auto. intros r Hr. injection Hr as <-. right. reflexivity.
Qed.

Section TriageResults.
Variable abortedAt : nat -> bool.
Variable ollama : Msg -> OllamaReply.
Variable folderFor : string -> option string.
Variable moveItem : string -> string -> option string.


Lemma normalizeLabel_valid (f : string) : In (normalizeLabel f) validFolders.
Proof.
  unfold normalizeLabel, validFolders. cbv zeta.
  repeat match goal with |- context [if ?b then _ else _] => destruct b end;
    cbn; tauto.
Qed.

Lemma classification_folder_valid (reply : OllamaReply) (f : string) :
  truthy (c_folder (classifySingleEmail reply)) = Some f ->
  c_folder (classifySingleEmail reply) = Some f /\ In f validFolders.
Proof.
  intros H. destruct (truthy_some _ _ H) as [Hc Hne]. split; [exact Hc|].
  destruct reply as [err| |err|isMatch [raw|] reasoning];
    cbn [classifySingleEmail c_folder folderOf] in Hc; try discriminate Hc.
  unfold folderOf in Hc. cbv zeta in Hc.
  destruct (negb (String.eqb (trim raw) EmptyString) && negb (mem (trim raw) validFolders)) eqn:Ec.
  - injection Hc as <-. apply normalizeLabel_valid.
  - injection Hc as Ht. rewrite <- Ht in Hne.
    apply String.eqb_neq in Hne. rewrite Hne in Ec. cbn [negb andb] in Ec.
    apply negb_false_iff, mem_In in Ec. rewrite <- Ht. exact Ec.
Qed.

Lemma cache_get_ok (k : string) (v : option string) cache :
  CacheOk folderFor cache -> cache_get k cache = Some v -> v = folderFor k.
Proof.
  induction 1 as [|[k' v'] cache Hkv Hc IH]; cbn [cache_get]; [discriminate|].
  destruct (String.eqb_spec k k') as [->|_]; [|exact IH].
  intros Hv. injection Hv as <-. exact Hkv.
Qed.

Lemma triageLoop_results (emails : list Msg) (i total : nat) cache results
    (movedCount : nat) progress :
  CacheOk folderFor cache ->
  movedCount = length (filter t_moved results) ->
  map p_result progress = results ->
  Forall (MovedOk folderFor moveItem) results ->
  let o := triageLoop abortedAt ollama folderFor moveItem i emails total cache
             results movedCount progress in
  o_moved o = length (filter t_moved (o_results o)) /\
  map p_result (o_progress o) = o_results o /\
  Forall (MovedOk folderFor moveItem) (o_results o) /\
  exists new, o_results o = results ++ new /\
    map t_id new = map id (firstn (length new) emails) /\
    (o_aborted o = true -> o_processed o = i + length new) /\
    (o_aborted o = false -> o_processed o = total /\ length new = length emails).
Proof.
  revert i cache results movedCount progress.
  induction emails as [|email rest IH]; intros i cache results movedCount progress
    Hc Hm Hp Hr; cbv zeta; cbn [triageLoop].
  - cbn [o_moved o_results o_progress o_aborted o_processed].
    split; [exact Hm|]. split; [exact Hp|]. split; [exact Hr|].
    exists []. rewrite app_nil_r. split; [reflexivity|]. split; [reflexivity|].
    split; [discriminate | auto].
  - destruct (abortedAt i).
    { cbn [o_moved o_results o_progress o_aborted o_processed].
      split; [exact Hm|]. split; [exact Hp|]. split; [exact Hr|].
      exists []. rewrite app_nil_r. split; [reflexivity|]. split; [reflexivity|].
      split; [intros _; cbn; lia | discriminate]. }
    cbv zeta.
    set (cl := classifySingleEmail (ollama email)).
    assert (Step : forall cache' r mc',
              CacheOk folderFor cache' -> mc' = length (filter t_moved (results ++ [r])) ->
              MovedOk folderFor moveItem r -> t_id r = id email ->
              let o := triageLoop abortedAt ollama folderFor moveItem (S i) rest total cache'
                         (results ++ [r]) mc'
                         (progress ++ [mkProgress (S i) total (subject email) mc' r]) in
              o_moved o = length (filter t_moved (o_results o)) /\
              map p_result (o_progress o) = o_results o /\
              Forall (MovedOk folderFor moveItem) (o_results o) /\
              exists new, o_results o = results ++ new /\
                map t_id new = map id (firstn (length new) (email :: rest)) /\
                (o_aborted o = true -> o_processed o = i + length new) /\
                (o_aborted o = false -> o_processed o = total /\
                                        length new = length (email :: rest))).
    { intros cache' r mc' Hc' Hm' Hr' Hid. cbv zeta.
      destruct (IH (S i) cache' (results ++ [r]) mc'
                  (progress ++ [mkProgress (S i) total (subject email) mc' r]))
        as (G1 & G2 & G3 & new & G4 & G5 & G6 & G7).
      - exact Hc'.
      - exact Hm'.
      - rewrite map_app, Hp. reflexivity.
      - apply Forall_app. split; [exact Hr | constructor; [exact Hr' | constructor]].
      - split; [exact G1|]. split; [exact G2|]. split; [exact G3|].
        exists (r :: new). split; [rewrite G4, <- app_assoc; reflexivity|].
        split; [cbn [map firstn length]; rewrite Hid, G5; reflexivity|].
        split.
        + intros Ha. rewrite (G6 Ha). cbn [length]. lia.
        + intros Ha. destruct (G7 Ha) as [G8 G9]. split; [exact G8 | cbn [length]; lia]. }
    destruct (truthy (c_folder cl)) as [folderName|] eqn:Ef.
    + destruct (classification_folder_valid _ _ Ef) as [Hcf Hvalid].
      set (cache' := match cache_get folderName cache with
                     | Some _ => cache
                     | None => cache ++ [(folderName, folderFor folderName)]
                     end).
      assert (Hc' : CacheOk folderFor cache').
      { unfold cache'. destruct (cache_get folderName cache); [exact Hc|].
        apply Forall_app. split; [exact Hc | constructor; [reflexivity | constructor]]. }
      assert (Hg : match cache_get folderName cache' with
                   | Some v => v
                   | None => None
                   end = folderFor folderName).
      { unfold cache'. destruct (cache_get folderName cache) as [v|] eqn:Eg.
        - rewrite Eg. exact (cache_get_ok _ _ _ Hc Eg).
        - rewrite (cache_get_app_new _ _ _ Eg). reflexivity. }
      fold cache'. rewrite Hg.
      destruct (truthy (folderFor folderName)) as [fid|] eqn:Efid.
      * destruct (c_error cl) as [err|] eqn:Eerr.
        -- apply Step; [exact Hc' | | | reflexivity].
           ++ rewrite filter_app, length_app, <- Hm. cbn. lia.
           ++ intros Hmv. discriminate Hmv.
        -- destruct (moveItem (id email) fid) as [merr|] eqn:Emv.
           ++ apply Step; [exact Hc' | | | reflexivity].
              ** rewrite filter_app, length_app, <- Hm. cbn. lia.
              ** intros Hmv. discriminate Hmv.
           ++ apply Step; [exact Hc' | | | reflexivity].
              ** rewrite filter_app, length_app, <- Hm. cbn. lia.
              ** intros _. cbn [t_error t_folder t_id]. split; [reflexivity|].
                 destruct (truthy_some _ _ Efid) as [Hff Hne].
                 exists folderName, fid. repeat split; assumption.
      * apply Step; [exact Hc' | | | reflexivity].
        -- rewrite filter_app, length_app, <- Hm. cbn. lia.
        -- intros Hmv. discriminate Hmv.
    + apply Step; [exact Hc | | | reflexivity].
      * rewrite filter_app, length_app, <- Hm. cbn. lia.
      * intros Hmv. discriminate Hmv.
Qed.
End TriageResults.


(** A successful aggregator run reports one row per folder it visited,
    at least one and at most 30 (only the Inbox when subfolders are not
    included), the first for the Inbox; each row includes no more messages
    than it fetched, and the included counts add up to the number of
    messages returned. *)
Theorem fetchAll_folderStats (inc : bool) (e : Env) (s s' : St)
    (msgs : list Msg) (stats : list FolderStat) :
  fetchMessagesAcrossInboxAndSubfolders inc e s = (Ok (msgs, stats), s') ->
  length msgs = list_sum (map fs_included stats) /\
  Forall (fun st => fs_included st <= fs_fetched st) stats /\
  1 <= length stats <= (if inc then MAX_FOLDERS_TO_PROCESS else 1) /\
  exists rest, map fs_folder stats = "Inbox" :: rest.
Proof.
  unfold fetchMessagesAcrossInboxAndSubfolders. rewrite bind_eq. intros H.
  assert (G : forall folders, 1 <= length folders ->
            length folders <= (if inc then MAX_FOLDERS_TO_PROCESS else 1) ->
            (exists fs, folders = inboxRef :: fs) ->
            foldersLoop folders (mkAgg [] []) [] e s = (Ok (msgs, stats), s') ->
            length msgs = list_sum (map fs_included stats) /\
            Forall (fun st => fs_included st <= fs_fetched st) stats /\
            1 <= length stats <= (if inc then MAX_FOLDERS_TO_PROCESS else 1) /\
            exists rest, map fs_folder stats = "Inbox" :: rest).
  { intros folders Hl1 Hl2 [fs ->] Hf.
    destruct (foldersLoop_stats _ _ _ _ _ _ _ Hf) as (ms & new & Ho & H1 & H2 & H3 & H4 & H5).
    injection Ho as <- Hst. cbn [app] in Hst. subst new.
    split; [exact H1|]. split; [exact H2|].
    destruct stats as [|st0 sts]; [exfalso; apply H4; [discriminate | reflexivity]|].
    split; [cbn [length] in *; lia|].
    cbn [map firstn length] in H5. injection H5 as H5 H6.
    exists (map fs_folder sts). cbn [map]. rewrite H5. reflexivity. }
  destruct inc.
  - rewrite bind_eq in H.
    destruct (listInboxSubfolders e s) as [o1 s1] eqn:L.
    pose proof (listInboxSubfolders_frame _ _ _ _ L) as ->.
    destruct o1 as [subs|t]; [|discriminate H].
    unfold ret in H. apply (G (inboxRef :: map subfolderRef (firstn (MAX_FOLDERS_TO_PROCESS - 1) subs))); [cbn [length]; lia | | eexists; reflexivity | exact H].
    cbn [length]. rewrite length_map, length_firstn. unfold MAX_FOLDERS_TO_PROCESS. lia.
  - unfold ret in H. apply (G [inboxRef]); [cbn; lia | cbn; lia | eexists; reflexivity | exact H].
Qed.

(** A dry run ([dryRun = true]) never throws, makes no move call, moves
    nothing, creates no folder, stores no result and leaves the
    single-flight flag as it found it; it never reports archived
    messages. *)
Theorem dryRun_no_side_effects (inc : bool) (e : Env) (s s' : St) o :
  processAndArchiveEmails true inc e s = (o, s') ->
  st_moveCalls s' = st_moveCalls s /\ st_moves s' = st_moves s /\
  st_created s' = st_created s /\ st_stored s' = st_stored s /\
  st_inProgress s' = st_inProgress s /\
  exists r, o = Ok r /\ (rr_archivedCount r = None \/ rr_archivedCount r = Some 0).
Proof.
  intros H. destruct (st_inProgress s) eqn:Ef.
  - rewrite (processAndArchiveEmails_busy _ _ _ _ Ef) in H. injection H as <- <-.
    repeat split; auto. exists res_busy. split; [reflexivity | left; reflexivity].
  - rewrite (processAndArchiveEmails_eq _ _ _ _ Ef) in H.
    destruct (processBody true inc e (set_log [] (set_inProgress true s))) as [[r|t] s1] eqn:Ep;
      destruct (processBody_dry_frame _ _ _ _ _ Ep) as (F1 & F2 & F3 & F4 & F5 & F6);
      injection H as <- <-; cbn in F2, F3, F4, F5 |- *;
      (split; [exact F2|]); (split; [exact F3|]); (split; [exact F4|]);
      (split; [exact F5|]); (split; [reflexivity|]).
    + exists r. split; [reflexivity|]. destruct (F6 r eq_refl); [right | left]; assumption.
    + eexists. split; [reflexivity | left; reflexivity].
Qed.

(** Whatever the classifier, folder lookups and moves answer, and
    whenever the run is aborted: [moved] is the number of results marked
    moved, every result is reported to [onProgress] in order, the results
    are those of the first [processed] emails, in order, and a result
    marked moved has no error and went to a folder of the label set
    through a non-empty folder id by a successful move. *)
Theorem classifyAndMoveEmails_results (abortedAt : nat -> bool) (ollama : Msg -> OllamaReply)
    (folderFor : string -> option string) (moveItem : string -> string -> option string)
    (emails : list Msg) (maxIterations : nat) :
  let o := classifyAndMoveEmails abortedAt ollama folderFor moveItem emails maxIterations in
  o_moved o = length (filter t_moved (o_results o)) /\
  map p_result (o_progress o) = o_results o /\
  o_processed o = length (o_results o) /\
  map t_id (o_results o) = map id (firstn (o_processed o) emails) /\
  o_processed o <= Nat.min (length emails)
                     (if Nat.eqb maxIterations 0 then DEFAULT_EMAIL_ITERATIONS
                      else maxIterations) /\
  Forall (MovedOk folderFor moveItem) (o_results o).
Proof.
  cbv zeta. unfold classifyAndMoveEmails.
  destruct emails as [|email rest].
  { cbn. repeat split; auto. }
  cbv beta iota zeta.
  set (limit := Nat.min (length (email :: rest)) _).
  destruct (triageLoop_results abortedAt ollama folderFor moveItem
              (firstn limit (email :: rest)) 0 limit [] [] 0 []
              ltac:(constructor) eq_refl eq_refl ltac:(constructor))
    as (H1 & H2 & H3 & new & H4 & H5 & H6 & H7).
  cbv zeta in *. rewrite H4 in *. cbn [app] in *.
  assert (Hlen : length (firstn limit (email :: rest)) = limit)
    by (rewrite length_firstn; unfold limit; lia).
  assert (Hp : o_processed (triageLoop abortedAt ollama folderFor moveItem 0
                  (firstn limit (email :: rest)) limit [] [] 0 []) = length new).
  { destruct (o_aborted _) eqn:Ea; [apply H6; reflexivity|].
    destruct (H7 eq_refl) as [-> ->]. symmetry. exact Hlen. }
  assert (Hle : length new <= limit).
  { rewrite <- Hlen. rewrite <- (length_map t_id new), H5, length_map, length_firstn. lia. }
  split; [exact H1|]. split; [exact H2|]. split; [exact Hp|].
  split; [rewrite Hp, H5, firstn_firstn; f_equal; f_equal; lia|].
  split; [rewrite Hp; exact Hle | exact H3].
Qed.

Lemma fetchAll_folderStats_witness :
  exists msgs stats s',
    fetchMessagesAcrossInboxAndSubfolders true envC1 initSt = (Ok (msgs, stats), s') /\
    (length msgs = list_sum (map fs_included stats) /\
     Forall (fun st => fs_included st <= fs_fetched st) stats /\
     1 <= length stats <= MAX_FOLDERS_TO_PROCESS /\
     exists rest, map fs_folder stats = "Inbox" :: rest).
Proof.
  destruct (fetchMessagesAcrossInboxAndSubfolders true envC1 initSt) as [o s'] eqn:E.
  destruct o as [[msgs stats]|t]; [|vm_compute in E; discriminate E].
  exists msgs, stats, s'. split; [reflexivity|].
  exact (fetchAll_folderStats true envC1 initSt s' msgs stats E).
Defined.

Lemma dryRun_no_side_effects_witness :
  exists o s',
    processAndArchiveEmails true true envC1 initSt = (o, s') /\
    (st_moveCalls s' = st_moveCalls initSt /\ st_moves s' = st_moves initSt /\
     st_created s' = st_created initSt /\ st_stored s' = st_stored initSt /\
     st_inProgress s' = st_inProgress initSt /\
     exists r, o = Ok r /\ (rr_archivedCount r = None \/ rr_archivedCount r = Some 0)).
Proof.
  destruct (processAndArchiveEmails true true envC1 initSt) as [o s'] eqn:E.
  exists o, s'. split; [reflexivity|].
  exact (dryRun_no_side_effects true envC1 initSt s' o E).
Defined.
